(** * cjworkbench browser client: tile grid, autofetch quota groups,
    output pane and table-action helpers

  A shallow embedding of the pure parts of
    - assets/js/Report/Table.js            (tile counts, tile URL)
    - assets/js/params/Custom/VersionSelect/QuotaExceeded.js
                                            (groupAutofetches)
    - assets/js/WorkflowEditor/OutputPane.js (stepForTable, stepStatus,
                                            mapStateToProps)
    - the table-action helpers             (updateDuplicateModule)
  and of the tile store and scheduler behind [useTiles], which the
  specification describes.

  JavaScript numbers are IEEE 754 doubles: a finite double is held as
  the rational it stands for, and division, addition and subtraction
  round the exact result to the nearest double, ties to even, with the
  two zeros, the two infinities and NaN.  [QuotaExceeded] keeps the
  totals of the groups exact and serves the properties of the grouping
  that do not depend on them; [GroupAutofetches] computes them as the
  code does. *)

From Stdlib Require Import QArith Qround Lqa Ascii SpecFloat.
From stdpp Require Import base strings pretty list sorting gmap.

(* ===================================================================== *)
(** ** JavaScript values used by the embedded code                        *)
(* ===================================================================== *)

Module JS.

(** A JavaScript number, an IEEE 754 binary64 value: [Finite q] is the
    finite double of value [q], and +0 when [q] is zero; [NegZero] is
    -0. *)
Inductive number : Type :=
| Finite (q : Q)
| NegZero
| PosInfinity
| NegInfinity
| NaN.

(** The double of an integer that a double holds exactly (every integer
    up to 2^53 in absolute value is one). *)
Definition of_Z (z : Z) : number := Finite (inject_Z z).

Definition infinity (negative : bool) : number :=
  if negative then NegInfinity else PosInfinity.

Definition zero (negative : bool) : number :=
  if negative then NegZero else Finite 0.

(** The sign bit. *)
Definition negative (x : number) : bool :=
  match x with
  | Finite q => match (q ?= 0)%Q with Lt => true | _ => false end
  | NegZero | NegInfinity => true
  | PosInfinity | NaN => false
  end.

(** The value of a number that is finite. *)
Definition value (x : number) : Q :=
  match x with
  | Finite q => q
  | _ => 0
  end.

Definition is_zero (x : number) : bool :=
  match x with
  | Finite q => match (q ?= 0)%Q with Eq => true | _ => false end
  | NegZero => true
  | _ => false
  end.

(** *** Rounding to the nearest double, ties to even *)

(** [x * 2^k] for [0 <= k], and [x] for a negative [k]. *)
Definition up (x k : Z) : Z := (x * 2 ^ Z.max 0 k)%Z.

(** The integer [e] with [2^e <= n/d < 2^(e+1)], for positive [n] and
    [d]. *)
Definition ilog2 (n d : Z) : Z :=
  let l := (Z.log2 n - Z.log2 d)%Z in
  if (up d l <=? up n (- l))%Z then l else (l - 1)%Z.

(** The exponent of the last bit of the 53-bit significand of [n/d];
    it is -1074 for the subnormal numbers. *)
Definition exponent (n d : Z) : Z := Z.max (ilog2 n d - 52) (-1074).

(** The integer nearest to [n/d], the even one when two are as near. *)
Definition nearest_even (n d : Z) : Z :=
  match (2 * (n mod d) ?= d)%Z with
  | Lt => (n / d)%Z
  | Gt => (n / d + 1)%Z
  | Eq => if Z.even (n / d) then (n / d)%Z else (n / d + 1)%Z
  end.

(** The significand: [n/d] in units of [2^exponent], rounded. *)
Definition significand (n d : Z) : Z :=
  nearest_even (up n (- exponent n d)) (up d (exponent n d)).

(** The rational [m * 2^e]. *)
Definition scaled (m e : Z) : Q :=
  if (0 <? e)%Z then inject_Z (m * 2 ^ e)
  else Qmake m (Z.to_pos (2 ^ (- e))).

(** The double nearest to [n/d] or to [-(n/d)], for positive [n] and
    [d]: a zero when the significand rounds to zero, an infinity when
    the rounded value reaches [2^1024]. *)
Definition round_magnitude (negative : bool) (n d : Z) : number :=
  let e := exponent n d in
  let m := significand n d in
  if (m =? 0)%Z then zero negative
  else if (2 ^ 1024 <=? up m e)%Z then infinity negative
  else Finite (scaled (if negative then - m else m) e).

(** The double nearest to a rational; an exact zero rounds to +0. *)
Definition round64 (x : Q) : number :=
  if (Qnum x =? 0)%Z then Finite 0
  else round_magnitude (Qnum x <? 0)%Z (Z.abs (Qnum x)) (Z.pos (Qden x)).

(** *** Arithmetic *)

(** [x / y]; it never throws. *)
Definition div (x y : number) : number :=
  let sign := xorb (negative x) (negative y) in
  match x, y with
  | NaN, _ | _, NaN => NaN
  | (PosInfinity | NegInfinity), (PosInfinity | NegInfinity) => NaN
  | (PosInfinity | NegInfinity), _ => infinity sign
  | _, (PosInfinity | NegInfinity) => zero sign
  | _, _ =>
      if is_zero y then (if is_zero x then NaN else infinity sign)
      else if is_zero x then zero sign
      else round64 (value x / value y)
  end.

(** [-x]. *)
Definition neg (x : number) : number :=
  match x with
  | Finite q => if is_zero x then NegZero else Finite (- q)
  | NegZero => Finite 0
  | PosInfinity => NegInfinity
  | NegInfinity => PosInfinity
  | NaN => NaN
  end.

(** [x + y]. *)
Definition add (x y : number) : number :=
  match x, y with
  | NaN, _ | _, NaN => NaN
  | PosInfinity, NegInfinity | NegInfinity, PosInfinity => NaN
  | PosInfinity, _ | _, PosInfinity => PosInfinity
  | NegInfinity, _ | _, NegInfinity => NegInfinity
  | NegZero, NegZero => NegZero
  | _, _ => round64 (value x + value y)
  end.

(** [x - y]. *)
Definition sub (x y : number) : number := add x (neg y).

(** [a < b] on rationals. *)
Definition Qltb (a b : Q) : bool :=
  match (a ?= b)%Q with Lt => true | _ => false end.

(** [x < y]. *)
Definition lt (x y : number) : bool :=
  match x, y with
  | NaN, _ | _, NaN => false
  | PosInfinity, _ | _, NegInfinity => false
  | _, PosInfinity | NegInfinity, _ => true
  | _, _ => Qltb (value x) (value y)
  end.

(** [x === y] on numbers. *)
Definition strict_equal (x y : number) : bool :=
  match x, y with
  | NaN, _ | _, NaN => false
  | PosInfinity, PosInfinity | NegInfinity, NegInfinity => true
  | (PosInfinity | NegInfinity), _ | _, (PosInfinity | NegInfinity) => false
  | _, _ => Qeq_bool (value x) (value y)
  end.

(** A number in a condition: NaN and the two zeros are falsy. *)
Definition truthy (x : number) : bool :=
  match x with
  | NaN => false
  | _ => negb (is_zero x)
  end.

(** [Math.ceil]. *)
Definition Math_ceil (x : number) : number :=
  match x with
  | Finite q =>
      if (Qceiling q =? 0)%Z && negative x then NegZero
      else Finite (inject_Z (Qceiling q))
  | other => other
  end.

(** [Object.is(x, y)] on numbers: the same double, +0 and -0 being two
    and NaN being one. *)
Definition same_value (x y : number) : bool :=
  match x, y with
  | Finite a, Finite b => Qeq_bool a b
  | NegZero, NegZero | PosInfinity, PosInfinity
  | NegInfinity, NegInfinity | NaN, NaN => true
  | _, _ => false
  end.

(** The number a binary64 value of the Standard Library's [SpecFloat]
    stands for, and the binary64 value of an integer. *)
Definition of_spec_float (f : spec_float) : number :=
  match f with
  | S754_zero s => zero s
  | S754_infinity s => infinity s
  | S754_nan => NaN
  | S754_finite s m e => Finite (scaled (if s then Z.neg m else Z.pos m) e)
  end.

Definition spec_float_of_Z (z : Z) : spec_float :=
  binary_normalize 53 1024 z 0 false.

(** Whether [x / y] and [x + y] above are what [SFdiv] and [SFadd]
    compute on the binary64 values of two integers. *)
Definition agrees_with_SpecFloat (xy : Z * Z) : bool :=
  let x := spec_float_of_Z xy.1 in
  let y := spec_float_of_Z xy.2 in
  same_value (div (of_spec_float x) (of_spec_float y))
             (of_spec_float (SFdiv 53 1024 x y))
  && same_value (add (of_spec_float x) (of_spec_float y))
                (of_spec_float (SFadd 53 1024 x y)).

(** The finite doubles are multiples of [2^-1074]. *)
Definition on_grid (q : Q) : Prop :=
  exists k : Z, (q == scaled k (- 1074))%Q.

(** A number that is +0, a positive double or Infinity. *)
Definition nonnegative_number (x : number) : Prop :=
  x = PosInfinity \/ exists q, x = Finite q /\ (0 <= q)%Q /\ on_grid q.

(** A number that is a positive double or Infinity. *)
Definition positive_number (x : number) : Prop :=
  x = PosInfinity \/ exists q, x = Finite q /\ (0 < q)%Q.

(** A number that is a negative double or -Infinity. *)
Definition negative_number (x : number) : Prop :=
  x = NegInfinity \/ exists q, x = Finite q /\ (q < 0)%Q.

(** The outcome of running a function body: a returned value or a
    thrown exception. *)
Inductive completion (A : Type) : Type :=
| Normal (a : A)
| Throw (reason : string).
Arguments Normal {A} a.
Arguments Throw {A} reason.

(** [array.length]. *)
Definition length {A} (l : list A) : number :=
  of_Z (Z.of_nat (List.length l)).

(** A value that may be [undefined] or [null]. *)
Inductive nullable (A : Type) : Type :=
| Undefined
| Null
| Value (a : A).
Arguments Undefined {A}.
Arguments Null {A}.
Arguments Value {A} a.

#[global] Instance nullable_eq_dec {A} `{EqDecision A} : EqDecision (nullable A).
Proof. solve_decision. Defined.

(** [String(key)], the name under which a value is looked up as a
    property. *)
Definition property_key (key : nullable string) : string :=
  match key with
  | Undefined => "undefined"
  | Null => "null"
  | Value s => s
  end.

(** The names every object inherits from [Object.prototype]: reading
    one of them from an object that has no property of its own of that
    name gives a function (or, for [__proto__], the prototype), never
    [undefined]. *)
Definition objectPrototypeNames : list string :=
  ["constructor"; "__defineGetter__"; "__defineSetter__"; "hasOwnProperty";
   "__lookupGetter__"; "__lookupSetter__"; "isPrototypeOf";
   "propertyIsEnumerable"; "toString"; "valueOf"; "__proto__";
   "toLocaleString"].

End JS.

(* ===================================================================== *)
(** ** Report/Table.js                                                    *)
(* ===================================================================== *)

Module Table.
Import JS.

(** [propTypes.workflowId]: a numeric workflow id, or the secret id of
    a workflow shared by link. *)
Inductive workflowId : Type :=
| WorkflowId (id : Z)
| SecretId (secret : string).

(** How a template literal prints it. *)
Definition workflowId_to_string (w : workflowId) : string :=
  match w with
  | WorkflowId id => pretty id
  | SecretId s => s
  end.

Record column := { name : string; type : string }.

(** Lines 31-32 of Table:
<<
    const nTileRows = Math.ceil(nRows / nRowsPerTile)
    const nTileColumns = Math.ceil(columns.length / nColumnsPerTile)
>> *)
Definition nTileRows (nRows nRowsPerTile : number) : number :=
  Math_ceil (div nRows nRowsPerTile).

Definition nTileColumns (columns : list column) (nColumnsPerTile : number)
  : number :=
  Math_ceil (div (JS.length columns) nColumnsPerTile).

(** The two statements together, as a computation that could throw. *)
Definition tileCount (nRows : number) (columns : list column)
    (nRowsPerTile nColumnsPerTile : number) : completion (number * number) :=
  Normal (nTileRows nRows nRowsPerTile, nTileColumns columns nColumnsPerTile).

(** A number that is a positive integer. *)
Definition positive_integer (x : number) : Prop :=
  match x with
  | Finite q => exists z : Z, (0 < z)%Z /\ (q == inject_Z z)%Q
  | _ => False
  end.

(** A call of [global.fetch(url, fetchOptions)]. *)
Record request (Options : Type) := Request {
  url : string;
  options : Options
}.
Arguments Request {Options} url options.
Arguments url {Options} r.
Arguments options {Options} r.

(** The network, as the list of calls made so far. *)
Definition global_fetch {Options} (u : string) (o : Options)
    (network : list (request Options)) : list (request Options) :=
  network ++ [Request u o].

(** The URL built on line 35. *)
Definition tileUrl (workflowIdOrSecretId : workflowId) (stepSlug : string)
    (deltaId tileRow tileColumn : Z) : string :=
  "/workflows/" +:+ workflowId_to_string workflowIdOrSecretId
    +:+ "/tiles/" +:+ stepSlug
    +:+ "/delta-" +:+ pretty deltaId
    +:+ "/" +:+ pretty tileRow +:+ "," +:+ pretty tileColumn +:+ ".json".

(** [fetchTile], closed over the table's address. *)
Definition fetchTile {Options} (workflowIdOrSecretId : workflowId)
    (stepSlug : string) (deltaId : Z)
    (tileRow tileColumn : Z) (fetchOptions : Options)
    (network : list (request Options)) : list (request Options) :=
  let url := tileUrl workflowIdOrSecretId stepSlug deltaId tileRow tileColumn in
  global_fetch url fetchOptions network.

(** The path of the most recent network call. *)
Definition last_url {Options} (network : list (request Options))
  : option string :=
  url <$> last network.

(** [needle] occurs in [s]. *)
Definition embeds (needle s : string) : Prop :=
  exists before after, s = before +:+ needle +:+ after.

(** Sample values. *)

Definition oneColumn : column := Build_column "a" "text".

End Table.

(* ===================================================================== *)
(** ** BigTable/useTiles: the tile store and the scheduler                *)
(* ===================================================================== *)

Module Tiles.

(** Modelled from the spec: the module behind [useTiles] (sparse tile
    store and viewport-driven scheduler) is imported by Table.js but its
    source is missing.  What follows is the data model of section 3 and
    the operations of sections 4.3 and 4.4 of the specification. *)
Record tableAddress := TableAddress {
  workflowIdOrSecretId : Table.workflowId;
  stepSlug : string;
  revisionId : Z
}.

(** Modelled from the spec: TileCoordinate, (tileRow, tileColumn). *)
Definition coordinate : Type := nat * nat.

Definition token : Type := nat.

(** Modelled from the spec: the FetchError taxonomy of section 7. *)
Inductive fetchError : Type := NetworkError | BadResponse | ParseError.

(** Modelled from the spec: the payload of a Loaded tile. *)
Record tileData := TileData {
  rows : list (list string);
  rowCount : nat;
  columnCount : nat
}.

(** Modelled from the spec: the four states of a Tile. *)
Inductive tile : Type :=
| Unfetched
| Pending (requestToken : token)
| Loaded (data : tileData)
| Failed (reason : fetchError).

#[global] Instance fetchError_eq_dec : EqDecision fetchError.
Proof. solve_decision. Defined.

#[global] Instance tileData_eq_dec : EqDecision tileData.
Proof. solve_decision. Defined.

#[global] Instance tile_eq_dec : EqDecision tile.
Proof. solve_decision. Defined.

(** Modelled from the spec: ViewportRange, both ends included. *)
Record viewportRange := ViewportRange {
  firstTileRow : nat;
  lastTileRow : nat;
  firstTileColumn : nat;
  lastTileColumn : nat
}.

(** Modelled from the spec: one invocation of the Tile Fetcher, which
    is one network call. *)
Record call := Call {
  call_revision : Z;
  call_coordinate : coordinate;
  call_token : token
}.

(** Modelled from the spec: the scheduler and the store it owns.
    [populated] is the store's mapping of populated coordinates,
    [nextToken] the source of request tokens, which only grows and so
    gives every coordinate increasing tokens, and [calls] the network
    calls made so far, oldest first. *)
Record state := State {
  address : tableAddress;
  wanted : option viewportRange;
  populated : gmap coordinate tile;
  nextToken : token;
  calls : list call
}.

Definition init (a : tableAddress) : state :=
  State a None ∅ 0 [].

(** *** Sparse Tile Store (section 4.3) *)

(** Modelled from the spec: [get(coord)]; a coordinate absent from the
    mapping is implicitly Unfetched. *)
Definition get (c : coordinate) (s : state) : tile :=
  default Unfetched (populated s !! c).

(** Modelled from the spec: [set(coord, TileState)]. *)
Definition set (c : coordinate) (t : tile) (s : state) : state :=
  State (address s) (wanted s) (<[c := t]> (populated s))
        (nextToken s) (calls s).

(** Modelled from the spec: [reset()] clears all tiles. *)
Definition reset (s : state) : state :=
  State (address s) (wanted s) ∅ (nextToken s) (calls s).

(** Modelled from the spec: [snapshot()]. *)
Definition snapshot (s : state) : gmap coordinate tile := populated s.

(** *** Viewport-Driven Scheduler (section 4.4) *)

(** Modelled from the spec: the coordinates of a range, row by row. *)
Definition coordinates (r : viewportRange) : list coordinate :=
  row ← seq (firstTileRow r) (S (lastTileRow r) - firstTileRow r);
  col ← seq (firstTileColumn r) (S (lastTileColumn r) - firstTileColumn r);
  [(row, col)].

(** Modelled from the spec: the tiles a request fetches are the
    Unfetched ones (step 1) and the Failed ones, which a re-request
    resets to Pending (failure handling). *)
Definition needs_fetch (t : tile) : bool :=
  match t with
  | Unfetched | Failed _ => true
  | Pending _ | Loaded _ => false
  end.

(** Modelled from the spec: step 2, mark Pending under a fresh token and
    invoke the fetcher. *)
Definition schedule (c : coordinate) (s : state) : state :=
  if needs_fetch (get c s) then
    State (address s) (wanted s)
          (<[c := Pending (nextToken s)]> (populated s))
          (S (nextToken s))
          (calls s ++ [Call (revisionId (address s)) c (nextToken s)])
  else s.

(** Modelled from the spec: all the fetches of a range are issued, one
    coordinate after the other. *)
Definition scheduleAll (l : list coordinate) (s : state) : state :=
  foldl (fun s' c => schedule c s') s l.

(** Modelled from the spec: step 1, reconcile the wanted range against
    the store. *)
Definition reconcile (s : state) : state :=
  match wanted s with
  | Some r => scheduleAll (coordinates r) s
  | None => s
  end.

(** Modelled from the spec: [setWantedTileRange], the consumer sets the
    range and the scheduler reconciles. *)
Definition setWantedTileRange (r : viewportRange) (s : state) : state :=
  reconcile (State (address s) (Some r) (populated s) (nextToken s) (calls s)).

(** Modelled from the spec: what a fetch resolves to, TileData or
    FetchError. *)
Definition fetchResult : Type := tileData + fetchError.

Definition resolved (r : fetchResult) : tile :=
  match r with
  | inl data => Loaded data
  | inr reason => Failed reason
  end.

(** Modelled from the spec: step 3, fetch completion with stale-result
    suppression. *)
Definition complete (c : coordinate) (tok : token) (r : fetchResult)
    (s : state) : state :=
  match get c s with
  | Pending t => if decide (t = tok) then set c (resolved r) s else s
  | _ => s
  end.

(** Modelled from the spec: the owning address moves to another
    revision and the store is reset. *)
Definition changeRevision (rev : Z) (s : state) : state :=
  let a := address s in
  reset (State (TableAddress (workflowIdOrSecretId a) (stepSlug a) rev)
               (wanted s) (populated s) (nextToken s) (calls s)).

(** Modelled from the spec: what can happen to a scheduler.  A fetch
    that completes is one that was issued; the owning address can move
    to any other revision, newer or older, and the store is reset
    whenever it does; the scheduler reconciles on its own after a
    reset. *)
Inductive step : state -> state -> Prop :=
| step_viewport s r :
    step s (setWantedTileRange r s)
| step_reconcile s :
    step s (reconcile s)
| step_complete s rev c tok r :
    Call rev c tok ∈ calls s ->
    step s (complete c tok r s)
| step_revision s rev :
    rev <> revisionId (address s) ->
    step s (changeRevision rev s).

Definition reachable_from (s0 : state) : state -> Prop := rtc step s0.

Definition reachable (s : state) : Prop :=
  exists a, reachable_from (init a) s.



(** Request tokens are issued in increasing order and never reused. *)
Record well_formed (s : state) : Prop := WellFormed {
  tokens_below_next : forall k, k ∈ calls s -> call_token k < nextToken s;
  tokens_distinct : NoDup (call_token <$> calls s)
}.

(** Every token the store waits for was issued at [n] or later. *)
Definition waits_from (n : token) (s : state) : Prop :=
  n <= nextToken s /\ forall c t, get c s = Pending t -> n <= t.

(** Sample values. *)

Definition address0 : tableAddress :=
  TableAddress (Table.WorkflowId 1) "step-1" 1.

Definition range0 : viewportRange := ViewportRange 0 1 0 1.

Definition data0 : tileData := TileData [["a"; "b"]] 1 2.

(** A state in which tile (3, 3) alone is Loaded. *)
Definition loaded33 : state :=
  State address0 None {[ (3, 3) := Loaded data0 ]} 7 [Call 1 (3, 3) 6].

End Tiles.

(* ===================================================================== *)
(** ** params/Custom/VersionSelect/QuotaExceeded.js                       *)
(* ===================================================================== *)

Module QuotaExceeded.

(** The grouping of [groupAutofetches] with the totals of the groups
    kept exact, as rationals: which groups there are, what they hold
    and which workflow they show do not depend on the rounding of the
    totals.  [GroupAutofetches] below computes the totals, and with
    them the order of the groups, in doubles as the code does. *)

Record workflow := Workflow {
  id : Z;
  name : string
}.

Record tab := Tab { tab_name : string }.

(** [fetchInterval] is the number of seconds between two fetches, a
    positive integer. *)
Record wfModule := WfModule {
  wfModule_id : Z;
  order : Z;
  fetchInterval : positive
}.

Record autofetch := Autofetch {
  af_workflow : workflow;
  af_tab : tab;
  af_wfModule : wfModule
}.

(** [{ workflow, nFetchesPerDay, autofetches }], the total exact. *)
Record group := Group {
  g_workflow : workflow;
  nFetchesPerDay : Q;
  autofetches : list autofetch
}.

(** A JavaScript object whose property names are [String(n)] for
    integers [n]: the properties in the order [Object.values] visits
    them.  That order lists the names that are array indices (the
    integers from 0 to 2^32 - 2) first, in increasing order, and then the
    other names in the order of their creation.  [String] is injective
    on integers, so a name is represented by its integer. *)
Definition object (V : Type) : Type := list (Z * V).

Definition is_array_index (k : Z) : bool :=
  (0 <=? k)%Z && (k <? 2 ^ 32 - 1)%Z.

(** [key in obj]. *)
Definition obj_in {V} (k : Z) (o : object V) : bool :=
  bool_decide (k ∈ o.*1).

(** [obj[key] = v] for a name that is not yet a property. *)
Fixpoint obj_create {V} (k : Z) (v : V) (o : object V) : object V :=
  match o with
  | [] => [(k, v)]
  | (k', v') :: rest =>
      if is_array_index k && (negb (is_array_index k') || (k <? k')%Z)
      then (k, v) :: o
      else (k', v') :: obj_create k v rest
  end.

(** In-place mutation of the object stored under an existing name. *)
Definition obj_mutate {V} (f : V -> V) (k : Z) (o : object V) : object V :=
  (fun kv => if decide (kv.1 = k) then (kv.1, f kv.2) else kv) <$> o.

(** [Object.values(obj)]. *)
Definition Object_values {V} (o : object V) : list V := o.*2.

(** [86400 / autofetch.wfModule.fetchInterval], the exact quotient. *)
Definition fetchesPerDay (a : autofetch) : Q :=
  (86400 / inject_Z (Z.pos (fetchInterval (af_wfModule a))))%Q.

(** The body of the [for] loop, lines 9-19. *)
Definition addAutofetch (groups : object group) (a : autofetch)
  : object group :=
  let groupId := id (af_workflow a) in
  let groups :=
    if negb (obj_in groupId groups)
    then obj_create groupId (Group (af_workflow a) 0 []) groups
    else groups in
  obj_mutate
    (fun g => Group (g_workflow g)
                    (nFetchesPerDay g + fetchesPerDay a)%Q
                    (autofetches g ++ [a]))
    groupId groups.

(** [Array.prototype.sort(comparefn)].  The language fixes the result
    for a consistent comparator: the stable arrangement in which [a]
    precedes [b] when [comparefn(a, b) < 0].  Insertion from the right
    computes it. *)
Fixpoint sort_insert {A} (comparefn : A -> A -> Q) (x : A) (l : list A)
  : list A :=
  match l with
  | [] => [x]
  | y :: rest =>
      if Qle_bool (comparefn x y) 0 then x :: l
      else y :: sort_insert comparefn x rest
  end.

Definition Array_sort {A} (comparefn : A -> A -> Q) (l : list A) : list A :=
  foldr (sort_insert comparefn) [] l.

Section WithLocale.

(** [String.prototype.localeCompare] in the browser's locale: negative,
    zero or positive. *)
Variable localeCompare : string -> string -> Z.

(** The comparator of line 22; [x || y] is [y] when [x] is zero. *)
Definition compareGroups (a b : group) : Q :=
  let d := (nFetchesPerDay b - nFetchesPerDay a)%Q in
  if Qeq_bool d 0
  then inject_Z (localeCompare (name (g_workflow a)) (name (g_workflow b)))
  else d.

Definition groupAutofetches (autofetches : list autofetch) : list group :=
  let groups := foldl addAutofetch [] autofetches in
  Array_sort compareGroups (Object_values groups).

End WithLocale.

(** The autofetches of one workflow, in input order. *)
Definition autofetchesOf (workflowId : Z) (l : list autofetch)
  : list autofetch :=
  filter (fun a => id (af_workflow a) = workflowId) l.

(** The sum the specification speaks of. *)
Definition sumFetchesPerDay (l : list autofetch) : Q :=
  foldr (fun a acc => (fetchesPerDay a + acc)%Q) 0%Q l.

(** The total the loop accumulates for a group. *)
Definition accumulated (l : list autofetch) : Q :=
  foldl (fun acc a => (acc + fetchesPerDay a)%Q) 0%Q l.

(** What the loop has built after a prefix [seen] of the input. *)
Record grouped (seen : list autofetch) (groups : object group) : Prop := {
  grouped_keys : NoDup groups.*1;
  grouped_ids : forall k, k ∈ groups.*1 <-> k ∈ (id ∘ af_workflow) <$> seen;
  grouped_entry : forall k g,
    (k, g) ∈ groups ->
    id (g_workflow g) = k
    /\ autofetches g = autofetchesOf k seen
    /\ nFetchesPerDay g = accumulated (autofetchesOf k seen)
}.

(** Sample values. *)

(** Names compared by their length: a consistent comparator. *)
Definition compareLength (a b : string) : Z :=
  (Z.of_nat (String.length a) - Z.of_nat (String.length b))%Z.

Definition someAutofetches : list autofetch :=
  [ Autofetch (Workflow 2 "bb") (Tab "Tab 1") (WfModule 10 0 3600);
    Autofetch (Workflow 1 "a") (Tab "Tab 1") (WfModule 11 0 300);
    Autofetch (Workflow 2 "bb") (Tab "Tab 2") (WfModule 12 3 7200) ].

End QuotaExceeded.

(* ===================================================================== *)
(** ** QuotaExceeded.js: groupAutofetches in doubles                      *)
(* ===================================================================== *)

Module GroupAutofetches.
Import JS.

(** [{ workflow, nFetchesPerDay, autofetches }], the total a double. *)
Record group := Group {
  g_workflow : QuotaExceeded.workflow;
  nFetchesPerDay : number;
  autofetches : list QuotaExceeded.autofetch
}.

(** [86400 / autofetch.wfModule.fetchInterval], line 18;
    [fetchInterval] is a positive integer, a number of seconds that a
    double holds exactly. *)
Definition fetchesPerDay (a : QuotaExceeded.autofetch) : number :=
  div (of_Z 86400)
      (of_Z (Z.pos (QuotaExceeded.fetchInterval (QuotaExceeded.af_wfModule a)))).

(** The body of the [for] loop, lines 9-19. *)
Definition addAutofetch (groups : QuotaExceeded.object group)
    (a : QuotaExceeded.autofetch) : QuotaExceeded.object group :=
  let groupId := QuotaExceeded.id (QuotaExceeded.af_workflow a) in
  let groups :=
    if negb (QuotaExceeded.obj_in groupId groups)
    then QuotaExceeded.obj_create groupId
           (Group (QuotaExceeded.af_workflow a) (of_Z 0) []) groups
    else groups in
  QuotaExceeded.obj_mutate
    (fun g => Group (g_workflow g)
                    (add (nFetchesPerDay g) (fetchesPerDay a))
                    (autofetches g ++ [a]))
    groupId groups.

(** [Array.prototype.sort(comparefn)].  The language fixes the result
    for a consistent comparator: the stable arrangement in which [a]
    precedes [b] when [comparefn(a, b) < 0]; a comparator result that is
    NaN counts as zero.  Insertion from the right computes it. *)
Fixpoint sort_insert {A} (comparefn : A -> A -> number) (x : A) (l : list A)
  : list A :=
  match l with
  | [] => [x]
  | y :: rest =>
      if lt (of_Z 0) (comparefn x y) then y :: sort_insert comparefn x rest
      else x :: l
  end.

Definition Array_sort {A} (comparefn : A -> A -> number) (l : list A)
  : list A :=
  foldr (sort_insert comparefn) [] l.

Section WithLocale.

(** [String.prototype.localeCompare] in the browser's locale: negative,
    zero or positive. *)
Variable localeCompare : string -> string -> Z.

(** The comparator of line 22; [x || y] is [y] when [x] is a zero or
    NaN. *)
Definition compareGroups (a b : group) : number :=
  let d := sub (nFetchesPerDay b) (nFetchesPerDay a) in
  if truthy d then d
  else of_Z (localeCompare (QuotaExceeded.name (g_workflow a))
                           (QuotaExceeded.name (g_workflow b))).

Definition groupAutofetches (autofetches : list QuotaExceeded.autofetch)
  : list group :=
  let groups := foldl addAutofetch [] autofetches in
  Array_sort compareGroups (QuotaExceeded.Object_values groups).

(** The order the result is claimed to be in: more fetches per day
    first, and among equal numbers the name that compares lower. *)
Definition precedes (a b : group) : Prop :=
  lt (nFetchesPerDay b) (nFetchesPerDay a) = true \/
  (strict_equal (nFetchesPerDay a) (nFetchesPerDay b) = true /\
   (localeCompare (QuotaExceeded.name (g_workflow a))
                  (QuotaExceeded.name (g_workflow b)) <= 0)%Z).

End WithLocale.

(** The total the loop accumulates for a group: the quotients added one
    after the other, from 0, each sum rounded. *)
Definition accumulated (l : list QuotaExceeded.autofetch) : number :=
  foldl (fun total a => add total (fetchesPerDay a)) (of_Z 0) l.

(** What the loop has built after a prefix [seen] of the input. *)
Record grouped (seen : list QuotaExceeded.autofetch)
    (groups : QuotaExceeded.object group) : Prop := {
  grouped_keys : NoDup groups.*1;
  grouped_ids : forall k,
    k ∈ groups.*1
    <-> k ∈ (QuotaExceeded.id ∘ QuotaExceeded.af_workflow) <$> seen;
  grouped_entry : forall k g,
    (k, g) ∈ groups ->
    QuotaExceeded.id (g_workflow g) = k
    /\ autofetches g = QuotaExceeded.autofetchesOf k seen
    /\ nFetchesPerDay g = accumulated (QuotaExceeded.autofetchesOf k seen)
}.

(** The steps listed in the rows of the table, row after row. *)
Definition listedSteps (groups : list group) : list QuotaExceeded.autofetch :=
  mjoin (autofetches <$> groups).

(** Sample values. *)

(** Workflow "a" fetches seven times a week, workflow "bb" once a day. *)
Definition weeklyAndDaily : list QuotaExceeded.autofetch :=
  replicate 7 (QuotaExceeded.Autofetch
                 (QuotaExceeded.Workflow 1 "a") (QuotaExceeded.Tab "Tab 1")
                 (QuotaExceeded.WfModule 10 0 604800))
  ++ [QuotaExceeded.Autofetch
        (QuotaExceeded.Workflow 2 "bb") (QuotaExceeded.Tab "Tab 1")
        (QuotaExceeded.WfModule 11 0 86400)].

End GroupAutofetches.

(* ===================================================================== *)
(** ** WorkflowEditor/OutputPane.js                                       *)
(* ===================================================================== *)

Module OutputPane.
Import JS.

(** The four status strings. *)
Inductive status : Type := ok | busy | error | unreachable.

#[global] Instance status_eq_dec : EqDecision status.
Proof. solve_decision. Defined.

Record column := Column { name : string; type : string }.

(** A step of the Redux state, with the fields this file reads.  The
    fields that are compared with [!==] or used as a property name tell
    [null] from [undefined]; in the others a [None] stands for [null],
    [undefined] or an empty string. *)
Record step := Step {
  id : Z;
  slug : option string;
  module : nullable string;
  nClientRequests : Z;
  is_busy : bool;
  output_status : option status;
  last_relevant_delta_id : nullable Z;
  cached_render_result_delta_id : nullable Z;
  output_columns : option (list column);
  output_n_rows : option Z
}.

Record tabState := TabState {
  step_ids : list Z;
  selected_step_position : Z
}.

Record moduleState := ModuleState { has_html_output : bool }.

(** The part of the Redux state [mapStateToProps] reads; [steps] is
    keyed by [String(id)], represented by [id]. *)
Record state := ReduxState {
  steps : gmap Z step;
  tabs : gmap string tabState;
  modules : gmap string moduleState;
  selectedPane_tabSlug : string
}.

(** The [stepBeforeError] prop. *)
Record stepBeforeErrorProp := StepBeforeError {
  sbe_id : Z;
  sbe_slug : option string;
  sbe_deltaId : nullable Z;
  sbe_status : option status;
  sbe_columns : option (list column);
  sbe_nRows : option Z
}.

(** The [step] prop; [htmlOutput] is [undefined], here [None], when
    [modules[step.module]] is a property that [modules] inherits. *)
Record stepProp := StepProp {
  sp_id : Z;
  sp_slug : option string;
  sp_module : nullable string;
  sp_htmlOutput : option bool;
  sp_status : option status;
  sp_deltaId : nullable Z;
  sp_columns : option (list column);
  sp_nRows : option Z
}.

(** The two props [stepForTable] reads; [None] is [undefined] or
    [null]. *)
Record props := Props {
  stepBeforeError : option stepBeforeErrorProp;
  step_ : option stepProp
}.

(** What [stepForTable] returns: one of the two prop objects. *)
Inductive tableStep : Type :=
| TheStepBeforeError (s : stepBeforeErrorProp)
| TheStep (s : stepProp).

Definition tableStep_status (t : tableStep) : option status :=
  match t with
  | TheStepBeforeError s => sbe_status s
  | TheStep s => sp_status s
  end.

(** The getter, lines 55-70. *)
Definition stepForTable (p : props) : option tableStep :=
  match stepBeforeError p with
  | Some before => Some (TheStepBeforeError before)
  | None =>
      match step_ p with
      | Some s =>
          if decide (sp_status s <> Some error) then Some (TheStep s) else None
      | None => None
      end
  end.

(** [stepStatus], lines 138-158; the two delta ids are compared with
    [!==], which tells a number, [null] and [undefined] apart. *)
Definition stepStatus (s : option step) : option status :=
  match s with
  | None => None
  | Some s =>
      if (0 <? nClientRequests s)%Z
         || is_busy s
         || bool_decide (output_status s = None)
         || bool_decide (last_relevant_delta_id s <> cached_render_result_delta_id s)
      then Some busy
      else output_status s
  end.

(** [array[i]] for a number [i] that is an integer. *)
Definition index {A} (l : list A) (i : Z) : option A :=
  if (i <? 0)%Z then None else l !! Z.to_nat i.

(** [modules[module] ? modules[module].has_html_output : false], lines
    208-210: the property of [modules] of the name [String(module)],
    of its own or inherited. *)
Definition htmlOutput (modules : gmap string moduleState)
    (module : nullable string) : option bool :=
  match modules !! property_key module with
  | Some m => Some (has_html_output m)
  | None =>
      if decide (property_key module ∈ objectPrototypeNames) then None
      else Some false
  end.

(** The object a step of the state, or the placeholder of lines
    176-184, contributes to the [step] prop. *)
Inductive selection : Type :=
| Selected (s : step)
| Placeholder.

(** [mapStateToProps], lines 160-221, up to the two props above. *)
Definition mapStateToProps (st : state) : completion props :=
  match tabs st !! selectedPane_tabSlug st with
  | None => Throw "TypeError"
  | Some tab =>
      let stepArray := (fun id => steps st !! id) <$> step_ids tab in
      let stepIndex := selected_step_position tab in
      let step0 : option step := mjoin (index stepArray stepIndex) in
      let status :=
        match step0 with
        | Some s => stepStatus (Some s)
        | None => Some busy
        end in
      let sel : option selection :=
        match step0 with
        | Some s => Some (Selected s)
        | None =>
            match index (step_ids tab) stepIndex with
            | Some i => if decide (i = 0%Z) then None else Some Placeholder
            | None => None
            end
        end in
      let stepProp : option stepProp :=
        match sel with
        | Some (Selected s) =>
            Some (StepProp (id s) (slug s) (module s)
                    (htmlOutput (modules st) (module s))
                    status (cached_render_result_delta_id s)
                    (output_columns s) (output_n_rows s))
        | Some Placeholder =>
            Some (StepProp (-1) None Undefined
                    (htmlOutput (modules st) Undefined)
                    status Null None None)
        | None => None
        end in
      if bool_decide (status = Some error) && (0 <? stepIndex)%Z then
        match mjoin (index stepArray (stepIndex - 1)) with
        | None => Throw "TypeError"
        | Some lastGood =>
            Normal (Props
              (Some (StepBeforeError (id lastGood) (slug lastGood)
                       (cached_render_result_delta_id lastGood)
                       (stepStatus (Some lastGood))
                       (output_columns lastGood) (output_n_rows lastGood)))
              stepProp)
        end
      else Normal (Props None stepProp)
  end.

(** Sample values. *)

(** A state whose two steps both have an up-to-date output of status
    'error', the second one selected. *)
Definition erroredStep (i : Z) (slug : string) : step :=
  Step i (Some slug) (Value "pythoncode") 0 false (Some error)
       (Value 5%Z) (Value 5%Z) None None.

Definition twoErrors : state :=
  ReduxState
    {[ 1%Z := erroredStep 1 "step-1"; 2%Z := erroredStep 2 "step-2" ]}
    {[ "tab-1" := TabState [1%Z; 2%Z] 1 ]}
    ∅
    "tab-1".



(** A tab that lists a step the state does not have yet. *)
Definition notYetThere : state :=
  ReduxState ∅ {[ "tab-1" := TabState [5%Z] 0 ]} ∅ "tab-1".

End OutputPane.

(* ===================================================================== *)
(** ** The table-action helpers (updateDuplicateModule)                   *)
(* ===================================================================== *)

Module UpdateTableAction.
Import JS.

(** A value that is a string or [undefined]. *)
Inductive value : Type :=
| undefined
| str (s : string).

(** How [+] with a string prints it. *)
Definition to_string (v : value) : string :=
  match v with
  | undefined => "undefined"
  | str s => s
  end.

Record paramVal := ParamVal {
  pv_id : Z;
  pv_id_name : string;
  pv_value : string
}.

Record wfModule := WfModuleState {
  wfm_id : Z;
  parameter_vals : list paramVal
}.

(** The action [setParamValueActionByIdName(wfModuleId, idName, value)]
    creates. *)
Inductive action : Type :=
| SetParamValueByIdName (wfModuleId : Z) (idName : string) (newValue : value).

(** [String.prototype.split] with a one-character separator. *)
Fixpoint split (separator : Ascii.ascii) (s : string) : list string :=
  match s with
  | EmptyString => [EmptyString]
  | String c rest =>
      if decide (c = separator) then EmptyString :: split separator rest
      else match split separator rest with
           | first :: others => String c first :: others
           | [] => [String c EmptyString]
           end
  end.

(** [Array.prototype.includes] on an array of strings. *)
Definition includes (l : list string) (v : value) : bool :=
  match v with
  | str s => bool_decide (s ∈ l)
  | undefined => false
  end.

Section WithStore.

(** The Redux state and its reducer, which live in workflow-reducer. *)
Variable reduxState : Type.
Variable reducer : reduxState -> action -> reduxState.

(** [findParamValByIdName] of utils; [None] when it finds nothing. *)
Variable findParamValByIdName : wfModule -> string -> option paramVal.

(** The store: its state and the actions dispatched so far. *)
Record store := Store {
  getState : reduxState;
  dispatched : list action
}.

(** [store.dispatch(action)]. *)
Definition dispatch (a : action) (s : store) : store :=
  Store (reducer (getState s) a) (dispatched s ++ [a]).

(** [updateDuplicateModule], lines 151-165. *)
Definition updateDuplicateModule (wfm : wfModule) (params : list string)
    (s : store) : completion store :=
  match findParamValByIdName wfm "colnames" with
  | None => Throw "TypeError"
  | Some entriesParam =>
      let duplicateColumnName :=
        match params with
        | first :: _ => str first
        | [] => undefined
        end in
      if negb (bool_decide (pv_value entriesParam = EmptyString)) then
        if negb (includes (split ","%char (pv_value entriesParam)) duplicateColumnName)
        then
          let entries :=
            pv_value entriesParam +:+ "," +:+ to_string duplicateColumnName in
          Normal (dispatch (SetParamValueByIdName (wfm_id wfm) "colnames"
                              (str entries)) s)
        else Normal s
      else
        Normal (dispatch (SetParamValueByIdName (wfm_id wfm) "colnames"
                            duplicateColumnName) s)
  end.

End WithStore.

(** [s] does not contain the separator. *)
Fixpoint without (separator : ascii) (s : string) : Prop :=
  match s with
  | EmptyString => True
  | String c rest => c <> separator /\ without separator rest
  end.

(** Sample values. *)

(** A step whose 'colnames' value is [a,b]. *)
Definition duplicateStep : wfModule :=
  WfModuleState 7 [ParamVal 70 "colnames" "a,b"].

(** The parameter value of that name, as utils finds it. *)
Definition findByIdName (wfm : wfModule) (idName : string) : option paramVal :=
  List.find (fun p => bool_decide (pv_id_name p = idName)) (parameter_vals wfm).

(** A reducer that only counts actions. *)
Definition countActions (n : nat) (a : action) : nat := S n.

End UpdateTableAction.

(* ===================================================================== *)
(** ** Report/Table.js: the connected props and the chart colours         *)
(* ===================================================================== *)

Module ReportTable.
Import JS.

Record settingsState := Settings {
  bigTableRowsPerTile : number;
  bigTableColumnsPerTile : number
}.

(** The part of the Redux state [mapStateToProps] reads; [steps] lists
    the properties of [state.steps] in the order of [Object.values]. *)
Record state := ReduxState {
  steps : QuotaExceeded.object OutputPane.step;
  settings : settingsState
}.

Record props := Props {
  deltaId : nullable Z;
  nRows : option Z;
  columns : option (list OutputPane.column);
  nRowsPerTile : number;
  nColumnsPerTile : number
}.

(** [mapStateToProps], lines 77-88. *)
Definition mapStateToProps (st : state) (stepSlug : string)
  : completion props :=
  match
    head (filter (fun step => OutputPane.slug step = Some stepSlug)
                 (QuotaExceeded.Object_values (steps st)))
  with
  | None => Throw "TypeError"
  | Some step =>
      Normal (Props (OutputPane.cached_render_result_delta_id step)
                    (OutputPane.output_n_rows step)
                    (OutputPane.output_columns step)
                    (bigTableRowsPerTile (settings st))
                    (bigTableColumnsPerTile (settings st)))
  end.

(** [defaultColors], lines 91-98. *)
Definition defaultColors : list string :=
  ["#E24F4A"; "#FBAA6D"; "#48C8D7"; "#2DAAA8"; "#769BB0"; "#A2A2A2"].

(** [getColor], lines 100-102, for an integer [idx]; [%] is the
    remainder that takes the sign of [idx]. *)
Definition getColor (idx : Z) : option string :=
  OutputPane.index defaultColors
                   (Z.rem idx (Z.of_nat (List.length defaultColors))).

(** A character that is no decimal digit. *)
Definition not_a_digit (c : ascii) : Prop :=
  forall n, pretty_N_char n <> c.

End ReportTable.

(* ===================================================================== *)
(** ** The table-action helpers: the other update functions               *)
(* ===================================================================== *)

Module TableActions.
Import JS UpdateTableAction.

(** [selectColumnDrop] and [selectColumnKeep]. *)
Definition selectColumnDrop : Z := 0.
Definition selectColumnKeep : Z := 1.

(** The value of a parameter: a string, a number, or nothing. *)
Inductive paramValue : Type :=
| PVUndefined
| PVString (s : string)
| PVNumber (n : Z).

#[global] Instance paramValue_eq_dec : EqDecision paramValue.
Proof. solve_decision. Defined.

(** Whether [if (value)] takes the branch. *)
Definition truthy (v : paramValue) : bool :=
  match v with
  | PVUndefined => false
  | PVString s => negb (bool_decide (s = EmptyString))
  | PVNumber n => negb (n =? 0)%Z
  end.

Record param := Param {
  param_id : Z;
  param_value : paramValue
}.

(** The actions of workflow-reducer the helpers dispatch. *)
Inductive action : Type :=
| SetParamValue (paramId : Z) (newValue : string)
| SetParamValueByIdName (wfModuleId : Z) (idName : string)
                        (newValue : paramValue)
| SetSelectedWfModule (index : Z)
| AddModule (moduleId : Z) (index : Z).

(** A step of the workflow: its id and the id of the module it runs,
    [(wfModule.module_version || {}).module]. *)
Record wfModule := WfModule {
  wfm_id : Z;
  module_version_module : option Z
}.

(** [Array.prototype.join] on strings; [toString()] joins with a
    comma. *)
Fixpoint join (separator : string) (l : list string) : string :=
  match l with
  | [] => EmptyString
  | [x] => x
  | x :: rest => x +:+ separator +:+ join separator rest
  end.

(** [Array.prototype.indexOf]; [None] is -1. *)
Fixpoint indexOf {A} `{EqDecision A} (l : list A) (x : A) : option nat :=
  match l with
  | [] => None
  | y :: rest => if decide (y = x) then Some 0 else S <$> indexOf rest x
  end.

(** [Array.prototype.findIndex]; [None] is -1. *)
Fixpoint findIndex {A} (p : A -> bool) (l : list A) : option nat :=
  match l with
  | [] => None
  | y :: rest => if p y then Some 0 else S <$> findIndex p rest
  end.

(** [array.splice(start, deleteCount)] for a start within the array. *)
Definition splice {A} (start deleteCount : nat) (l : list A) : list A :=
  take start l ++ drop (start + deleteCount) l.

(** [value] as an argument of [indexOf] on strings. *)
Definition indexOfValue (l : list string) (v : value) : option nat :=
  match v with
  | str s => indexOf l s
  | undefined => None
  end.

Definition value_to_paramValue (v : value) : paramValue :=
  match v with
  | str s => PVString s
  | undefined => PVUndefined
  end.

(** An edit of one cell. *)
Record edit := Edit {
  row : Z;
  col : string;
  edit_value : string
}.

Definition same_cell (a b : edit) : bool :=
  bool_decide (row a = row b) && bool_decide (col a = col b).

(** [{ prevName, newName }]. *)
Record renameInfo := RenameInfo {
  prevName : string;
  newName : string
}.

(** The decimal digits of a property name, most significant first. *)
Fixpoint digits_value (acc : N) (s : string) : option N :=
  match s with
  | EmptyString => Some acc
  | String c rest =>
      let n := Ascii.N_of_ascii c in
      if (48 <=? n)%N && (n <=? 57)%N
      then digits_value (10 * acc + (n - 48)) rest
      else None
  end.

(** A property name that is an array index: the canonical decimal form
    of an integer from 0 to 2^32 - 2. *)
Definition array_index (k : string) : option N :=
  match k with
  | EmptyString => None
  | _ =>
      n ← digits_value 0 k;
      if bool_decide (pretty n = k) && (n <? 2 ^ 32 - 1)%N
      then Some n else None
  end.

(** A plain object with string values, as the list of its properties in
    the order [for ... in] visits them: array indices first, in
    increasing order, then the other names in the order of creation. *)
Definition entries : Type := list (string * string).

(** Whether a new name [k] comes before the existing name [k']. *)
Definition comes_before (k k' : string) : bool :=
  match array_index k, array_index k' with
  | Some n, Some n' => (n <? n')%N
  | Some _, None => true
  | None, _ => false
  end.

Fixpoint entries_create (k v : string) (o : entries) : entries :=
  match o with
  | [] => [(k, v)]
  | (k', v') :: rest =>
      if comes_before k k' then (k, v) :: o
      else (k', v') :: entries_create k v rest
  end.

(** [obj[k] = v] for a string [v].  A property of the object's own is
    updated in place.  Otherwise one is created, except under the name
    [__proto__]: that assignment reaches the setter the object inherits,
    which ignores a string, and the object stays as it is. *)
Definition entries_set (k v : string) (o : entries) : entries :=
  if bool_decide (k ∈ o.*1)
  then (fun kv => if decide (kv.1 = k) then (k, v) else kv) <$> o
  else if bool_decide (k = "__proto__") then o
  else entries_create k v o.

(** What [JSON.parse] makes of the value of 'rename-entries': it throws;
    or it returns something that is no object ([null], a number, a
    boolean or a string); or it returns an object, here one whose values
    are strings, as [updateRenameModule] writes them. *)
Inductive parsedEntries : Type :=
| SyntaxError
| NotAnObject
| AnObject (o : entries).

(** [obj[k]]. *)
Definition entries_get (k : string) (o : entries) : option string :=
  snd <$> List.find (fun kv => bool_decide (kv.1 = k)) o.

(** The loop of lines 199-205: the first property whose value is
    [prevName] gets [newName]; [None] when there is none. *)
Fixpoint renameFirst (prev new : string) (o : entries) : option entries :=
  match o with
  | [] => None
  | (k, v) :: rest =>
      if decide (v = prev) then Some ((k, new) :: rest)
      else ((k, v) ::.) <$> renameFirst prev new rest
  end.

(** Lines 196-209: what [updateRenameModule] does to the entries. *)
Definition renameEntries (info : renameInfo) (o : entries) : entries :=
  match renameFirst (prevName info) (newName info) o with
  | Some renamed => renamed
  | None => entries_set (prevName info) (newName info) o
  end.

(** The part of the Redux state the helpers read. *)
Record workflowState := WorkflowState { wf_modules : list Z }.

Record state := ReduxState {
  workflow : option workflowState;
  wfModules : gmap Z wfModule;
  selected_wf_module : option Z;
  updateTableModuleIds : gmap string Z
}.

(** [findModuleIdByIdName], lines 27-29, for a name that
    [updateTableModuleIds] has as a property of its own or that no
    object inherits (the names of [JS.objectPrototypeNames] are
    inherited); an id of 0 is falsy. *)
Definition findModuleIdByIdName (st : state) (moduleIdName : string)
  : option Z :=
  match updateTableModuleIds st !! moduleIdName with
  | Some moduleId => if decide (moduleId = 0%Z) then None else Some moduleId
  | None => None
  end.

(** [findModuleWithIds], lines 32-55.  [None] is [null] or
    [undefined]: past the end of [validIdsOrNulls] the entry is
    [undefined], which is not [null], and the function returns
    [wfModules[String(undefined)]], which is [undefined]. *)
Definition findModuleWithIds (st : state) (focusWfModuleId moduleId : Z)
  : completion (option wfModule) :=
  match workflow st with
  | None => Throw "TypeError"
  | Some wf =>
      match mapM (fun id => wfModules st !! id) (wf_modules wf) with
      | None => Throw "TypeError"
      | Some modules =>
          let validIdsOrNulls :=
            zip_with (fun id m =>
                        if decide (module_version_module m = Some moduleId)
                        then Some id else None)
                     (wf_modules wf) modules in
          match indexOf (wf_modules wf) focusWfModuleId with
          | None => Normal None
          | Some focusIndex =>
              match validIdsOrNulls !! focusIndex with
              | Some (Some atFocusIndex) =>
                  Normal (wfModules st !! atFocusIndex)
              | Some None =>
                  match validIdsOrNulls !! (focusIndex + 1) with
                  | Some (Some atNextIndex) =>
                      Normal (wfModules st !! atNextIndex)
                  | Some None => Normal None
                  | None => Normal None
                  end
              | None => Normal None
              end
          end
      end
  end.

Section WithStore.

(** The reducer, and what utils and [JSON] do. *)
Variable reducer : state -> action -> state.
Variable findParamValByIdName : wfModule -> string -> option param.
Variable JSON_parse_edits : string -> option (list edit).
Variable JSON_stringify_edits : list (option edit) -> string.
Variable JSON_parse_entries : string -> parsedEntries.
Variable JSON_stringify_entries : entries -> string.

Record store := Store {
  getState : state;
  dispatched : list action
}.

Definition dispatch (a : action) (s : store) : store :=
  Store (reducer (getState s) a) (dispatched s ++ [a]).

(** [ensureSelectedWfModule], lines 57-65. *)
Definition ensureSelectedWfModule (st : state) (wfm : wfModule) (s : store)
  : store :=
  let current := selected_wf_module st in
  let wanted :=
    match workflow st with
    | Some wf => indexOf (wf_modules wf) (wfm_id wfm)
    | None => None
    end in
  match wanted with
  | Some wanted =>
      if decide (Some (Z.of_nat wanted) <> current)
      then dispatch (SetSelectedWfModule (Z.of_nat wanted)) s
      else s
  | None => s
  end.

(** [updateSelectModule], lines 94-121. *)
Definition updateSelectModule (wfm : wfModule) (params : list string)
    (s : store) : completion store :=
  match findParamValByIdName wfm "colnames" with
  | None => Throw "TypeError"
  | Some selectedColumns =>
      let dropColumnName :=
        match params with
        | first :: _ => str first
        | [] => undefined
        end in
      if truthy (param_value selectedColumns) then
        match findParamValByIdName wfm "drop_or_keep" with
        | None => Throw "TypeError"
        | Some action =>
            if bool_decide (param_value action = PVNumber selectColumnDrop) then
              match param_value selectedColumns with
              | PVString columns =>
                  if negb (includes (split "," columns) dropColumnName) then
                    let entries :=
                      columns +:+ "," +:+ to_string dropColumnName in
                    Normal (dispatch (SetParamValueByIdName (wfm_id wfm)
                                        "colnames" (PVString entries)) s)
                  else Normal s
              | _ => Throw "TypeError"
              end
            else if bool_decide (param_value action = PVNumber selectColumnKeep)
            then
              match param_value selectedColumns with
              | PVString columns =>
                  let selected := split "," columns in
                  match indexOfValue selected dropColumnName with
                  | Some dropColumnNameIdx =>
                      let selected := splice dropColumnNameIdx 1 selected in
                      let s :=
                        dispatch (SetParamValueByIdName (wfm_id wfm)
                                    "colnames" (PVString (join "," selected)))
                                 s in
                      Normal (dispatch (SetParamValueByIdName (wfm_id wfm)
                                          "drop_or_keep"
                                          (PVNumber selectColumnKeep)) s)
                  | None => Normal s
                  end
              | _ => Throw "TypeError"
              end
            else Normal s
        end
      else
        let s :=
          dispatch (SetParamValueByIdName (wfm_id wfm) "colnames"
                      (value_to_paramValue dropColumnName)) s in
        Normal (dispatch (SetParamValueByIdName (wfm_id wfm) "drop_or_keep"
                            (PVNumber selectColumnDrop)) s)
  end.

(** The [try] block of lines 129-141: the edits that are kept. *)
Definition keptEdits (value : string) (edit : option edit)
  : list TableActions.edit :=
  match JSON_parse_edits value with
  | None => []
  | Some edits =>
      match edits, edit with
      | [], _ => []
      | _ :: _, None => []
      | _ :: _, Some e =>
          match findIndex (fun element => same_cell element e) edits with
          | Some idx => splice idx (idx + 1) edits
          | None => edits
          end
      end
  end.

(** [addEditToEditCellsModule], lines 123-149. *)
Definition addEditToEditCellsModule (wfm : UpdateTableAction.wfModule)
    (find : UpdateTableAction.wfModule -> string -> option paramVal)
    (params : list edit) (s : store) : completion store :=
  match find wfm "celledits" with
  | None => Throw "TypeError"
  | Some param =>
      let edit := head params in
      let edits :=
        if negb (bool_decide (pv_value param = EmptyString))
        then keptEdits (pv_value param) edit
        else [] in
      let edits := (Some <$> edits) ++ [edit] in
      Normal (dispatch (SetParamValue (pv_id param)
                          (JSON_stringify_edits edits)) s)
  end.

(** [updateRenameModule], lines 181-211.  Only [JSON.parse] is inside
    the [try]: on [null] the loop runs over nothing and the assignment
    of line 208 throws, and on a number, a boolean or a string every
    assignment throws, the module being in strict mode. *)
Definition updateRenameModule (wfm : UpdateTableAction.wfModule)
    (find : UpdateTableAction.wfModule -> string -> option paramVal)
    (renameInfo : TableActions.renameInfo) (s : store) : completion store :=
  match find wfm "rename-entries" with
  | None => Throw "TypeError"
  | Some entriesParam =>
      let entries :=
        if negb (bool_decide (pv_value entriesParam = EmptyString))
        then
          match JSON_parse_entries (pv_value entriesParam) with
          | SyntaxError => AnObject []
          | parsed => parsed
          end
        else AnObject [] in
      match entries with
      | AnObject entries =>
          Normal (dispatch (SetParamValue (pv_id entriesParam)
                              (JSON_stringify_entries
                                 (renameEntries renameInfo entries))) s)
      | _ => Throw "TypeError"
      end
  end.

End WithStore.

(** Whether the step stored under [id] runs the module [moduleId]. *)
Definition runsModule (st : state) (moduleId id : Z) : bool :=
  match wfModules st !! id with
  | Some m => bool_decide (module_version_module m = Some moduleId)
  | None => false
  end.

Section UpdateTableActionModule.

Variable reducer : state -> action -> state.

(** The arguments after [forceNewModule], and the table
    [updateModuleMapping] of lines 7-15, whose entries each read their
    own kind of arguments. *)
Variable Params : Type.
Variable updateModuleMapping :
  string -> option (wfModule -> Params -> store -> completion store).

(** [updateModuleMapping[idName](wfm, params)]. *)
Definition callUpdate (idName : string) (params : Params) (wfm : wfModule)
    (s : store) : completion store :=
  match updateModuleMapping idName with
  | Some update => update wfm params s
  | None => Throw "TypeError"
  end.

(** How a call of [updateTableActionModule] ends: with an alert, with
    an existing step updated, or with [addModuleAction] dispatched and
    the update left to run on the step the server answers with
    ([callUpdate idName params] is the [then] callback). *)
Inductive outcome : Type :=
| Alerted (message : string)
| Reused (result : completion store)
| Adding (s : store) (idName : string) (params : Params).

(** [updateTableActionModule], lines 67-87. *)
Definition updateTableActionModule (wfModuleId : Z) (idName : string)
    (forceNewModule : bool) (params : Params) (s : store)
  : completion outcome :=
  let state := getState s in
  match findModuleIdByIdName state idName with
  | None => Normal (Alerted ("Module '" +:+ idName +:+ "' not imported."))
  | Some moduleId =>
      match findModuleWithIds state wfModuleId moduleId with
      | Throw reason => Throw reason
      | Normal existingModule =>
          match existingModule, forceNewModule with
          | Some existingModule, false =>
              let s := ensureSelectedWfModule reducer state existingModule s in
              Normal (Reused (callUpdate idName params existingModule s))
          | _, _ =>
              match workflow state with
              | None => Throw "TypeError"
              | Some wf =>
                  let wfModuleIndex :=
                    match indexOf (wf_modules wf) wfModuleId with
                    | Some n => Z.of_nat n
                    | None => (-1)%Z
                    end in
                  Normal (Adding (dispatch reducer
                                    (AddModule moduleId (wfModuleIndex + 1)) s)
                                 idName params)
              end
          end
      end
  end.

End UpdateTableActionModule.

(** Sample values. *)

Definition sampleReducer (st : state) (a : action) : state := st.

Definition sampleState : state :=
  ReduxState
    (Some (WorkflowState [10%Z; 11%Z; 12%Z]))
    {[ 10%Z := WfModule 10 (Some 3%Z);
       11%Z := WfModule 11 (Some 4%Z);
       12%Z := WfModule 12 None ]}
    None
    {[ "filter" := 4%Z; "sort-from-table" := 9%Z; "broken" := 0%Z ]}.

Definition sampleStore : store := Store sampleState [].

(** A step that keeps the columns a, b and c. *)
Definition findKeep (wfm : wfModule) (idName : string) : option param :=
  if bool_decide (idName = "colnames") then Some (Param 1 (PVString "a,b,c"))
  else if bool_decide (idName = "drop_or_keep")
       then Some (Param 2 (PVNumber selectColumnKeep))
       else None.

(** A step that drops the columns a, b and c. *)
Definition findDrop (wfm : wfModule) (idName : string) : option param :=
  if bool_decide (idName = "colnames") then Some (Param 1 (PVString "a,b,c"))
  else if bool_decide (idName = "drop_or_keep")
       then Some (Param 2 (PVNumber selectColumnDrop))
       else None.

Definition threeEdits : list edit :=
  [Edit 0 "a" "1"; Edit 1 "b" "2"; Edit 2 "c" "3"].

Definition parseEdits (s : string) : option (list edit) :=
  if bool_decide (s = "three edits") then Some threeEdits else None.

Definition stringifyEdits (l : list (option edit)) : string :=
  pretty (List.length l).

Definition parseEntries (s : string) : parsedEntries :=
  if bool_decide (s = "A to B") then AnObject [("A", "B")]
  else if bool_decide (s = "null") then NotAnObject
  else SyntaxError.

Definition stringifyEntries (o : entries) : string :=
  join ";" ((fun kv => kv.1 +:+ ">" +:+ kv.2) <$> o).

(** A step with recorded edits and one without rename entries. *)
Definition editedStep : UpdateTableAction.wfModule :=
  WfModuleState 7 [ParamVal 70 "celledits" "three edits";
                   ParamVal 71 "rename-entries" ""].

(** The same step once the rename of A to B is stored. *)
Definition renamedStep : UpdateTableAction.wfModule :=
  WfModuleState 7 [ParamVal 70 "celledits" "three edits";
                   ParamVal 71 "rename-entries" "A to B"].

(** An update function that dispatches nothing. *)
Definition sampleMapping (idName : string)
  : option (wfModule -> unit -> store -> completion store) :=
  if bool_decide (idName = "filter")
  then Some (fun _ _ s => Normal s) else None.

End TableActions.

(* ===================================================================== *)
(** * Properties                                                          *)
(* ===================================================================== *)

(** ** Strings *)

Module StringFacts.

Lemma append_cons (c : ascii) (s t : string) :
  String c s +:+ t = String c (s +:+ t).
Proof. reflexivity. Qed.

Lemma append_assoc (s1 s2 s3 : string) :
  (s1 +:+ s2) +:+ s3 = s1 +:+ (s2 +:+ s3).
Proof.
  induction s1 as [|c s1 IH]; [reflexivity|].
  rewrite !append_cons. f_equal. exact IH.
Qed.

Lemma append_nil_r (s : string) : s +:+ "" = s.
Proof.
  induction s as [|c s IH]; [reflexivity|].
  rewrite append_cons. f_equal. exact IH.
Qed.

End StringFacts.

(** ** JavaScript numbers *)

Module NumberFacts.
Import JS.

Lemma pow2_pos (k : Z) : (0 <= k -> 0 < 2 ^ k)%Z.
Proof. intros H. apply Z.pow_pos_nonneg; lia. Qed.

Lemma pow2_add (a b : Z) : (0 <= a -> 0 <= b -> 2 ^ (a + b) = 2 ^ a * 2 ^ b)%Z.
Proof. intros Ha Hb. apply Z.pow_add_r; assumption. Qed.

Lemma up_down (x k : Z) : (k <= 0)%Z -> up x k = x.
Proof. intros H. unfold up. rewrite Z.max_l by lia. simpl. lia. Qed.

Lemma up_mul (x k : Z) : (0 <= k)%Z -> up x k = (x * 2 ^ k)%Z.
Proof. intros H. unfold up. rewrite Z.max_r by lia. reflexivity. Qed.

Lemma up_pos (x k : Z) : (0 < x)%Z -> (0 < up x k)%Z.
Proof.
  intros H. unfold up.
  pose proof (pow2_pos (Z.max 0 k) ltac:(lia)). nia.
Qed.

(** [ilog2 n d] is the binary logarithm of [n/d], rounded down. *)
Lemma ilog2_spec (n d : Z) :
  (0 < n)%Z -> (0 < d)%Z ->
  (up d (ilog2 n d) <= up n (- ilog2 n d))%Z
  /\ (up n (- (ilog2 n d + 1)) < up d (ilog2 n d + 1))%Z.
Proof.
  intros Hn Hd. unfold ilog2.
  pose proof (Z.log2_spec n Hn) as [Hn1 Hn2].
  pose proof (Z.log2_spec d Hd) as [Hd1 Hd2].
  pose proof (Z.log2_nonneg n) as Hln. pose proof (Z.log2_nonneg d) as Hld.
  set (ln := Z.log2 n) in *. set (ld := Z.log2 d) in *.
  rewrite <- Z.add_1_r in Hn2, Hd2.
  rewrite pow2_add in Hn2, Hd2 by lia. change (2 ^ 1)%Z with 2%Z in *.
  pose proof (pow2_pos ln Hln) as Hpn. pose proof (pow2_pos ld Hld) as Hpd.
  destruct (up d (ln - ld) <=? up n (- (ln - ld)))%Z eqn:E.
  - apply Z.leb_le in E. split; [exact E|].
    destruct (Z.le_gt_cases 0 (ln - ld)) as [Hl|Hl].
    + rewrite up_down by lia. rewrite up_mul by lia.
      replace (ln - ld + 1)%Z with ((ln - ld) + 1)%Z by lia.
      rewrite pow2_add by lia. change (2 ^ 1)%Z with 2%Z.
      assert (Hs : (2 ^ ln = 2 ^ ld * 2 ^ (ln - ld))%Z).
      { rewrite <- pow2_add by lia. f_equal. lia. }
      pose proof (pow2_pos (ln - ld) Hl) as Hp.
      pose proof (Z.mul_le_mono_nonneg_r _ _ (2 ^ (ln - ld)) ltac:(lia) Hd1).
      lia.
    + rewrite up_mul by lia. rewrite up_down by lia.
      assert (Hs : (2 ^ ld = 2 ^ ln * 2 * 2 ^ (- (ln - ld + 1)))%Z).
      { replace (2 ^ ln * 2)%Z with (2 ^ (ln + 1))%Z
          by (rewrite pow2_add by lia; reflexivity).
        rewrite <- pow2_add by lia. f_equal. lia. }
      pose proof (pow2_pos (- (ln - ld + 1)) ltac:(lia)) as Hp.
      pose proof (Z.mul_lt_mono_pos_r (2 ^ (- (ln - ld + 1))) n (2 ^ ln * 2)
                    Hp) as [Hm _].
      specialize (Hm Hn2). lia.
  - apply Z.leb_gt in E.
    replace (ln - ld - 1 + 1)%Z with (ln - ld)%Z by lia.
    split; [|exact E].
    destruct (Z.le_gt_cases 0 (ln - ld - 1)) as [Hl|Hl].
    + rewrite up_mul by lia. rewrite up_down by lia.
      assert (Hs : (2 ^ ln = 2 ^ ld * 2 * 2 ^ (ln - ld - 1))%Z).
      { replace (2 ^ ld * 2)%Z with (2 ^ (ld + 1))%Z
          by (rewrite pow2_add by lia; reflexivity).
        rewrite <- pow2_add by lia. f_equal. lia. }
      pose proof (pow2_pos (ln - ld - 1) Hl) as Hp.
      pose proof (Z.mul_lt_mono_pos_r (2 ^ (ln - ld - 1)) d (2 ^ ld * 2)
                    Hp) as [Hm _].
      specialize (Hm Hd2). lia.
    + rewrite up_down by lia. rewrite up_mul by lia.
      assert (Hs : (2 ^ ld * 2 = 2 ^ ln * 2 ^ (- (ln - ld - 1)))%Z).
      { replace (2 ^ ld * 2)%Z with (2 ^ (ld + 1))%Z
          by (rewrite pow2_add by lia; reflexivity).
        rewrite <- pow2_add by lia. f_equal. lia. }
      pose proof (pow2_pos (- (ln - ld - 1)) ltac:(lia)) as Hp.
      pose proof (Z.mul_le_mono_nonneg_r _ _ (2 ^ (- (ln - ld - 1)))
                    ltac:(lia) Hn1).
      lia.
Qed.

(** Rounding to the nearest integer moves to one of the two integers
    around the quotient, and stays when the quotient is an integer. *)
Lemma nearest_even_spec (n d : Z) :
  (0 < d)%Z ->
  (n / d <= nearest_even n d <= n / d + 1)%Z
  /\ (n mod d = 0 -> nearest_even n d = n / d)%Z
  /\ (d < 2 * (n mod d) -> nearest_even n d = n / d + 1)%Z
  /\ (nearest_even n d = n / d + 1 -> 0 < n mod d)%Z.
Proof.
  intros Hd. unfold nearest_even.
  pose proof (Z.mod_pos_bound n d Hd) as Hr.
  destruct (2 * (n mod d) ?= d)%Z eqn:E.
  - apply Z.compare_eq_iff in E.
    destruct (Z.even (n / d)); repeat split; intros; lia.
  - rewrite Z.compare_lt_iff in E. repeat split; intros; lia.
  - rewrite Z.compare_gt_iff in E. repeat split; intros; lia.
Qed.

(** On these integers, among them the two of the quotient that rounds
    to 3 and some beyond the range of the doubles, the division and the
    addition above are those of the Standard Library's binary64. *)
Example arithmetic_agrees_with_SpecFloat :
  forallb agrees_with_SpecFloat
    [(5, 2); (1, 3); (2, 3); (86400, 604800); (86400, 7); (1, 10);
     (27021597764222984, 9007199254740994); (2 ^ 53, 1); (2 ^ 53 - 1, 2);
     (9007199254740993, 3); (1, 2 ^ 1074); (3, 2 ^ 1075); (1, 2 ^ 1076);
     (2 ^ 1023, 1); (2 ^ 1024 - 2 ^ 970, 2 ^ 1024 - 2 ^ 970); (- 5, 3);
     (5, - 3); (0, 5); (5, 0); (0, 0); (- 7, 2 ^ 1074); (2 ^ 1030, 3);
     (10 ^ 300, 10 ^ 300); (- 10 ^ 300, 10 ^ 300);
     (1, 2 ^ 1023); (3, 2 ^ 1024 - 2 ^ 971); (- 1, 2 ^ 1024 - 2 ^ 971);
     (7, 2 ^ 1023 + 2 ^ 1000); (2 ^ 1024 - 2 ^ 971, 2 ^ 1024 - 2 ^ 971);
     (2 ^ 1023, 2 ^ 970)]%Z
  = true.
Proof. vm_compute. reflexivity. Qed.

End NumberFacts.

Module CeilingFacts.
Import JS NumberFacts.

(** The ceiling is the least number of tiles that cover the items. *)
Lemma ceiling_covers (a b : Z) :
  (0 < b)%Z ->
  let t := ((a + b - 1) / b)%Z in
  ((t - 1) * b < a <= t * b)%Z.
Proof.
  intros Hb t.
  pose proof (Z.div_mod (a + b - 1) b ltac:(lia)) as Hdm.
  pose proof (Z.mod_pos_bound (a + b - 1) b Hb) as Hr.
  subst t. nia.
Qed.

Lemma Qceiling_Qmake (m t : Z) (p : positive) :
  ((t - 1) * Z.pos p < m <= t * Z.pos p)%Z -> Qceiling (m # p) = t.
Proof.
  intros H. unfold Qceiling, Qfloor, Qopp. simpl.
  assert (Hd : ((- m) / Z.pos p = - t)%Z).
  { symmetry. apply Z.div_unique with (r := (t * Z.pos p - m)%Z); lia. }
  rewrite Hd. lia.
Qed.

(** Rounding [a * 2^k / b] to the nearest integer does not cross a
    multiple of [2^k], when [b * 2^52 <= a * 2^k] and [a, b <= 2^53]. *)
Lemma nearest_even_ceiling (a b k : Z) :
  (0 < a <= 2 ^ 53)%Z -> (0 < b <= 2 ^ 53)%Z -> (0 <= k)%Z ->
  (b * 2 ^ 52 <= a * 2 ^ k)%Z ->
  let t := ((a + b - 1) / b)%Z in
  ((t - 1) * 2 ^ k < nearest_even (a * 2 ^ k) b <= t * 2 ^ k)%Z.
Proof.
  intros Ha Hb Hk Hlo. cbv zeta.
  pose proof (ceiling_covers a b ltac:(lia)) as Ht. cbv zeta in Ht.
  set (t := ((a + b - 1) / b)%Z) in *. clearbody t.
  pose proof (pow2_pos k ltac:(lia)) as HP.
  assert (Hk52 : (k <= 52 -> 2 ^ 52 = 2 ^ k * 2 ^ (52 - k))%Z).
  { intros. rewrite <- pow2_add by lia. f_equal. lia. }
  assert (Hk53 : (52 < k -> 2 ^ 53 <= 2 ^ k)%Z).
  { intros. apply Z.pow_le_mono_r; lia. }
  set (P := (2 ^ k)%Z) in *.
  destruct (nearest_even_spec (a * P) b ltac:(lia)) as (Hm & _ & Hup & Hinexact).
  pose proof (Z.div_mod (a * P) b ltac:(lia)) as Hdm.
  pose proof (Z.mod_pos_bound (a * P) b ltac:(lia)) as Hr.
  set (m := nearest_even (a * P) b) in *.
  set (M0 := (a * P / b)%Z) in *. set (R := ((a * P) mod b)%Z) in *.
  clearbody m M0 R P.
  assert (HtP : (a * P <= t * P * b)%Z).
  { replace (t * P * b)%Z with (t * b * P)%Z by ring.
    apply Z.mul_le_mono_nonneg_r; lia. }
  assert (HtP' : ((t - 1) * P * b < a * P)%Z).
  { replace ((t - 1) * P * b)%Z with ((t - 1) * b * P)%Z by ring.
    apply Z.mul_lt_mono_pos_r; lia. }
  split.
  - (* the lower side *)
    assert (HM0 : ((t - 1) * P <= M0)%Z).
    { assert (H : ((t - 1) * P * b < (M0 + 1) * b)%Z) by lia.
      apply Z.mul_lt_mono_pos_r in H; lia. }
    destruct (Z.eq_dec M0 ((t - 1) * P)%Z) as [Heq|Hne]; [|lia].
    (* the quotient is below the first multiple: it is rounded up *)
    assert (HR : (R = (a - (t - 1) * b) * P)%Z).
    { rewrite Heq in Hdm. lia. }
    assert (HaP : (a * P <= 2 ^ 53 * P)%Z)
      by (apply Z.mul_le_mono_nonneg_r; lia).
    assert (Hb2 : (b <= 2 * P)%Z) by lia.
    assert (Hrho : (1 * P <= (a - (t - 1) * b) * P)%Z)
      by (apply Z.mul_le_mono_nonneg_r; lia).
    assert (Hgt : (b < 2 * R)%Z).
    { destruct (Z.eq_dec b (2 * P)%Z) as [HbP|HbP]; [|lia].
      (* then a = 2^53 and b divides it *)
      assert (Ha' : (a = 2 ^ 53)%Z).
      { assert (H : (2 ^ 53 * P <= a * P)%Z) by lia.
        apply Z.mul_le_mono_pos_r in H; lia. }
      destruct (Z.le_gt_cases k 52) as [Hle|Hgt]; [|specialize (Hk53 Hgt); lia].
      specialize (Hk52 Hle).
      pose proof (pow2_pos (52 - k) ltac:(lia)) as HQ.
      set (c := (2 ^ (52 - k))%Z) in *. clearbody c.
      assert (Hab : (a = c * b)%Z) by lia.
      assert (Htc : (t = c)%Z).
      { clear - Ht Hab Hb. nia. }
      assert (Hrho' : ((a - (t - 1) * b) = b)%Z) by (subst t; lia).
      rewrite HR, Hrho'.
      assert (H2 : (b * 1 <= b * P)%Z)
        by (apply Z.mul_le_mono_nonneg_l; lia).
      lia. }
    rewrite (Hup Hgt). lia.
  - (* the upper side *)
    assert (HM0 : (M0 <= t * P)%Z).
    { assert (H : (M0 * b <= t * P * b)%Z) by lia.
      apply Z.mul_le_mono_pos_r in H; lia. }
    destruct (Z.eq_dec m (M0 + 1)%Z) as [Hm1|Hm1]; [|lia].
    specialize (Hinexact Hm1).
    assert (H : (M0 * b < t * P * b)%Z) by lia.
    apply Z.mul_lt_mono_pos_r in H; lia.
Qed.

Lemma is_zero_of_Z (a : Z) : is_zero (of_Z a) = (a =? 0)%Z.
Proof.
  unfold is_zero, of_Z, Qcompare. simpl. rewrite Z.mul_1_r.
  destruct a; reflexivity.
Qed.

Lemma negative_of_Z (a : Z) : negative (of_Z a) = (a <? 0)%Z.
Proof.
  unfold negative, of_Z, Qcompare. simpl. rewrite Z.mul_1_r.
  destruct a; reflexivity.
Qed.

Lemma round64_quotient (a b : Z) :
  (0 < a)%Z -> (0 < b)%Z ->
  round64 (inject_Z a / inject_Z b) = round_magnitude false a b.
Proof.
  intros Ha Hb. destruct a as [|a|a]; try lia. destruct b as [|b|b]; try lia.
  unfold round64, Qdiv, Qmult, Qinv, inject_Z. cbn [Qnum Qden Z.mul Pos.mul].
  rewrite Z.mul_1_r, Pos.mul_1_l. reflexivity.
Qed.

(** The quotient of two positive integers up to 2^53. *)
Lemma div_positive_integers (a b : Z) :
  (0 < a)%Z -> (0 < b)%Z ->
  div (of_Z a) (of_Z b) = round_magnitude false a b.
Proof.
  intros Ha Hb. unfold div.
  rewrite !is_zero_of_Z.
  destruct (Z.eqb_spec b 0) as [|_]; [lia|].
  destruct (Z.eqb_spec a 0) as [|_]; [lia|].
  unfold of_Z at 1 2. cbv beta iota. unfold value, of_Z.
  apply round64_quotient; assumption.
Qed.

(** The quotient of two positive integers up to 2^53 has the ceiling of
    the exact quotient. *)
Lemma ceil_div_positive_integers (a b : Z) :
  (0 < a <= 2 ^ 53)%Z -> (0 < b <= 2 ^ 53)%Z ->
  Math_ceil (div (of_Z a) (of_Z b)) = of_Z ((a + b - 1) / b).
Proof.
  intros Ha Hb. rewrite div_positive_integers by lia.
  pose proof (ilog2_spec a b ltac:(lia) ltac:(lia)) as [Hlo Hhi].
  pose proof (ceiling_covers a b ltac:(lia)) as Ht. cbv zeta in Ht.
  assert (Ht1 : (1 <= (a + b - 1) / b)%Z) by nia.
  assert (He : (- 53 <= ilog2 a b <= 53)%Z).
  { split.
    - destruct (Z.le_gt_cases (- 53) (ilog2 a b)) as [|Hlt]; [assumption|].
      rewrite up_mul in Hhi by lia. rewrite up_down in Hhi by lia.
      pose proof (Z.pow_le_mono_r 2 53 (- (ilog2 a b + 1))
                    ltac:(lia) ltac:(lia)).
      nia.
    - destruct (Z.le_gt_cases (ilog2 a b) 53) as [|Hgt]; [assumption|].
      rewrite up_mul in Hlo by lia. rewrite up_down in Hlo by lia.
      pose proof (Z.pow_le_mono_r 2 54 (ilog2 a b) ltac:(lia) ltac:(lia)).
      change (2 ^ 54)%Z with (2 * 2 ^ 53)%Z in *.
      nia. }
  destruct (Z.eq_dec (ilog2 a b) 53%Z) as [He53|He53].
  - (* 2^53 / 1 *)
    rewrite He53 in Hlo. rewrite up_mul in Hlo by lia.
    rewrite up_down in Hlo by lia.
    assert (b = 1%Z) by nia. assert (a = (2 ^ 53)%Z) by nia. subst a b.
    vm_compute. reflexivity.
  - unfold round_magnitude, significand, exponent.
    rewrite Z.max_l by lia.
    set (e := ilog2 a b) in *.
    rewrite (up_mul a) by lia. rewrite (up_down b) by lia.
    replace (- (e - 52))%Z with (52 - e)%Z by lia.
    assert (Hlo' : (b * 2 ^ 52 <= a * 2 ^ (52 - e))%Z).
    { destruct (Z.le_gt_cases 0 e) as [He0|He0].
      - rewrite up_mul in Hlo by lia. rewrite up_down in Hlo by lia.
        assert (H52 : (2 ^ 52 = 2 ^ e * 2 ^ (52 - e))%Z).
        { rewrite <- pow2_add by lia. f_equal. lia. }
        pose proof (pow2_pos (52 - e) ltac:(lia)). rewrite H52. nia.
      - rewrite up_down in Hlo by lia. rewrite up_mul in Hlo by lia.
        assert (H52 : (2 ^ (52 - e) = 2 ^ 52 * 2 ^ (- e))%Z).
        { rewrite <- pow2_add by lia. f_equal; lia. }
        rewrite H52. nia. }
    pose proof (nearest_even_ceiling a b (52 - e) Ha Hb ltac:(lia) Hlo')
      as Hm. cbv zeta in Hm.
    pose proof (pow2_pos (52 - e) ltac:(lia)) as HP.
    pose proof (Z.pow_le_mono_r 2 (52 - e) 105 ltac:(lia) ltac:(lia)) as HP105.
    set (t := ((a + b - 1) / b)%Z) in *.
    set (m := nearest_even (a * 2 ^ (52 - e)) b) in *.
    assert (Hm0 : (0 < m)%Z).
    { assert (0 <= (t - 1) * 2 ^ (52 - e))%Z
        by (apply Z.mul_nonneg_nonneg; lia). lia. }
    assert (Hta : (t <= 2 ^ 53)%Z).
    { assert (H : ((t - 1) * 1 <= (t - 1) * b)%Z)
        by (apply Z.mul_le_mono_nonneg_l; lia). lia. }
    assert (Hbig : (m < 2 ^ 1024)%Z).
    { assert (H : (t * 2 ^ (52 - e) <= 2 ^ 53 * 2 ^ 105)%Z)
        by (apply Z.mul_le_mono_nonneg; lia).
      assert (H' : (2 ^ 53 * 2 ^ 105 < 2 ^ 1024)%Z) by reflexivity.
      lia. }
    rewrite up_down by lia.
    destruct (Z.eqb_spec m 0) as [|_]; [lia|].
    destruct (Z.leb_spec (2 ^ 1024) m) as [|_]; [lia|].
    unfold scaled. destruct (Z.ltb_spec 0 (e - 52)) as [|_]; [lia|].
    replace (- (e - 52))%Z with (52 - e)%Z by lia.
    unfold Math_ceil.
    rewrite (Qceiling_Qmake m t).
    + destruct (Z.eqb_spec t 0) as [|_]; [lia|]. reflexivity.
    + rewrite Z2Pos.id by lia. exact Hm.
Qed.

End CeilingFacts.

Module RoundingFacts.
Import JS NumberFacts.

Lemma Qnum_pos (q : Q) : (0 < q)%Q <-> (0 < Qnum q)%Z.
Proof. unfold Qlt. simpl. lia. Qed.

Lemma Qnum_neg (q : Q) : (q < 0)%Q <-> (Qnum q < 0)%Z.
Proof. unfold Qlt. simpl. lia. Qed.

Lemma Qnum_zero (q : Q) : (q == 0)%Q <-> Qnum q = 0%Z.
Proof. unfold Qeq. simpl. lia. Qed.

Lemma scaled_pos (m e : Z) : (0 < m)%Z -> (0 < scaled m e)%Q.
Proof.
  intros Hm. apply Qnum_pos. unfold scaled.
  destruct (Z.ltb_spec 0 e) as [He|He]; simpl; [|assumption].
  pose proof (pow2_pos e ltac:(lia)). nia.
Qed.

Lemma scaled_neg (m e : Z) : (0 < m)%Z -> (scaled (- m) e < 0)%Q.
Proof.
  intros Hm. apply Qnum_neg. unfold scaled.
  destruct (Z.ltb_spec 0 e) as [He|He]; simpl; [|lia].
  pose proof (pow2_pos e ltac:(lia)). nia.
Qed.

Lemma scaled_on_grid (m e : Z) : (- 1074 <= e)%Z -> on_grid (scaled m e).
Proof.
  intros He. exists (m * 2 ^ (e + 1074))%Z. unfold scaled.
  change (0 <? - 1074)%Z with false. cbv iota.
  change (- - 1074)%Z with 1074%Z.
  pose proof (pow2_pos 1074 ltac:(lia)) as H1074.
  destruct (Z.ltb_spec 0 e) as [Hpos|Hneg]; unfold Qeq, inject_Z;
    cbn [Qnum Qden].
  - rewrite Z2Pos.id by assumption.
    rewrite pow2_add by lia. ring.
  - pose proof (pow2_pos (- e) ltac:(lia)) as Hp.
    rewrite !Z2Pos.id by assumption.
    assert (H : (2 ^ 1074 = 2 ^ (e + 1074) * 2 ^ (- e))%Z).
    { rewrite <- pow2_add by lia. f_equal. lia. }
    rewrite H. ring.
Qed.

Lemma on_grid_zero : on_grid 0.
Proof. exists 0%Z. reflexivity. Qed.

Lemma scaled_plus (j k e : Z) :
  (e <= 0)%Z -> (scaled j e + scaled k e == scaled (j + k) e)%Q.
Proof.
  intros He. unfold scaled.
  destruct (Z.ltb_spec 0 e) as [|_]; [lia|].
  unfold Qeq, Qplus. cbn [Qnum Qden]. rewrite Pos2Z.inj_mul. ring.
Qed.

Lemma on_grid_plus (x y : Q) : on_grid x -> on_grid y -> on_grid (x + y).
Proof.
  intros [j Hj] [k Hk]. exists (j + k)%Z.
  rewrite Hj, Hk. apply scaled_plus. lia.
Qed.

Lemma on_grid_opp (x : Q) : on_grid x -> on_grid (- x).
Proof.
  intros [j Hj]. exists (- j)%Z. rewrite Hj. reflexivity.
Qed.

Lemma on_grid_proper (x y : Q) : (x == y)%Q -> on_grid x -> on_grid y.
Proof. intros H [j Hj]. exists j. by rewrite <- H. Qed.

(** A positive multiple of [2^-1074] is at least [2^-1074]. *)
Lemma on_grid_pos (q : Q) :
  on_grid q -> (0 < q)%Q -> (Z.pos (Qden q) <= Qnum q * 2 ^ 1074)%Z.
Proof.
  intros [k Hk] Hq.
  assert (Hkpos : (0 < k)%Z).
  { rewrite Hk in Hq. apply Qnum_pos in Hq. exact Hq. }
  unfold Qeq, scaled in Hk.
  change (0 <? - 1074)%Z with false in Hk. cbv iota in Hk.
  change (- - 1074)%Z with 1074%Z in Hk. cbn [Qnum Qden] in Hk.
  pose proof (pow2_pos 1074 ltac:(lia)) as H1074.
  rewrite Z2Pos.id in Hk by assumption.
  rewrite Hk. nia.
Qed.

Lemma significand_nonneg (n d : Z) :
  (0 < n)%Z -> (0 < d)%Z -> (0 <= significand n d)%Z.
Proof.
  intros Hn Hd. unfold significand.
  pose proof (up_pos n (- exponent n d) Hn) as Hn'.
  pose proof (up_pos d (exponent n d) Hd) as Hd'.
  destruct (nearest_even_spec (up n (- exponent n d)) (up d (exponent n d)) Hd')
    as ([Hl _] & _).
  pose proof (Z.div_pos (up n (- exponent n d)) (up d (exponent n d))
                ltac:(lia) Hd').
  lia.
Qed.

(** A ratio of at least [2^-1074] does not round to zero. *)
Lemma significand_pos (n d : Z) :
  (0 < n)%Z -> (0 < d)%Z -> (d <= n * 2 ^ 1074)%Z ->
  (0 < significand n d)%Z.
Proof.
  intros Hn Hd Hgrid. unfold significand.
  pose proof (up_pos n (- exponent n d) Hn) as Hn'.
  pose proof (up_pos d (exponent n d) Hd) as Hd'.
  destruct (nearest_even_spec (up n (- exponent n d)) (up d (exponent n d)) Hd')
    as ([Hl _] & _).
  enough (Hle : (up d (exponent n d) <= up n (- exponent n d))%Z).
  { pose proof (Z.div_str_pos _ _ (conj Hd' Hle)). lia. }
  unfold exponent.
  destruct (ilog2_spec n d Hn Hd) as [Hlo _].
  set (e0 := ilog2 n d) in *.
  destruct (Z.max_spec (e0 - 52) (- 1074)) as [[Hlt ->]|[Hge ->]].
  - rewrite up_down by lia. rewrite up_mul by lia. exact Hgrid.
  - destruct (Z.le_gt_cases 0 (e0 - 52)) as [HE|HE].
    + rewrite up_mul by lia. rewrite up_down by lia.
      rewrite up_mul in Hlo by lia. rewrite up_down in Hlo by lia.
      pose proof (Z.pow_le_mono_r 2 (e0 - 52) e0 ltac:(lia) ltac:(lia)).
      pose proof (pow2_pos (e0 - 52) HE).
      nia.
    + rewrite up_down by lia. rewrite up_mul by lia.
      destruct (Z.le_gt_cases 0 e0) as [He0|He0].
      * rewrite up_mul in Hlo by lia. rewrite up_down in Hlo by lia.
        pose proof (pow2_pos e0 He0).
        pose proof (pow2_pos (- (e0 - 52)) ltac:(lia)).
        nia.
      * rewrite up_down in Hlo by lia. rewrite up_mul in Hlo by lia.
        pose proof (Z.pow_le_mono_r 2 (- e0) (- (e0 - 52))
                      ltac:(lia) ltac:(lia)).
        pose proof (pow2_pos (- e0) ltac:(lia)).
        nia.
Qed.

(** What rounding returns: a zero, an infinity, or a double of the
    sign asked for. *)
Lemma round_magnitude_cases (s : bool) (n d : Z) :
  (0 < n)%Z -> (0 < d)%Z ->
  (round_magnitude s n d = zero s /\ significand n d = 0%Z)
  \/ round_magnitude s n d = infinity s
  \/ exists m e,
       (0 < m)%Z /\ (- 1074 <= e)%Z
       /\ round_magnitude s n d = Finite (scaled (if s then - m else m) e).
Proof.
  intros Hn Hd. unfold round_magnitude.
  pose proof (significand_nonneg n d Hn Hd) as Hm.
  destruct (Z.eqb_spec (significand n d) 0) as [H0|H0]; [by left|].
  right.
  destruct (2 ^ 1024 <=? up (significand n d) (exponent n d))%Z; [by left|].
  right. exists (significand n d), (exponent n d).
  split; [lia|]. split; [unfold exponent; lia|]. reflexivity.
Qed.

Lemma round64_nonnegative (q : Q) : (0 <= q)%Q -> nonnegative_number (round64 q).
Proof.
  intros Hq. unfold round64.
  destruct (Z.eqb_spec (Qnum q) 0) as [H0|H0].
  { right. exists 0%Q. split; [done|]. split; [lra|apply on_grid_zero]. }
  assert (Hpos : (0 < Qnum q)%Z).
  { unfold Qle in Hq. simpl in Hq. lia. }
  destruct (Z.ltb_spec (Qnum q) 0) as [|_]; [lia|].
  rewrite Z.abs_eq by lia.
  destruct (round_magnitude_cases false (Qnum q) (Z.pos (Qden q)) Hpos eq_refl)
    as [[-> _]|[->|(m & e & Hm & He & ->)]].
  - right. exists 0%Q. split; [done|]. split; [lra|apply on_grid_zero].
  - by left.
  - right. eexists. split; [done|]. split.
    + apply Qlt_le_weak, scaled_pos, Hm.
    + by apply scaled_on_grid.
Qed.

(** Rounding a multiple of [2^-1074] keeps its sign. *)
Lemma round64_positive (q : Q) :
  on_grid q -> (0 < q)%Q -> positive_number (round64 q).
Proof.
  intros Hg Hq. unfold round64.
  pose proof (proj1 (Qnum_pos q) Hq) as Hpos.
  destruct (Z.eqb_spec (Qnum q) 0) as [|_]; [lia|].
  destruct (Z.ltb_spec (Qnum q) 0) as [|_]; [lia|].
  rewrite Z.abs_eq by lia.
  pose proof (significand_pos (Qnum q) (Z.pos (Qden q)) Hpos eq_refl
                (on_grid_pos q Hg Hq)) as Hs.
  destruct (round_magnitude_cases false (Qnum q) (Z.pos (Qden q)) Hpos eq_refl)
    as [[_ H0]|[->|(m & e & Hm & He & ->)]].
  - lia.
  - by left.
  - right. eexists. split; [done|]. apply scaled_pos, Hm.
Qed.

Lemma round64_negative (q : Q) :
  on_grid q -> (q < 0)%Q -> negative_number (round64 q).
Proof.
  intros Hg Hq. unfold round64.
  pose proof (proj1 (Qnum_neg q) Hq) as Hneg.
  destruct (Z.eqb_spec (Qnum q) 0) as [|_]; [lia|].
  destruct (Z.ltb_spec (Qnum q) 0) as [_|]; [|lia].
  assert (Hg' : on_grid (- q)) by (by apply on_grid_opp).
  assert (Hq' : (0 < - q)%Q) by lra.
  pose proof (on_grid_pos (- q) Hg' Hq') as Hge. simpl in Hge.
  rewrite <- Z.abs_neq in Hge by lia.
  assert (Habs : (0 < Z.abs (Qnum q))%Z) by lia.
  pose proof (significand_pos _ (Z.pos (Qden q)) Habs eq_refl Hge) as Hs.
  destruct (round_magnitude_cases true _ (Z.pos (Qden q)) Habs eq_refl)
    as [[_ H0]|[->|(m & e & Hm & He & ->)]].
  - lia.
  - by left.
  - right. eexists. split; [done|]. apply scaled_neg, Hm.
Qed.

(** Rounding a negative rational gives -0, a negative double or
    -Infinity. *)
Lemma round64_of_negative (q : Q) :
  (q < 0)%Q ->
  round64 q = NegZero \/ negative_number (round64 q).
Proof.
  intros Hq. unfold round64.
  pose proof (proj1 (Qnum_neg q) Hq) as Hneg.
  destruct (Z.eqb_spec (Qnum q) 0) as [|_]; [lia|].
  destruct (Z.ltb_spec (Qnum q) 0) as [_|]; [|lia].
  assert (Habs : (0 < Z.abs (Qnum q))%Z) by lia.
  destruct (round_magnitude_cases true _ (Z.pos (Qden q)) Habs eq_refl)
    as [[-> _]|[->|(m & e & Hm & He & ->)]].
  - by left.
  - right. by left.
  - right. right. eexists. split; [done|]. apply scaled_neg, Hm.
Qed.

End RoundingFacts.

(** ** Report/Table.js *)

Module TableFacts.
Import JS Table NumberFacts CeilingFacts RoundingFacts.

(** C1, as stated, fails beyond 2^53: 27021597764222984 rows in tiles
    of 9007199254740994 rows, two integers that are doubles, need 4
    tiles, 3 tiles being too few, and the program computes 3: the
    quotient, a little above 3, rounds to the double 3. *)
Lemma tileCount_beyond_2_53 :
  let nRows := 27021597764222984%Z in
  let nRowsPerTile := 9007199254740994%Z in
  round64 (inject_Z nRows) = of_Z nRows
  /\ round64 (inject_Z nRowsPerTile) = of_Z nRowsPerTile
  /\ positive_integer (of_Z nRows)
  /\ positive_integer (of_Z nRowsPerTile)
  /\ tileCount (of_Z nRows) [oneColumn] (of_Z nRowsPerTile) (of_Z 1)
     = Normal (of_Z 3, of_Z 1)
  /\ ((nRows + nRowsPerTile - 1) / nRowsPerTile = 4)%Z
  /\ (3 * nRowsPerTile < nRows)%Z.
Proof.
  cbv zeta. split; [vm_compute; reflexivity|].
  split; [vm_compute; reflexivity|].
  split; [eexists; split; [|reflexivity]; lia|].
  split; [eexists; split; [|reflexivity]; lia|].
  split; [vm_compute; reflexivity|].
  split; [reflexivity|lia].
Qed.

(** C1, amended. For positive [nRows], [nColumns], [rowsPerTile] and
    [columnsPerTile] up to 2^53 the tile grid is ceil(nRows/rowsPerTile)
    tile rows by ceil(nColumns/columnsPerTile) tile columns: the counts
    are the integers [t] with [(t - 1) * perTile < n <= t * perTile]. *)
Theorem tileCount_is_ceiling
    (nRows nRowsPerTile nColumnsPerTile : Z) (columns : list column) :
  (0 < nRows <= 2 ^ 53)%Z ->
  (0 < Z.of_nat (List.length columns) <= 2 ^ 53)%Z ->
  (0 < nRowsPerTile <= 2 ^ 53)%Z ->
  (0 < nColumnsPerTile <= 2 ^ 53)%Z ->
  exists nTileRows nTileColumns : Z,
    tileCount (of_Z nRows) columns (of_Z nRowsPerTile) (of_Z nColumnsPerTile)
      = Normal (of_Z nTileRows, of_Z nTileColumns)
    /\ nTileRows = ((nRows + nRowsPerTile - 1) / nRowsPerTile)%Z
    /\ nTileColumns
       = ((Z.of_nat (List.length columns) + nColumnsPerTile - 1)
            / nColumnsPerTile)%Z
    /\ ((nTileRows - 1) * nRowsPerTile < nRows <= nTileRows * nRowsPerTile)%Z
    /\ ((nTileColumns - 1) * nColumnsPerTile
          < Z.of_nat (List.length columns)
          <= nTileColumns * nColumnsPerTile)%Z.
Proof.
  intros HnR HnC HrpT HcpT.
  exists ((nRows + nRowsPerTile - 1) / nRowsPerTile)%Z,
         ((Z.of_nat (List.length columns) + nColumnsPerTile - 1)
            / nColumnsPerTile)%Z.
  split; [|split; [reflexivity|split; [reflexivity|
           split; apply ceiling_covers; lia]]].
  unfold tileCount, nTileRows, nTileColumns, JS.length.
  rewrite !ceil_div_positive_integers by assumption. reflexivity.
Qed.

(** The example of the specification: 5 rows in tiles of 2 rows make 3
    tile rows (and 12 columns in tiles of 5 make 3 tile columns). *)
Lemma tileCount_is_ceiling_witness :
  exists nTileRows nTileColumns : Z,
    tileCount (of_Z 5) (replicate 12 (Build_column "c" "text"))
              (of_Z 2) (of_Z 5)
      = Normal (of_Z nTileRows, of_Z nTileColumns)
    /\ nTileRows = 3%Z
    /\ nTileColumns = 3%Z
    /\ ((nTileRows - 1) * 2 < 5 <= nTileRows * 2)%Z
    /\ ((nTileColumns - 1) * 5 < 12 <= nTileColumns * 5)%Z.
Proof.
  apply (tileCount_is_ceiling 5 2 5 (replicate 12 (Build_column "c" "text")));
    simpl; lia.
Defined.

(** C2, as stated, fails: with [rowsPerTile = 0], which is not a
    positive integer, the computation returns (Infinity, 1) and signals
    nothing. *)
Lemma tileCount_zero_rowsPerTile_returns :
  ~ positive_integer (of_Z 0)
  /\ tileCount (of_Z 5) [oneColumn] (of_Z 0) (of_Z 1)
       = Normal (PosInfinity, of_Z 1)
  /\ ~ (exists reason,
          tileCount (of_Z 5) [oneColumn] (of_Z 0) (of_Z 1) = Throw reason).
Proof.
  split; [|split].
  - intros [z [Hz Hq]]. unfold Qeq in Hq. simpl in Hq. lia.
  - vm_compute. reflexivity.
  - intros [reason H]. discriminate H.
Qed.

Lemma is_zero_Finite (q : Q) : is_zero (Finite q) = true <-> (q == 0)%Q.
Proof.
  unfold is_zero. rewrite Qeq_alt. destruct (q ?= 0)%Q; split; congruence.
Qed.

Lemma negative_Finite (q : Q) : negative (Finite q) = true <-> (q < 0)%Q.
Proof.
  unfold negative. rewrite Qlt_alt. destruct (q ?= 0)%Q; split; congruence.
Qed.

(** A quotient by zero. *)
Lemma div_by_zero (q : Q) (y : number) :
  ~ (q == 0)%Q -> y = Finite 0 \/ y = NegZero ->
  div (Finite q) y = infinity (xorb (negative (Finite q)) (negative y)).
Proof.
  intros Hq Hy. unfold div.
  assert (Hz : is_zero (Finite q) = false).
  { destruct (is_zero (Finite q)) eqn:E; [|done].
    apply is_zero_Finite in E. contradiction. }
  rewrite Hz. by destruct Hy as [-> | ->].
Qed.

(** The ceiling of a negative double. *)
Lemma Math_ceil_negative (r : Q) :
  (r < 0)%Q ->
  Math_ceil (Finite r) = NegZero
  \/ exists t : Z, (t < 0)%Z /\ Math_ceil (Finite r) = of_Z t.
Proof.
  intros Hr. unfold Math_ceil.
  assert (Hc : (Qceiling r <= 0)%Z).
  { pose proof (Qceiling_lt r) as H.
    assert (H0 : (inject_Z (Qceiling r - 1) < inject_Z 0)%Q).
    { change (inject_Z 0) with 0%Q. lra. }
    rewrite <- Zlt_Qlt in H0. lia. }
  apply negative_Finite in Hr. rewrite Hr.
  destruct (Z.eqb_spec (Qceiling r) 0) as [_|Hne]; [by left|].
  right. exists (Qceiling r). split; [lia|reflexivity].
Qed.

(** A positive number of items in tiles of a negative size. *)
Lemma nTileRows_negative_size (q : Q) (size : number) :
  (0 < q)%Q ->
  size = NegInfinity \/ (exists s, size = Finite s /\ (s < 0)%Q) ->
  nTileRows (Finite q) size = NegZero
  \/ nTileRows (Finite q) size = NegInfinity
  \/ exists t : Z, (t < 0)%Z /\ nTileRows (Finite q) size = of_Z t.
Proof.
  intros Hq [->|(s & -> & Hs)]; unfold nTileRows.
  - left. unfold div.
    assert (Hn : negative (Finite q) = false).
    { destruct (negative (Finite q)) eqn:E; [|done].
      apply negative_Finite in E. lra. }
    rewrite Hn. reflexivity.
  - assert (Hzs : is_zero (Finite s) = false).
    { destruct (is_zero (Finite s)) eqn:E; [|done].
      apply is_zero_Finite in E. lra. }
    assert (Hzq : is_zero (Finite q) = false).
    { destruct (is_zero (Finite q)) eqn:E; [|done].
      apply is_zero_Finite in E. lra. }
    unfold div. rewrite Hzs, Hzq. cbn [value].
    assert (Hneg : (q / s < 0)%Q).
    { assert (H : (0 < q * / (- s))%Q).
      { apply Qmult_lt_0_compat; [done|]. apply Qinv_lt_0_compat. lra. }
      assert (He : (q / s == - (q * / (- s)))%Q) by (field; lra).
      rewrite He. lra. }
    destruct (round64_of_negative (q / s) Hneg) as [->|[->|(r & -> & Hr)]].
    + by left.
    + right. by left.
    + destruct (Math_ceil_negative r Hr) as [->|H]; [by left|].
      right. by right.
Qed.

(** C2, amended. The tile-count computation checks nothing and never
    signals an error: whatever numbers it is given, it returns the
    ceilings of the two quotients.  With a tile size of +0 or -0 and a
    number of items that is not zero, the count is Infinity or
    -Infinity, after the two signs; with a number of items and a tile
    size that are both zero it is NaN; and with a negative tile size,
    finite or -Infinity, and a positive number of items it is -0, a
    negative integer or -Infinity. *)
Theorem tileCount_never_throws
    (nRows nRowsPerTile nColumnsPerTile : number) (columns : list column)
    (q : Q) (size : number) :
  (forall reason,
      tileCount nRows columns nRowsPerTile nColumnsPerTile <> Throw reason)
  /\ tileCount nRows columns nRowsPerTile nColumnsPerTile
     = Normal (Math_ceil (div nRows nRowsPerTile),
               Math_ceil (div (JS.length columns) nColumnsPerTile))
  /\ ((0 < q)%Q ->
      nTileRows (Finite q) (Finite 0) = PosInfinity
      /\ nTileRows (Finite q) NegZero = NegInfinity)
  /\ ((q < 0)%Q ->
      nTileRows (Finite q) (Finite 0) = NegInfinity
      /\ nTileRows (Finite q) NegZero = PosInfinity)
  /\ (nTileRows (Finite 0) (Finite 0) = NaN
      /\ nTileRows (Finite 0) NegZero = NaN
      /\ nTileRows NegZero (Finite 0) = NaN
      /\ nTileRows NegZero NegZero = NaN)
  /\ ((0 < q)%Q ->
      size = NegInfinity \/ (exists s, size = Finite s /\ (s < 0)%Q) ->
      nTileRows (Finite q) size = NegZero
      \/ nTileRows (Finite q) size = NegInfinity
      \/ exists t : Z, (t < 0)%Z /\ nTileRows (Finite q) size = of_Z t).
Proof.
  split; [intros reason H; discriminate H|].
  split; [reflexivity|].
  split; [|split; [|split; [repeat split|]]].
  - intros Hq. unfold nTileRows.
    rewrite !div_by_zero by (auto; lra).
    assert (Hn : negative (Finite q) = false).
    { destruct (negative (Finite q)) eqn:E; [|done].
      apply negative_Finite in E. lra. }
    rewrite Hn. split; reflexivity.
  - intros Hq. unfold nTileRows.
    rewrite !div_by_zero by (auto; lra).
    apply negative_Finite in Hq. rewrite Hq. split; reflexivity.
  - apply nTileRows_negative_size.
Qed.

Lemma tileCount_never_throws_witness :
  nTileRows (of_Z 5) (Finite 0) = PosInfinity
  /\ nTileRows (of_Z 5) NegZero = NegInfinity
  /\ (nTileRows (of_Z 5) (of_Z (- 2)) = NegZero
      \/ nTileRows (of_Z 5) (of_Z (- 2)) = NegInfinity
      \/ exists t : Z, (t < 0)%Z /\ nTileRows (of_Z 5) (of_Z (- 2)) = of_Z t).
Proof.
  destruct (tileCount_never_throws (of_Z 5) (of_Z 0) (of_Z 1) [oneColumn]
              5 (of_Z (- 2))) as (_ & _ & Hzero & _ & _ & Hneg).
  destruct Hzero as [H1 H2]; [reflexivity|].
  split; [exact H1|]. split; [exact H2|].
  apply Hneg; [reflexivity|].
  right. exists (-2)%Q. split; reflexivity.
Defined.

(** A fractional tile size is accepted as well, and so is a negative
    one: 5 rows in tiles of -2 rows make -2 tile rows. *)
Example tileCount_fractional_rowsPerTile :
  nTileRows (of_Z 5) (Finite (5 # 2)) = of_Z 2
  /\ nTileRows (of_Z 5) (of_Z (- 2)) = of_Z (- 2)
  /\ nTileRows (of_Z 1) (of_Z (- 2)) = NegZero.
Proof. vm_compute. repeat split. Qed.

Lemma embeds_intro (before needle after : string) :
  embeds needle (before +:+ needle +:+ after).
Proof. exists before, after. reflexivity. Qed.

Lemma embeds_append_l (needle prefix s : string) :
  embeds needle s -> embeds needle (prefix +:+ s).
Proof.
  intros [b [a ->]]. exists (prefix +:+ b), a.
  symmetry. apply StringFacts.append_assoc.
Qed.

(** C3. The tile fetcher makes exactly one call, to the path
    [/workflows/<id>/tiles/<slug>/delta-<deltaId>/<row>,<column>.json],
    where [<id>] is the decimal workflow id or the secret id.  The path
    is a function of the table's address and the tile's coordinate
    alone: it is the same whatever the fetch options and whatever was
    requested before; and it embeds the workflow identifier, the step
    slug, the revision tag and the tile's row and column. *)
Theorem fetchTile_path_from_address_and_coordinate
    (Options : Type) (workflowIdOrSecretId : workflowId) (stepSlug : string)
    (deltaId tileRow tileColumn : Z)
    (options1 options2 : Options) (network1 network2 : list (request Options)) :
  let identifier :=
    match workflowIdOrSecretId with
    | WorkflowId id => pretty id
    | SecretId secret => secret
    end in
  let path :=
    "/workflows/" +:+ identifier +:+ "/tiles/" +:+ stepSlug
      +:+ "/delta-" +:+ pretty deltaId
      +:+ "/" +:+ pretty tileRow +:+ "," +:+ pretty tileColumn +:+ ".json" in
  fetchTile workflowIdOrSecretId stepSlug deltaId tileRow tileColumn
            options1 network1
    = network1 ++ [Request path options1]
  /\ last_url (fetchTile workflowIdOrSecretId stepSlug deltaId
                         tileRow tileColumn options1 network1)
     = Some path
  /\ last_url (fetchTile workflowIdOrSecretId stepSlug deltaId
                         tileRow tileColumn options2 network2)
     = Some path
  /\ embeds identifier path
  /\ embeds ("/tiles/" +:+ stepSlug +:+ "/") path
  /\ embeds ("/delta-" +:+ pretty deltaId +:+ "/") path
  /\ embeds ("/" +:+ pretty tileRow +:+ "," +:+ pretty tileColumn +:+ ".json")
            path.
Proof.
  intros identifier path.
  assert (Hpath : tileUrl workflowIdOrSecretId stepSlug deltaId
                          tileRow tileColumn = path).
  { unfold tileUrl, workflowId_to_string. by destruct workflowIdOrSecretId. }
  assert (Hlast : forall (o : Options) net,
             last_url (fetchTile workflowIdOrSecretId stepSlug deltaId
                                 tileRow tileColumn o net) = Some path).
  { intros o net. unfold last_url, fetchTile, global_fetch.
    rewrite last_snoc, Hpath. reflexivity. }
  split; [unfold fetchTile, global_fetch; by rewrite Hpath|].
  split; [apply Hlast|]. split; [apply Hlast|].
  subst path.
  split; [apply embeds_intro|].
  split.
  { exists ("/workflows/" +:+ identifier),
           ("delta-" +:+ pretty deltaId +:+ "/" +:+ pretty tileRow
              +:+ "," +:+ pretty tileColumn +:+ ".json").
    rewrite !StringFacts.append_assoc. reflexivity. }
  split.
  { exists ("/workflows/" +:+ identifier +:+ "/tiles/" +:+ stepSlug),
           (pretty tileRow +:+ "," +:+ pretty tileColumn +:+ ".json").
    rewrite !StringFacts.append_assoc. reflexivity. }
  exists ("/workflows/" +:+ identifier +:+ "/tiles/" +:+ stepSlug
            +:+ "/delta-" +:+ pretty deltaId), "".
  rewrite !StringFacts.append_assoc, StringFacts.append_nil_r. reflexivity.
Qed.

(** The path of tile (2, 0) of step "step-1" at delta 7 of workflow 12,
    and of a workflow shared under a secret id. *)
Example fetchTile_path_example :
  last_url (fetchTile (WorkflowId 12) "step-1" 7 2 0 tt [])
  = Some "/workflows/12/tiles/step-1/delta-7/2,0.json"
  /\ last_url (fetchTile (SecretId "wsecret") "step-1" 7 2 0 tt [])
     = Some "/workflows/wsecret/tiles/step-1/delta-7/2,0.json".
Proof. vm_compute. split; reflexivity. Qed.

End TableFacts.

(** ** The tile store and the scheduler *)

Module TilesFacts.
Import Tiles.

Lemma get_set_eq c t s : get c (set c t s) = t.
Proof. unfold get, set; simpl. by rewrite lookup_insert_eq. Qed.

Lemma get_set_ne c c' t s : c <> c' -> get c' (set c t s) = get c' s.
Proof. intros Hne. unfold get, set; simpl. by rewrite lookup_insert_ne. Qed.

Lemma get_reset c s : get c (reset s) = Unfetched.
Proof. unfold get, reset; simpl. by rewrite lookup_empty. Qed.

Lemma schedule_idle c s : needs_fetch (get c s) = false -> schedule c s = s.
Proof. intros H. unfold schedule. by rewrite H. Qed.


Lemma get_schedule_ne c c' s : c <> c' -> get c' (schedule c s) = get c' s.
Proof.
  intros Hne. unfold schedule. destruct (needs_fetch (get c s)); [|done].
  unfold get; simpl. by rewrite lookup_insert_ne.
Qed.




Lemma address_schedule c s : address (schedule c s) = address s.
Proof. unfold schedule. by destruct (needs_fetch (get c s)). Qed.

Lemma address_scheduleAll l s : address (scheduleAll l s) = address s.
Proof.
  revert s. induction l as [|a l IH]; intros s; [done|].
  unfold scheduleAll in *; simpl. by rewrite IH, address_schedule.
Qed.



Lemma setWantedTileRange_unfold r s :
  setWantedTileRange r s
  = scheduleAll (coordinates r)
      (State (address s) (Some r) (populated s) (nextToken s) (calls s)).
Proof. reflexivity. Qed.

(** *** Tokens *)

Lemma well_formed_init a : well_formed (init a).
Proof.
  split; simpl.
  - intros k Hk. by apply elem_of_nil in Hk.
  - constructor.
Qed.

Lemma well_formed_schedule c s : well_formed s -> well_formed (schedule c s).
Proof.
  intros [Hlt Hnd]. unfold schedule.
  destruct (needs_fetch (get c s)); [|by split].
  split; simpl.
  - intros k Hk. apply elem_of_app in Hk as [Hk|Hk].
    + specialize (Hlt k Hk). lia.
    + apply list_elem_of_singleton in Hk as ->. simpl. lia.
  - rewrite fmap_app. simpl. apply NoDup_app. split; [done|]. split.
    + intros t Ht Ht'. apply list_elem_of_singleton in Ht' as ->.
      apply list_elem_of_fmap in Ht as [k [Hk Hin]].
      specialize (Hlt k Hin). lia.
    + apply NoDup_singleton.
Qed.

Lemma well_formed_scheduleAll l s :
  well_formed s -> well_formed (scheduleAll l s).
Proof.
  revert s. induction l as [|a l IH]; intros s H; [done|].
  change (scheduleAll (a :: l) s) with (scheduleAll l (schedule a s)).
  by apply IH, well_formed_schedule.
Qed.

Lemma well_formed_same_calls s s' :
  calls s' = calls s -> nextToken s' = nextToken s ->
  well_formed s -> well_formed s'.
Proof. intros Hc Hn [Hlt Hnd]. split; rewrite ?Hc, ?Hn; done. Qed.

Lemma calls_complete c tok r s :
  calls (complete c tok r s) = calls s
  /\ nextToken (complete c tok r s) = nextToken s
  /\ address (complete c tok r s) = address s.
Proof.
  unfold complete. destruct (get c s); try done.
  by destruct (decide _).
Qed.

Lemma well_formed_step s s' : step s s' -> well_formed s -> well_formed s'.
Proof.
  intros Hstep Hwf. destruct Hstep as [s r|s|s rev c tok r Hin|s rev Hrev].
  - rewrite setWantedTileRange_unfold. apply well_formed_scheduleAll.
    by apply (well_formed_same_calls s).
  - unfold reconcile. destruct (wanted s); [|done].
    by apply well_formed_scheduleAll.
  - destruct (calls_complete c tok r s) as (Hc & Hn & _).
    by apply (well_formed_same_calls s).
  - by apply (well_formed_same_calls s).
Qed.

Lemma well_formed_reachable_from s s' :
  reachable_from s s' -> well_formed s -> well_formed s'.
Proof.
  intros H. induction H as [|s s1 s' Hstep _ IH]; [done|].
  intros Hwf. by apply IH, (well_formed_step s).
Qed.

Lemma well_formed_reachable s : reachable s -> well_formed s.
Proof.
  intros [a H]. apply (well_formed_reachable_from _ _ H), well_formed_init.
Qed.







(** The scenario of the specification: requesting tiles (0,0)-(1,1) of a
    fresh table issues exactly 4 fetches, and requesting them again
    issues none. *)
Example four_tiles_four_fetches :
  length (calls (setWantedTileRange range0 (init address0))) = 4
  /\ length (calls (setWantedTileRange range0
                      (setWantedTileRange range0 (init address0)))) = 4.
Proof. split; vm_compute; reflexivity. Qed.

(** *** Stale results *)

Lemma complete_stale c tok r s :
  get c s <> Pending tok -> complete c tok r s = s.
Proof.
  intros H. unfold complete. destruct (get c s) as [|t| |]; try done.
  destruct (decide (t = tok)) as [->|]; done.
Qed.

Lemma complete_matching c tok r s :
  get c s = Pending tok -> complete c tok r s = set c (resolved r) s.
Proof.
  intros H. unfold complete. rewrite H. by destruct (decide (tok = tok)).
Qed.

Lemma get_complete_pending c c' tok t r s :
  get c' (complete c tok r s) = Pending t -> get c' s = Pending t.
Proof.
  unfold complete. destruct (get c s) as [|t0| |] eqn:E; try done.
  destruct (decide (t0 = tok)) as [->|]; [|done].
  destruct (decide (c = c')) as [->|Hne].
  - rewrite get_set_eq. by destruct r.
  - by rewrite get_set_ne.
Qed.

Lemma waits_from_schedule n c s : waits_from n s -> waits_from n (schedule c s).
Proof.
  intros [Hn Hw]. unfold schedule.
  destruct (needs_fetch (get c s)) eqn:E; [|by split].
  split; simpl; [lia|].
  intros c' t. unfold get; simpl.
  destruct (decide (c = c')) as [->|Hne].
  - rewrite lookup_insert_eq. simpl. intros [= <-]. done.
  - rewrite lookup_insert_ne by done. apply Hw.
Qed.

Lemma waits_from_scheduleAll n l s :
  waits_from n s -> waits_from n (scheduleAll l s).
Proof.
  revert s. induction l as [|a l IH]; intros s H; [done|].
  change (scheduleAll (a :: l) s) with (scheduleAll l (schedule a s)).
  by apply IH, waits_from_schedule.
Qed.

Lemma waits_from_step n s s' : step s s' -> waits_from n s -> waits_from n s'.
Proof.
  intros Hstep [Hn Hw]. destruct Hstep as [s r|s|s rev c tok r Hin|s rev Hrev].
  - rewrite setWantedTileRange_unfold. apply waits_from_scheduleAll. by split.
  - unfold reconcile. destruct (wanted s); [|by split].
    apply waits_from_scheduleAll. by split.
  - destruct (calls_complete c tok r s) as (_ & Hnext & _).
    split; [by rewrite Hnext|].
    intros c' t Hp. apply (Hw c'). by apply get_complete_pending in Hp.
  - split; [done|]. intros c t. unfold changeRevision. by rewrite get_reset.
Qed.

Lemma waits_from_reachable_from n s s' :
  reachable_from s s' -> waits_from n s -> waits_from n s'.
Proof.
  intros H. induction H as [|s s1 s' Hstep _ IH]; [done|].
  intros Hw. by apply IH, (waits_from_step n s).
Qed.

Lemma waits_from_reset s : waits_from (nextToken s) (reset s).
Proof. split; [done|]. intros c t. by rewrite get_reset. Qed.

(** C5. Stale-result suppression.  A fetch that was issued and resolves
    after the store was reset (by itself or through a change of
    revision), whatever happened in between, does not mutate the store;
    neither does a fetch whose tile no longer waits for its token; and a
    completion that does change the state found the tile Pending with
    the matching token and leaves it Loaded or Failed. *)
Theorem stale_result_is_discarded
    (s s0 s' : state) (rev newRev : Z) (c : coordinate) (tok : token)
    (r : fetchResult) :
  reachable s ->
  Call rev c tok ∈ calls s ->
  s0 = reset s \/ s0 = changeRevision newRev s ->
  reachable_from s0 s' ->
  complete c tok r s' = s'
  /\ (forall s1 c1 tok1,
         get c1 s1 <> Pending tok1 -> complete c1 tok1 r s1 = s1)
  /\ (forall s1 c1 tok1,
         complete c1 tok1 r s1 <> s1 ->
         get c1 s1 = Pending tok1
         /\ get c1 (complete c1 tok1 r s1) = resolved r
         /\ ((exists data, resolved r = Loaded data)
             \/ (exists reason, resolved r = Failed reason))).
Proof.
  intros Hreach Hin Hs0 Hsteps.
  split; [|split].
  - apply complete_stale. intros Hpending.
    pose proof (well_formed_reachable s Hreach) as [Hlt _].
    specialize (Hlt _ Hin). simpl in Hlt.
    assert (Hw : waits_from (nextToken s) s0).
    { destruct Hs0 as [-> | ->]; apply waits_from_reset. }
    apply (waits_from_reachable_from _ _ _ Hsteps) in Hw as [_ Hw].
    specialize (Hw c tok Hpending). lia.
  - intros s1 c1 tok1. apply complete_stale.
  - intros s1 c1 tok1 Hchanged.
    destruct (decide (get c1 s1 = Pending tok1)) as [Hp|Hp].
    + split; [done|]. rewrite complete_matching, get_set_eq by done.
      split; [done|]. destruct r; simpl; eauto.
    + exfalso. apply Hchanged. by apply complete_stale.
Qed.


Lemma stale_result_is_discarded_witness :
  let s := setWantedTileRange range0 (init address0) in
  let s' := setWantedTileRange range0 (changeRevision 2 s) in
  get (0, 0) s' = Pending 4
  /\ complete (0, 0) 0 (inl data0) s' = s'.
Proof.
  intros s s'. split; [reflexivity|].
  destruct (stale_result_is_discarded s (changeRevision 2 s) s' 1 2 (0, 0) 0
              (inl data0)) as [H _]; [| | |apply rtc_once, step_viewport|exact H].
  - exists address0. apply rtc_once, step_viewport.
  - vm_compute. left.
  - right. reflexivity.
Defined.

(** *** Requests of a range that is already there *)

Lemma scheduleAll_all_idle l s :
  (forall c, c ∈ l -> needs_fetch (get c s) = false) -> scheduleAll l s = s.
Proof.
  induction l as [|a l IH]; intros H; [done|].
  change (scheduleAll (a :: l) s) with (scheduleAll l (schedule a s)).
  rewrite schedule_idle by (apply H; left).
  apply IH. intros c Hc. apply H. by right.
Qed.

(** C6. Requesting a range whose tiles are all Loaded issues no fetch
    and leaves the store as it is: the calls, the populated tiles and
    the token counter are unchanged, and requesting the range once more
    changes nothing at all. *)
Theorem loaded_range_requests_nothing (s : state) (r : viewportRange) :
  (forall c, c ∈ coordinates r -> exists data, get c s = Loaded data) ->
  let s' := setWantedTileRange r s in
  calls s' = calls s
  /\ snapshot s' = snapshot s
  /\ nextToken s' = nextToken s
  /\ address s' = address s
  /\ wanted s' = Some r
  /\ setWantedTileRange r s' = s'.
Proof.
  intros Hloaded s'.
  set (s0 := State (address s) (Some r) (populated s) (nextToken s) (calls s)).
  assert (Hidle : forall c, c ∈ coordinates r -> needs_fetch (get c s0) = false).
  { intros c Hc. destruct (Hloaded c Hc) as [data Hd].
    change (needs_fetch (get c s) = false). by rewrite Hd. }
  assert (Hs' : s' = s0).
  { subst s'. rewrite setWantedTileRange_unfold.
    by apply scheduleAll_all_idle. }
  rewrite Hs'. repeat (split; [reflexivity|]).
  rewrite setWantedTileRange_unfold. by apply scheduleAll_all_idle.
Qed.

Lemma loaded_range_requests_nothing_witness :
  let s' := setWantedTileRange (ViewportRange 3 3 3 3) loaded33 in
  calls s' = calls loaded33
  /\ snapshot s' = snapshot loaded33
  /\ nextToken s' = nextToken loaded33
  /\ address s' = address loaded33
  /\ wanted s' = Some (ViewportRange 3 3 3 3)
  /\ setWantedTileRange (ViewportRange 3 3 3 3) s' = s'.
Proof.
  apply (loaded_range_requests_nothing loaded33 (ViewportRange 3 3 3 3)).
  intros c Hc. exists data0.
  apply list_elem_of_singleton in Hc as ->. reflexivity.
Defined.

(** *** Loaded tiles and revisions *)

Lemma get_schedule_loaded c c' data s :
  get c' s = Loaded data -> get c' (schedule c s) = Loaded data.
Proof.
  intros H. destruct (decide (c = c')) as [->|Hne].
  - rewrite schedule_idle; [done|]. by rewrite H.
  - by rewrite get_schedule_ne.
Qed.

Lemma get_scheduleAll_loaded l c data s :
  get c s = Loaded data -> get c (scheduleAll l s) = Loaded data.
Proof.
  revert s. induction l as [|a l IH]; intros s H; [done|].
  change (scheduleAll (a :: l) s) with (scheduleAll l (schedule a s)).
  by apply IH, get_schedule_loaded.
Qed.

Lemma get_complete_loaded c c' tok r data s :
  get c' s = Loaded data -> get c' (complete c tok r s) = Loaded data.
Proof.
  intros H. destruct (decide (c = c')) as [->|Hne].
  - rewrite complete_stale; [done|]. by rewrite H.
  - unfold complete. destruct (get c s) as [|t| |]; try done.
    destruct (decide (t = tok)); [|done]. by rewrite get_set_ne.
Qed.

(** One step keeps the revision and every Loaded tile, or moves to
    another revision and empties the store. *)
Lemma step_keeps_or_invalidates s s' :
  step s s' ->
  (revisionId (address s') = revisionId (address s)
   /\ forall c data, get c s = Loaded data -> get c s' = Loaded data)
  \/ (revisionId (address s') <> revisionId (address s)
      /\ forall c, get c s' = Unfetched).
Proof.
  intros Hstep. destruct Hstep as [s r|s|s rev c tok r Hin|s rev Hrev].
  - left. rewrite setWantedTileRange_unfold. split.
    + by rewrite address_scheduleAll.
    + intros c data H. by apply get_scheduleAll_loaded.
  - left. unfold reconcile. destruct (wanted s); [|done]. split.
    + by rewrite address_scheduleAll.
    + intros c data H. by apply get_scheduleAll_loaded.
  - left. destruct (calls_complete c tok r s) as (_ & _ & Ha). split.
    + by rewrite Ha.
    + intros c' data H. by apply get_complete_loaded.
  - right. split; [done|]. intros c. unfold changeRevision. apply get_reset.
Qed.

(** C7, as stated, fails: in a reachable state whose tile (0, 0) is
    Loaded, the table's address moves from revision 1 to revision 0,
    which is not a newer one, and the tile is Unfetched. *)
Lemma older_revision_overwrites_loaded_tile :
  let s := complete (0, 0) 0 (inl data0)
             (setWantedTileRange range0 (init address0)) in
  let s' := changeRevision 0 s in
  reachable s
  /\ get (0, 0) s = Loaded data0
  /\ step s s'
  /\ get (0, 0) s' = Unfetched
  /\ ~ (revisionId (address s) < revisionId (address s'))%Z.
Proof.
  intros s s'. split; [|split; [|split; [|split]]].
  - exists address0. eapply rtc_l; [apply step_viewport|].
    apply rtc_once, (step_complete _ 1). vm_compute. left.
  - reflexivity.
  - apply step_revision. vm_compute. discriminate.
  - reflexivity.
  - vm_compute. discriminate.
Qed.

(** C7, amended. A Loaded tile stays as it is, whatever the scheduler
    and the fetches do, as long as the table's revision does not change:
    every step that keeps the revision keeps every Loaded tile, and a
    Loaded tile that is gone or replaced later on has seen a step that
    changed the revision.  Every step that changes the revision, to a
    newer or to an older one, leaves every tile Unfetched. *)
Theorem loaded_tile_kept_until_revision_changes
    (s s' : state) (c : coordinate) (data : tileData) :
  reachable_from s s' ->
  get c s = Loaded data ->
  (get c s' = Loaded data
   \/ exists s1 s2,
        reachable_from s s1 /\ step s1 s2 /\ reachable_from s2 s'
        /\ get c s1 = Loaded data
        /\ revisionId (address s2) <> revisionId (address s1))
  /\ (forall s1 s2,
         step s1 s2 ->
         revisionId (address s2) = revisionId (address s1) ->
         forall c' data',
           get c' s1 = Loaded data' -> get c' s2 = Loaded data')
  /\ (forall s1 s2,
         step s1 s2 ->
         revisionId (address s2) <> revisionId (address s1) ->
         forall c', get c' s2 = Unfetched).
Proof.
  intros Hsteps Hloaded. split; [|split].
  - induction Hsteps as [|s s1 s' Hstep Hrest IH]; [by left|].
    destruct (step_keeps_or_invalidates s s1 Hstep) as [[He Hkeep]|[Hne _]].
    + destruct (IH (Hkeep _ _ Hloaded))
        as [H|(s2 & s3 & Hto & Hst & Hfrom & Hl & Hne)]; [by left|].
      right. exists s2, s3. split; [by eapply rtc_l|]. done.
    + right. exists s, s1. split; [apply rtc_refl|]. done.
  - intros s1 s2 Hstep He.
    destruct (step_keeps_or_invalidates s1 s2 Hstep) as [[_ H]|[Hne _]];
      [exact H|contradiction].
  - intros s1 s2 Hstep Hne.
    destruct (step_keeps_or_invalidates s1 s2 Hstep) as [[He _]|[_ H]];
      [contradiction|exact H].
Qed.

Lemma loaded_tile_kept_until_revision_changes_witness :
  let s' := complete (3, 3) 6 (inr NetworkError)
              (setWantedTileRange range0 loaded33) in
  get (3, 3) s' = Loaded data0.
Proof.
  intros s'.
  destruct (loaded_tile_kept_until_revision_changes loaded33 s' (3, 3) data0)
    as [[H|(s1 & s2 & _ & _ & _ & _ & _)] _]; [| |exact H|reflexivity].
  - eapply rtc_l; [apply step_viewport|].
    apply rtc_once, (step_complete _ 1). vm_compute. left.
  - reflexivity.
Defined.

(** Another revision empties the store; the tile is fetched anew. *)
Example other_revision_invalidates :
  get (3, 3) (changeRevision 2 loaded33) = Unfetched
  /\ get (3, 3) (setWantedTileRange (ViewportRange 3 3 3 3)
                   (changeRevision 2 loaded33)) = Pending 7.
Proof. split; reflexivity. Qed.

End TilesFacts.

(** ** QuotaExceeded.js *)

Module QuotaExceededFacts.
Import QuotaExceeded.

(** *** Objects *)

Lemma obj_create_Permutation {V} (k : Z) (v : V) (o : object V) :
  obj_create k v o ≡ₚ (k, v) :: o.
Proof.
  induction o as [|[k' v'] o IH]; simpl; [done|].
  destruct (is_array_index k && (negb (is_array_index k') || (k <? k')%Z));
    [done|].
  rewrite IH. apply Permutation_swap.
Qed.

Lemma keys_obj_mutate {V} (f : V -> V) (k : Z) (o : object V) :
  (obj_mutate f k o).*1 = o.*1.
Proof.
  unfold obj_mutate. induction o as [|[k' v'] o IH]; simpl; [done|].
  f_equal; [|exact IH]. by destruct (decide (k' = k)).
Qed.

Lemma elem_of_obj_mutate {V} (f : V -> V) (k k' : Z) (v' : V) (o : object V) :
  (k', v') ∈ obj_mutate f k o ->
  exists v, (k', v) ∈ o /\ v' = if decide (k' = k) then f v else v.
Proof.
  unfold obj_mutate. intros H.
  apply list_elem_of_fmap in H as [[k1 v1] [Heq Hin]]. simpl in Heq.
  destruct (decide (k1 = k)) as [->|Hne]; injection Heq as -> ->.
  - exists v1. split; [done|]. by destruct (decide (k = k)).
  - exists v1. split; [done|]. by destruct (decide (k1 = k)).
Qed.

Lemma obj_in_spec {V} (k : Z) (o : object V) :
  obj_in k o = true <-> k ∈ o.*1.
Proof. unfold obj_in. apply bool_decide_eq_true. Qed.

(** *** The loop *)

Lemma autofetchesOf_snoc k seen a :
  autofetchesOf k (seen ++ [a])
  = autofetchesOf k seen
    ++ (if decide (id (af_workflow a) = k) then [a] else []).
Proof.
  unfold autofetchesOf. rewrite filter_app. reflexivity.
Qed.

Lemma accumulated_snoc l a :
  accumulated (l ++ [a]) = (accumulated l + fetchesPerDay a)%Q.
Proof. unfold accumulated. by rewrite foldl_app. Qed.

Lemma autofetchesOf_nil_iff k seen :
  autofetchesOf k seen = [] <-> k ∉ (id ∘ af_workflow) <$> seen.
Proof.
  unfold autofetchesOf. split.
  - intros Hnil Hin. apply list_elem_of_fmap in Hin as [a [Hk Ha]].
    assert (Hmem : a ∈ filter (fun a => id (af_workflow a) = k) seen).
    { apply list_elem_of_filter. by split. }
    rewrite Hnil in Hmem. by apply elem_of_nil in Hmem.
  - intros Hnotin.
    destruct (filter _ seen) as [|a rest] eqn:E; [done|].
    exfalso. apply Hnotin.
    assert (Hmem : a ∈ filter (fun a => id (af_workflow a) = k) seen).
    { rewrite E. left. }
    apply list_elem_of_filter in Hmem as [Hk Ha].
    apply list_elem_of_fmap. by exists a.
Qed.

Lemma grouped_nil : grouped [] [].
Proof.
  split; simpl.
  - constructor.
  - intros k. split; intros H; by apply elem_of_nil in H.
  - intros k g H. by apply elem_of_nil in H.
Qed.

(** The object once the group of [a] is sure to exist. *)
Lemma ensured_group seen groups a :
  grouped seen groups ->
  let k0 := id (af_workflow a) in
  let groups1 :=
    if negb (obj_in k0 groups)
    then obj_create k0 (Group (af_workflow a) 0 []) groups
    else groups in
  NoDup groups1.*1
  /\ (forall k, k ∈ groups1.*1 <-> k = k0 \/ k ∈ groups.*1)
  /\ (forall k g, (k, g) ∈ groups1 ->
        (k, g) ∈ groups
        \/ (k = k0 /\ g = Group (af_workflow a) 0 [] /\ k0 ∉ groups.*1)).
Proof.
  intros [Hnd Hids Hentry] k0 groups1. subst groups1.
  destruct (obj_in k0 groups) eqn:E; simpl.
  - apply obj_in_spec in E. split; [done|]. split.
    + intros k. split; [by right|]. by intros [->|H].
    + intros k g H. by left.
  - assert (Hnotin : k0 ∉ groups.*1).
    { intros H. apply obj_in_spec in H. congruence. }
    pose proof (obj_create_Permutation k0 (Group (af_workflow a) 0 []) groups)
      as Hperm.
    split; [|split].
    + rewrite Hperm. simpl. by apply NoDup_cons.
    + intros k. rewrite Hperm. simpl. by rewrite elem_of_cons.
    + intros k g. rewrite Hperm, elem_of_cons.
      intros [[= -> ->]|H]; [by right|by left].
Qed.

Lemma grouped_snoc seen groups a :
  grouped seen groups -> grouped (seen ++ [a]) (addAutofetch groups a).
Proof.
  intros Hg.
  destruct (ensured_group seen groups a Hg) as (Hnd1 & Hids1 & Hentry1).
  destruct Hg as [Hnd Hids Hentry].
  unfold addAutofetch. cbv zeta.
  set (k0 := id (af_workflow a)) in *.
  set (groups1 := if negb (obj_in k0 groups)
                  then obj_create k0 (Group (af_workflow a) 0 []) groups
                  else groups) in *.
  split.
  - by rewrite keys_obj_mutate.
  - intros k. rewrite keys_obj_mutate, Hids1, Hids, fmap_app, elem_of_app.
    simpl. rewrite list_elem_of_singleton. fold k0. tauto.
  - intros k g' Hin.
    apply elem_of_obj_mutate in Hin as [g [Hin ->]].
    rewrite autofetchesOf_snoc. fold k0.
    destruct (Hentry1 k g Hin) as [Hold|(-> & -> & Hfresh)].
    + destruct (Hentry k g Hold) as (Hid & Hafs & Hn).
      destruct (decide (k = k0)) as [->|Hne].
      * rewrite decide_True by done. simpl.
        rewrite accumulated_snoc, Hafs, Hn. done.
      * rewrite decide_False by done. by rewrite app_nil_r.
    + rewrite !decide_True by done. simpl.
      assert (Hnone : autofetchesOf k0 seen = []).
      { apply autofetchesOf_nil_iff. by rewrite <- Hids. }
      rewrite Hnone. done.
Qed.

Lemma grouped_loop input : grouped input (foldl addAutofetch [] input).
Proof.
  induction input as [|a input IH] using rev_ind.
  - apply grouped_nil.
  - rewrite foldl_app. simpl. by apply grouped_snoc.
Qed.

(** *** The sort *)

Lemma sort_insert_Permutation {A} (comparefn : A -> A -> Q) (x : A) (l : list A) :
  sort_insert comparefn x l ≡ₚ x :: l.
Proof.
  induction l as [|y l IH]; simpl; [done|].
  destruct (Qle_bool (comparefn x y) 0); [done|].
  rewrite IH. apply Permutation_swap.
Qed.

Lemma Array_sort_Permutation {A} (comparefn : A -> A -> Q) (l : list A) :
  Array_sort comparefn l ≡ₚ l.
Proof.
  unfold Array_sort. induction l as [|x l IH]; simpl; [done|].
  by rewrite sort_insert_Permutation, IH.
Qed.



(** With exact totals: workflow 1 with 288 fetches a day, then
    workflow 2 with 24 + 12 = 36. *)
Example groupAutofetches_example :
  let groups := groupAutofetches compareLength someAutofetches in
  (id ∘ g_workflow) <$> groups = [1%Z; 2%Z]
  /\ (fun g => Qred (nFetchesPerDay g)) <$> groups = [288%Q; 36%Q]
  /\ (fun g => wfModule_id ∘ af_wfModule <$> autofetches g) <$> groups
     = [[11%Z]; [10%Z; 12%Z]].
Proof. vm_compute. repeat split. Qed.

(** Property names that are array indices come first, in increasing
    order, whatever the order of creation. *)
Example object_key_order :
  (obj_create 3 "c" (obj_create (-1) "x" (obj_create 7 "b" [])))%Z.*1
  = [3%Z; 7%Z; (-1)%Z].
Proof. reflexivity. Qed.

End QuotaExceededFacts.

(** ** QuotaExceeded.js: groupAutofetches in doubles *)

Module GroupAutofetchesFacts.
Import JS GroupAutofetches NumberFacts CeilingFacts RoundingFacts.
Import QuotaExceededFacts.

(** *** Comparing numbers *)

Lemma Qltb_lt (a b : Q) : Qltb a b = true <-> (a < b)%Q.
Proof.
  unfold Qltb. rewrite Qlt_alt. destruct (a ?= b)%Q; split; congruence.
Qed.

Ltac numbers :=
  repeat match goal with
         | H : Qltb _ _ = true |- _ => apply Qltb_lt in H
         | H : Qeq_bool _ _ = true |- _ => apply Qeq_bool_iff in H
         | |- Qltb _ _ = true => apply Qltb_lt
         | |- Qeq_bool _ _ = true => apply Qeq_bool_iff
         end.

Lemma lt_transitive (x y z : number) :
  lt x y = true -> lt y z = true -> lt x z = true.
Proof.
  destruct x, y, z; simpl; try done; intros; numbers; lra.
Qed.

Lemma lt_strict_equal_l (x y z : number) :
  strict_equal x y = true -> lt z x = true -> lt z y = true.
Proof.
  destruct x, y, z; simpl; try done; intros; numbers; lra.
Qed.

Lemma lt_strict_equal_r (x y z : number) :
  strict_equal x y = true -> lt y z = true -> lt x z = true.
Proof.
  destruct x, y, z; simpl; try done; intros; numbers; lra.
Qed.

Lemma strict_equal_transitive (x y z : number) :
  strict_equal x y = true -> strict_equal y z = true ->
  strict_equal x z = true.
Proof.
  destruct x, y, z; simpl; try done; intros; numbers; lra.
Qed.

Lemma lt_zero_of_Z (z : Z) : lt (of_Z 0) (of_Z z) = (0 <? z)%Z.
Proof.
  unfold lt, of_Z, value, Qltb, Qcompare. simpl. rewrite Z.mul_1_r.
  destruct z; reflexivity.
Qed.

Lemma positive_number_spec (x : number) :
  positive_number x -> truthy x = true /\ lt (of_Z 0) x = true.
Proof.
  intros [->|(q & -> & Hq)]; [done|].
  assert (Hc : (q ?= 0)%Q = Gt) by (by apply Qgt_alt).
  split.
  - unfold truthy, is_zero. by rewrite Hc.
  - simpl. numbers. exact Hq.
Qed.

Lemma negative_number_spec (x : number) :
  negative_number x -> truthy x = true /\ lt (of_Z 0) x = false.
Proof.
  intros [->|(q & -> & Hq)]; [done|].
  assert (Hc : (q ?= 0)%Q = Lt) by (by apply Qlt_alt).
  split.
  - unfold truthy, is_zero. by rewrite Hc.
  - simpl. destruct (Qltb 0 q) eqn:E; [|done].
    apply Qltb_lt in E. lra.
Qed.

(** *** The totals *)

Lemma nonnegative_zero : nonnegative_number (of_Z 0).
Proof.
  right. exists 0%Q. split; [reflexivity|]. split; [lra|apply on_grid_zero].
Qed.

Lemma add_nonnegative (x y : number) :
  nonnegative_number x -> nonnegative_number y ->
  nonnegative_number (add x y).
Proof.
  intros [->|(a & -> & Ha & _)] [->|(b & -> & Hb & _)];
    try (by left).
  unfold add. cbn [value]. apply round64_nonnegative. lra.
Qed.

Lemma fetchesPerDay_nonnegative (a : QuotaExceeded.autofetch) :
  nonnegative_number (fetchesPerDay a).
Proof.
  unfold fetchesPerDay. rewrite div_positive_integers by lia.
  destruct (round_magnitude_cases false 86400
              (Z.pos (QuotaExceeded.fetchInterval
                        (QuotaExceeded.af_wfModule a)))
              ltac:(lia) ltac:(lia))
    as [[-> _]|[->|(m & e & Hm & He & ->)]].
  - apply nonnegative_zero.
  - by left.
  - right. eexists. split; [done|]. split.
    + apply Qlt_le_weak, scaled_pos, Hm.
    + by apply scaled_on_grid.
Qed.

Lemma accumulated_nonnegative (l : list QuotaExceeded.autofetch) :
  nonnegative_number (accumulated l).
Proof.
  unfold accumulated.
  assert (H : forall x, nonnegative_number x ->
                nonnegative_number
                  (foldl (fun total a => add total (fetchesPerDay a)) x l)).
  { induction l as [|a l IH]; intros x Hx; simpl; [done|].
    apply IH, add_nonnegative; [done|apply fetchesPerDay_nonnegative]. }
  apply H, nonnegative_zero.
Qed.

(** The difference of two multiples of [2^-1074], rounded, has the sign
    of the exact difference. *)
Lemma round64_sign (z : Q) :
  on_grid z ->
  ((0 < z)%Q -> positive_number (round64 z))
  /\ ((z < 0)%Q -> negative_number (round64 z))
  /\ ((z == 0)%Q -> truthy (round64 z) = false).
Proof.
  intros Hg. split; [|split].
  - by apply round64_positive.
  - by apply round64_negative.
  - intros Hz. apply Qnum_zero in Hz. unfold round64. by rewrite Hz.
Qed.

(** [y - x] on totals says which of the two is larger. *)
Lemma sub_sign (x y : number) :
  nonnegative_number x -> nonnegative_number y ->
  (lt x y = true -> positive_number (sub y x))
  /\ (lt y x = true -> negative_number (sub y x))
  /\ (lt x y = false -> lt y x = false ->
      truthy (sub y x) = false
      /\ strict_equal x y = true /\ strict_equal y x = true).
Proof.
  intros [->|(a & -> & Ha & Ga)] [->|(b & -> & Hb & Gb)].
  - repeat split; done.
  - split; [done|]. split; [|done]. intros _. by left.
  - split; [|split; [done|done]]. intros _.
    unfold sub, neg. destruct (is_zero (Finite a)); by left.
  - assert (Hsub : exists z, sub (Finite b) (Finite a) = round64 z
                            /\ (z == b - a)%Q /\ on_grid z).
    { unfold sub, neg. destruct (is_zero (Finite a)) eqn:E.
      - exists (b + 0)%Q. split; [reflexivity|].
        assert (Ha0 : (a == 0)%Q).
        { unfold is_zero in E. apply Qeq_alt.
          by destruct (a ?= 0)%Q. }
        split; [lra|]. apply on_grid_plus; [done|apply on_grid_zero].
      - exists (b + - a)%Q. split; [reflexivity|]. split; [lra|].
        apply on_grid_plus; [done|by apply on_grid_opp]. }
    destruct Hsub as (z & -> & Hz & Gz).
    destruct (round64_sign z Gz) as (Hpos & Hneg & Hzero).
    simpl. split; [|split].
    + intros H. numbers. apply Hpos. lra.
    + intros H. numbers. apply Hneg. lra.
    + intros Hab Hba.
      assert (Heq : (a == b)%Q).
      { destruct (Qcompare_spec a b) as [H|H|H]; [done| |].
        - exfalso. apply Qltb_lt in H. congruence.
        - exfalso. apply Qltb_lt in H. congruence. }
      split; [apply Hzero; lra|]. split; numbers; lra.
Qed.

(** *** The loop *)

Lemma accumulated_add l a :
  accumulated (l ++ [a]) = add (accumulated l) (fetchesPerDay a).
Proof. unfold accumulated. by rewrite foldl_app. Qed.

Lemma grouped_start : grouped [] [].
Proof.
  split; simpl.
  - constructor.
  - intros k. split; intros H; by apply elem_of_nil in H.
  - intros k g H. by apply elem_of_nil in H.
Qed.

(** The object once the group of [a] is sure to exist. *)
Lemma group_ensured seen groups a :
  grouped seen groups ->
  let k0 := QuotaExceeded.id (QuotaExceeded.af_workflow a) in
  let groups1 :=
    if negb (QuotaExceeded.obj_in k0 groups)
    then QuotaExceeded.obj_create k0
           (Group (QuotaExceeded.af_workflow a) (of_Z 0) []) groups
    else groups in
  NoDup groups1.*1
  /\ (forall k, k ∈ groups1.*1 <-> k = k0 \/ k ∈ groups.*1)
  /\ (forall k g, (k, g) ∈ groups1 ->
        (k, g) ∈ groups
        \/ (k = k0 /\ g = Group (QuotaExceeded.af_workflow a) (of_Z 0) []
            /\ k0 ∉ groups.*1)).
Proof.
  intros [Hnd Hids Hentry] k0 groups1. subst groups1.
  destruct (QuotaExceeded.obj_in k0 groups) eqn:E; simpl.
  - apply obj_in_spec in E. split; [done|]. split.
    + intros k. split; [by right|]. by intros [->|H].
    + intros k g H. by left.
  - assert (Hnotin : k0 ∉ groups.*1).
    { intros H. apply obj_in_spec in H. congruence. }
    pose proof (obj_create_Permutation k0
                  (Group (QuotaExceeded.af_workflow a) (of_Z 0) []) groups)
      as Hperm.
    split; [|split].
    + rewrite Hperm. simpl. by apply NoDup_cons.
    + intros k. rewrite Hperm. simpl. by rewrite elem_of_cons.
    + intros k g. rewrite Hperm, elem_of_cons.
      intros [[= -> ->]|H]; [by right|by left].
Qed.

Lemma grouped_addAutofetch seen groups a :
  grouped seen groups -> grouped (seen ++ [a]) (addAutofetch groups a).
Proof.
  intros Hg.
  destruct (group_ensured seen groups a Hg) as (Hnd1 & Hids1 & Hentry1).
  destruct Hg as [Hnd Hids Hentry].
  unfold addAutofetch. cbv zeta.
  set (k0 := QuotaExceeded.id (QuotaExceeded.af_workflow a)) in *.
  set (groups1 := if negb (QuotaExceeded.obj_in k0 groups)
                  then QuotaExceeded.obj_create k0
                         (Group (QuotaExceeded.af_workflow a) (of_Z 0) [])
                         groups
                  else groups) in *.
  split.
  - by rewrite keys_obj_mutate.
  - intros k. rewrite keys_obj_mutate, Hids1, Hids, fmap_app, elem_of_app.
    simpl. rewrite list_elem_of_singleton. fold k0. tauto.
  - intros k g' Hin.
    apply elem_of_obj_mutate in Hin as [g [Hin ->]].
    rewrite autofetchesOf_snoc. fold k0.
    destruct (Hentry1 k g Hin) as [Hold|(-> & -> & Hfresh)].
    + destruct (Hentry k g Hold) as (Hid & Hafs & Hn).
      destruct (decide (k = k0)) as [->|Hne].
      * rewrite decide_True by done. simpl.
        rewrite accumulated_add, Hafs, Hn. done.
      * rewrite decide_False by done. by rewrite app_nil_r.
    + rewrite !decide_True by done. simpl.
      assert (Hnone : QuotaExceeded.autofetchesOf k0 seen = []).
      { apply autofetchesOf_nil_iff. by rewrite <- Hids. }
      rewrite Hnone. done.
Qed.

Lemma grouped_foldl input : grouped input (foldl addAutofetch [] input).
Proof.
  induction input as [|a input IH] using rev_ind.
  - apply grouped_start.
  - rewrite foldl_app. simpl. by apply grouped_addAutofetch.
Qed.

Lemma group_ids_are_keys (groups : QuotaExceeded.object group) :
  (forall k g, (k, g) ∈ groups -> QuotaExceeded.id (g_workflow g) = k) ->
  (QuotaExceeded.id ∘ g_workflow) <$> QuotaExceeded.Object_values groups
  = groups.*1.
Proof.
  unfold QuotaExceeded.Object_values.
  induction groups as [|[k g] groups IH]; intros H; simpl; [done|].
  f_equal.
  - apply H. left.
  - apply IH. intros k' g' Hin. apply H. by right.
Qed.

(** *** The sort *)

Lemma sort_insert_is_Permutation {A} (comparefn : A -> A -> number)
    (x : A) (l : list A) :
  sort_insert comparefn x l ≡ₚ x :: l.
Proof.
  induction l as [|y l IH]; cbn [sort_insert]; [done|].
  destruct (lt (of_Z 0) (comparefn x y)); [|done].
  rewrite IH. apply Permutation_swap.
Qed.

Lemma Array_sort_is_Permutation {A} (comparefn : A -> A -> number) (l : list A) :
  Array_sort comparefn l ≡ₚ l.
Proof.
  unfold Array_sort. induction l as [|x l IH]; cbn [foldr]; [done|].
  by rewrite sort_insert_is_Permutation, IH.
Qed.

Section Comparator.

Variable localeCompare : string -> string -> Z.

Hypothesis localeCompare_total :
  forall a b, (0 < localeCompare a b)%Z -> (localeCompare b a <= 0)%Z.

Hypothesis localeCompare_trans :
  forall a b c,
    (localeCompare a b <= 0)%Z -> (localeCompare b c <= 0)%Z ->
    (localeCompare a c <= 0)%Z.

(** A group whose total is +0, a positive double or Infinity. *)
Definition sound (g : group) : Prop := nonnegative_number (nFetchesPerDay g).

Lemma compareGroups_not_positive a b :
  sound a -> sound b ->
  lt (of_Z 0) (compareGroups localeCompare a b) = false ->
  precedes localeCompare a b.
Proof.
  intros Ha Hb. unfold compareGroups, precedes. cbv zeta.
  destruct (sub_sign (nFetchesPerDay a) (nFetchesPerDay b) Ha Hb)
    as (Hlt & Hgt & Heq).
  destruct (lt (nFetchesPerDay a) (nFetchesPerDay b)) eqn:Eab.
  { destruct (positive_number_spec _ (Hlt eq_refl)) as [-> Hpos].
    congruence. }
  destruct (lt (nFetchesPerDay b) (nFetchesPerDay a)) eqn:Eba; [by left|].
  destruct (Heq eq_refl eq_refl) as (-> & He & _).
  rewrite lt_zero_of_Z. intros H. apply Z.ltb_ge in H. by right.
Qed.

Lemma compareGroups_positive a b :
  sound a -> sound b ->
  lt (of_Z 0) (compareGroups localeCompare a b) = true ->
  precedes localeCompare b a.
Proof.
  intros Ha Hb. unfold compareGroups, precedes. cbv zeta.
  destruct (sub_sign (nFetchesPerDay a) (nFetchesPerDay b) Ha Hb)
    as (Hlt & Hgt & Heq).
  destruct (lt (nFetchesPerDay a) (nFetchesPerDay b)) eqn:Eab; [by left|].
  destruct (lt (nFetchesPerDay b) (nFetchesPerDay a)) eqn:Eba.
  { destruct (negative_number_spec _ (Hgt eq_refl)) as [-> Hneg].
    congruence. }
  destruct (Heq eq_refl eq_refl) as (-> & _ & He).
  rewrite lt_zero_of_Z. intros H. apply Z.ltb_lt in H.
  right. split; [done|]. by apply localeCompare_total.
Qed.

Lemma precedes_transitive a b c :
  precedes localeCompare a b -> precedes localeCompare b c ->
  precedes localeCompare a c.
Proof.
  unfold precedes. intros [Hab|[Hab Lab]] [Hbc|[Hbc Lbc]].
  - left. by eapply lt_transitive.
  - left. eapply lt_strict_equal_r; [|exact Hab].
    clear -Hbc. destruct (nFetchesPerDay b), (nFetchesPerDay c);
      simpl in *; try done; numbers; lra.
  - left. eapply lt_strict_equal_l; [|exact Hbc].
    clear -Hab. destruct (nFetchesPerDay a), (nFetchesPerDay b);
      simpl in *; try done; numbers; lra.
  - right. split; [by eapply strict_equal_transitive|].
    by eapply localeCompare_trans.
Qed.

Lemma sort_insert_Sorted x l :
  sound x -> Forall sound l ->
  Sorted (precedes localeCompare) l ->
  Sorted (precedes localeCompare)
         (sort_insert (compareGroups localeCompare) x l).
Proof.
  intros Hx. induction l as [|y l IH]; intros Hl Hs; cbn [sort_insert].
  { repeat constructor. }
  apply Forall_cons in Hl as [Hy Hl].
  destruct (lt (of_Z 0) (compareGroups localeCompare x y)) eqn:E.
  - apply Sorted_inv in Hs as [Hs Hhd].
    constructor; [by apply IH|].
    destruct l as [|z l]; cbn [sort_insert].
    + constructor. by apply compareGroups_positive.
    + destruct (lt (of_Z 0) (compareGroups localeCompare x z)).
      * constructor. by apply HdRel_inv in Hhd.
      * constructor. by apply compareGroups_positive.
  - constructor; [done|]. constructor. by apply compareGroups_not_positive.
Qed.

Lemma Forall_sort_insert {A} (P : A -> Prop) comparefn x l :
  P x -> Forall P l -> Forall P (sort_insert comparefn x l).
Proof.
  intros Hx Hl. rewrite sort_insert_is_Permutation. by constructor.
Qed.

Lemma Array_sort_Sorted l :
  Forall sound l ->
  Sorted (precedes localeCompare) (Array_sort (compareGroups localeCompare) l).
Proof.
  unfold Array_sort. induction 1 as [|x l Hx Hl IH]; cbn [foldr].
  - constructor.
  - apply sort_insert_Sorted; [done| |done].
    fold (Array_sort (compareGroups localeCompare) l).
    by rewrite Array_sort_is_Permutation.
Qed.

Lemma Array_sort_StronglySorted l :
  Forall sound l ->
  StronglySorted (precedes localeCompare)
                 (Array_sort (compareGroups localeCompare) l).
Proof.
  intros Hl. apply Sorted_StronglySorted; [|by apply Array_sort_Sorted].
  intros a b c. apply precedes_transitive.
Qed.

End Comparator.

(** *** The groups *)

(** C8, as stated, fails: the seven weekly fetches of workflow "a" add
    up to one fetch a day, as many as workflow "bb" has, and "a"
    compares lower than "bb", so that "a" is to come first; but the
    seven quotients, rounded and added one after the other, make a total
    below 1, and the program puts "bb" first. *)
Lemma groupAutofetches_rounds_the_sums :
  let groups := groupAutofetches QuotaExceeded.compareLength weeklyAndDaily in
  (QuotaExceeded.sumFetchesPerDay
     (QuotaExceeded.autofetchesOf 1 weeklyAndDaily) == 1)%Q
  /\ (QuotaExceeded.sumFetchesPerDay
        (QuotaExceeded.autofetchesOf 2 weeklyAndDaily) == 1)%Q
  /\ (QuotaExceeded.compareLength "a" "bb" < 0)%Z
  /\ (QuotaExceeded.id ∘ g_workflow) <$> groups = [2%Z; 1%Z]
  /\ (Qred ∘ value ∘ nFetchesPerDay) <$> groups
     = [1%Q; (4503599627370495 # 4503599627370496)%Q].
Proof.
  cbv zeta. split; [vm_compute; reflexivity|].
  split; [vm_compute; reflexivity|].
  split; [vm_compute; reflexivity|].
  split; vm_compute; reflexivity.
Qed.

(** C8, amended. [groupAutofetches] returns one group per distinct
    workflow id of its input; a group holds the input's autofetches of
    its workflow, in input order; its [nFetchesPerDay] is the double
    the loop computes, starting from 0 and adding, one autofetch after
    the other, the double quotient [86400 / fetchInterval], each sum
    rounded to the nearest double; and the groups come sorted by these
    doubles, highest first, ties by workflow name in the order of
    [localeCompare] (a consistent comparator). *)
Theorem groupAutofetches_groups_and_sorts
    (localeCompare : string -> string -> Z)
    (input : list QuotaExceeded.autofetch) :
  (forall a b, (0 < localeCompare a b)%Z -> (localeCompare b a <= 0)%Z) ->
  (forall a b c,
      (localeCompare a b <= 0)%Z -> (localeCompare b c <= 0)%Z ->
      (localeCompare a c <= 0)%Z) ->
  let groups := groupAutofetches localeCompare input in
  NoDup ((QuotaExceeded.id ∘ g_workflow) <$> groups)
  /\ (forall k,
         k ∈ (QuotaExceeded.id ∘ g_workflow) <$> groups
         <-> k ∈ (QuotaExceeded.id ∘ QuotaExceeded.af_workflow) <$> input)
  /\ (forall g,
         g ∈ groups ->
         autofetches g
         = filter (fun a => QuotaExceeded.id (QuotaExceeded.af_workflow a)
                            = QuotaExceeded.id (g_workflow g)) input
         /\ nFetchesPerDay g
            = foldl (fun total a =>
                       add total
                           (div (of_Z 86400)
                                (of_Z (Z.pos (QuotaExceeded.fetchInterval
                                                (QuotaExceeded.af_wfModule a))))))
                    (of_Z 0) (autofetches g))
  /\ StronglySorted
       (fun a b =>
          lt (nFetchesPerDay b) (nFetchesPerDay a) = true
          \/ (strict_equal (nFetchesPerDay a) (nFetchesPerDay b) = true
              /\ (localeCompare (QuotaExceeded.name (g_workflow a))
                                (QuotaExceeded.name (g_workflow b)) <= 0)%Z))
       groups.
Proof.
  intros Htotal Htrans groups.
  pose proof (grouped_foldl input) as [Hnd Hids Hentry].
  set (object := foldl addAutofetch [] input) in *.
  assert (Hperm : groups ≡ₚ QuotaExceeded.Object_values object).
  { apply Array_sort_is_Permutation. }
  assert (Hkeys : (QuotaExceeded.id ∘ g_workflow)
                    <$> QuotaExceeded.Object_values object = object.*1).
  { apply group_ids_are_keys. intros k g H. by apply Hentry. }
  split; [|split; [|split]].
  - by rewrite Hperm, Hkeys.
  - intros k. by rewrite Hperm, Hkeys.
  - intros g Hg. rewrite Hperm in Hg.
    apply list_elem_of_fmap in Hg as [[k g'] [-> Hin]]. simpl.
    destruct (Hentry k g' Hin) as (Hid & Hafs & Hn).
    rewrite Hid. split; [exact Hafs|].
    rewrite Hn, Hafs. reflexivity.
  - apply (Array_sort_StronglySorted localeCompare Htotal Htrans).
    apply Forall_forall. intros g Hg.
    apply list_elem_of_fmap in Hg as [[k g'] [-> Hin]]. simpl.
    destruct (Hentry k g' Hin) as (_ & _ & Hn).
    unfold sound. rewrite Hn. apply accumulated_nonnegative.
Qed.

Lemma groupAutofetches_groups_and_sorts_witness :
  let groups :=
    groupAutofetches QuotaExceeded.compareLength
                     QuotaExceeded.someAutofetches in
  NoDup ((QuotaExceeded.id ∘ g_workflow) <$> groups)
  /\ (forall k,
         k ∈ (QuotaExceeded.id ∘ g_workflow) <$> groups
         <-> k ∈ (QuotaExceeded.id ∘ QuotaExceeded.af_workflow)
                   <$> QuotaExceeded.someAutofetches)
  /\ (forall g,
         g ∈ groups ->
         autofetches g
         = filter (fun a => QuotaExceeded.id (QuotaExceeded.af_workflow a)
                            = QuotaExceeded.id (g_workflow g))
                  QuotaExceeded.someAutofetches
         /\ nFetchesPerDay g
            = foldl (fun total a =>
                       add total
                           (div (of_Z 86400)
                                (of_Z (Z.pos (QuotaExceeded.fetchInterval
                                                (QuotaExceeded.af_wfModule a))))))
                    (of_Z 0) (autofetches g))
  /\ StronglySorted
       (fun a b =>
          lt (nFetchesPerDay b) (nFetchesPerDay a) = true
          \/ (strict_equal (nFetchesPerDay a) (nFetchesPerDay b) = true
              /\ (QuotaExceeded.compareLength
                    (QuotaExceeded.name (g_workflow a))
                    (QuotaExceeded.name (g_workflow b)) <= 0)%Z))
       groups.
Proof.
  apply (groupAutofetches_groups_and_sorts QuotaExceeded.compareLength
           QuotaExceeded.someAutofetches);
    unfold QuotaExceeded.compareLength; intros; lia.
Defined.

(** On that input: workflow 1 with 288 fetches a day, then workflow 2
    with 24 + 12 = 36. *)
Example groupAutofetches_in_doubles :
  let groups :=
    groupAutofetches QuotaExceeded.compareLength
                     QuotaExceeded.someAutofetches in
  (QuotaExceeded.id ∘ g_workflow) <$> groups = [1%Z; 2%Z]
  /\ (Qred ∘ value ∘ nFetchesPerDay) <$> groups = [288%Q; 36%Q]
  /\ (fun g => QuotaExceeded.wfModule_id ∘ QuotaExceeded.af_wfModule
                 <$> autofetches g) <$> groups
     = [[11%Z]; [10%Z; 12%Z]].
Proof. vm_compute. repeat split. Qed.

End GroupAutofetchesFacts.

(** ** OutputPane.js *)

Module OutputPaneFacts.
Import JS OutputPane.

(** The getter returns [stepBeforeError] when there is one, else the
    selected step unless its status is 'error', else nothing. *)
Lemma stepForTable_cases (p : props) :
  (forall before,
      stepBeforeError p = Some before ->
      stepForTable p = Some (TheStepBeforeError before))
  /\ (forall s,
         stepBeforeError p = None -> step_ p = Some s ->
         sp_status s <> Some error ->
         stepForTable p = Some (TheStep s))
  /\ (forall s,
         stepBeforeError p = None -> step_ p = Some s ->
         sp_status s = Some error ->
         stepForTable p = None)
  /\ (stepBeforeError p = None -> step_ p = None -> stepForTable p = None).
Proof.
  unfold stepForTable. repeat split.
  - intros before ->. done.
  - intros s -> -> H. by rewrite decide_True.
  - intros s -> -> H. by rewrite decide_False by (intros H'; by apply H').
  - intros -> ->. done.
Qed.

(** The step shown has the status 'error' only if [stepBeforeError]
    carries it. *)
Lemma stepForTable_error_only_from_stepBeforeError (p : props) (t : tableStep) :
  stepForTable p = Some t ->
  tableStep_status t = Some error ->
  exists before,
    stepBeforeError p = Some before /\ sbe_status before = Some error.
Proof.
  unfold stepForTable. destruct (stepBeforeError p) as [before|].
  - intros [= <-] H. by exists before.
  - destruct (step_ p) as [s|]; [|done].
    destruct (decide (sp_status s <> Some error)) as [Hne|]; [|done].
    intros [= <-] H. simpl in H. contradiction.
Qed.

(** The status [mapStateToProps] gives [stepBeforeError] is the status
    of the step before the selected one, whatever that status is. *)
Lemma mapStateToProps_stepBeforeError (st : state) (p : props)
    (before : stepBeforeErrorProp) :
  mapStateToProps st = Normal p ->
  stepBeforeError p = Some before ->
  exists tab key lastGood,
    tabs st !! selectedPane_tabSlug st = Some tab
    /\ (0 < selected_step_position tab)%Z
    /\ index (step_ids tab) (selected_step_position tab - 1) = Some key
    /\ steps st !! key = Some lastGood
    /\ sbe_status before = stepStatus (Some lastGood).
Proof.
  unfold mapStateToProps.
  destruct (tabs st !! selectedPane_tabSlug st) as [tab|] eqn:Etab; [|done].
  cbv zeta.
  destruct (bool_decide _ && (0 <? selected_step_position tab)%Z) eqn:Eerr.
  - apply andb_true_iff in Eerr as [_ Hpos]. apply Z.ltb_lt in Hpos.
    destruct (mjoin (index _ (selected_step_position tab - 1)))
      as [lastGood|] eqn:Elast; [|done].
    intros [= <-] [= <-]. simpl.
    unfold index in Elast |- *.
    destruct (selected_step_position tab - 1 <? 0)%Z eqn:Eneg; [done|].
    rewrite list_lookup_fmap in Elast.
    destruct (step_ids tab !! Z.to_nat (selected_step_position tab - 1))
      as [key|] eqn:Ekey; [|done].
    simpl in Elast. exists tab, key, lastGood.
    rewrite Eneg. repeat split; done.
  - intros [= <-]. done.
Qed.

(** C9 fails on that state: [mapStateToProps] hands over a
    [stepBeforeError] of status 'error', and [stepForTable] returns
    it. *)
Theorem stepForTable_of_twoErrors_is_error :
  exists p before,
    mapStateToProps twoErrors = Normal p
    /\ stepBeforeError p = Some before
    /\ sbe_id before = 1%Z
    /\ sbe_status before = Some error
    /\ stepForTable p = Some (TheStepBeforeError before)
    /\ (tableStep_status <$> stepForTable p) = Some (Some error).
Proof.
  eexists _, _. vm_compute. repeat split.
Qed.

End OutputPaneFacts.

(** ** updateDuplicateModule *)

Module UpdateTableActionFacts.
Import JS UpdateTableAction.

Lemma split_not_nil (separator : ascii) (s : string) : split separator s <> [].
Proof.
  destruct s as [|c s]; simpl; [done|].
  destruct (decide (c = separator)); [done|].
  by destruct (split separator s).
Qed.

(** Splitting distributes over a separator. *)
Lemma split_append (separator : ascii) (a b : string) :
  split separator (a +:+ String separator b)
  = split separator a ++ split separator b.
Proof.
  induction a as [|c a IH].
  - simpl. by rewrite decide_True.
  - rewrite StringFacts.append_cons. simpl.
    destruct (decide (c = separator)); [by rewrite IH|].
    rewrite IH. pose proof (split_not_nil separator a).
    by destruct (split separator a).
Qed.

(** A string without the separator is one entry. *)
Lemma split_without (separator : ascii) (s : string) :
  without separator s -> split separator s = [s].
Proof.
  induction s as [|c s IH]; simpl; [done|].
  intros [Hc Hs]. rewrite decide_False by done. by rewrite IH.
Qed.

Section WithStore.

Variable reduxState : Type.
Variable reducer : reduxState -> action -> reduxState.
Variable findParamValByIdName : wfModule -> string -> option paramVal.

(** C10. When the 'colnames' value is not empty and the column name is
    one of its comma-separated entries, [updateDuplicateModule]
    dispatches nothing and the store is as before; when the value is not
    empty and the name is not among the entries it dispatches the value
    with [,name] appended; when the value is empty it dispatches the
    name alone.  A name without a comma is an entry of the appended
    value, so that a second call on it does nothing. *)
Theorem updateDuplicateModule_adds_name_once
    (wfm : wfModule) (entriesParam : paramVal) (name : string)
    (others : list string) (s : store reduxState) :
  findParamValByIdName wfm "colnames" = Some entriesParam ->
  let value := pv_value entriesParam in
  let result :=
    updateDuplicateModule reduxState reducer findParamValByIdName
                          wfm (name :: others) s in
  (value <> EmptyString -> name ∈ split "," value -> result = Normal s)
  /\ (value <> EmptyString -> name ∉ split "," value ->
      result = Normal (dispatch reduxState reducer
                         (SetParamValueByIdName (wfm_id wfm) "colnames"
                            (str (value +:+ "," +:+ name))) s))
  /\ (value = EmptyString ->
      result = Normal (dispatch reduxState reducer
                         (SetParamValueByIdName (wfm_id wfm) "colnames"
                            (str name)) s))
  /\ (without "," name -> name ∈ split "," (value +:+ "," +:+ name)).
Proof.
  intros Hfind value result. subst result value.
  unfold updateDuplicateModule. rewrite Hfind. cbv zeta.
  split; [|split; [|split]].
  - intros Hne Hin. rewrite bool_decide_eq_false_2 by done. simpl.
    by rewrite bool_decide_eq_true_2.
  - intros Hne Hnotin. rewrite bool_decide_eq_false_2 by done. simpl.
    by rewrite bool_decide_eq_false_2.
  - intros Hempty. by rewrite bool_decide_eq_true_2.
  - intros Hname.
    change ("," +:+ name) with (String "," name).
    rewrite split_append, (split_without _ name Hname).
    apply elem_of_app. right. left.
Qed.

End WithStore.

Lemma updateDuplicateModule_adds_name_once_witness :
  updateDuplicateModule nat countActions findByIdName duplicateStep ["b"]
                        (Store nat 0 [])
  = Normal (Store nat 0 [])
  /\ updateDuplicateModule nat countActions findByIdName duplicateStep ["c"]
                           (Store nat 0 [])
     = Normal (Store nat 1 [SetParamValueByIdName 7 "colnames" (str "a,b,c")])
  /\ "c" ∈ split "," "a,b,c".
Proof.
  pose proof (updateDuplicateModule_adds_name_once nat countActions
                findByIdName duplicateStep (ParamVal 70 "colnames" "a,b")
                "b" [] (Store nat 0 []) eq_refl) as (Hb & _ & _ & _).
  pose proof (updateDuplicateModule_adds_name_once nat countActions
                findByIdName duplicateStep (ParamVal 70 "colnames" "a,b")
                "c" [] (Store nat 0 []) eq_refl) as (_ & Hc & _ & Hin).
  split; [|split].
  - apply Hb; [done|]. vm_compute. right. left.
  - apply Hc; [done|]. vm_compute.
    intros H. repeat (apply elem_of_cons in H as [H|H]; [discriminate H|]).
    by apply elem_of_nil in H.
  - apply Hin. vm_compute. repeat split; discriminate.
Defined.

(** An empty value is replaced by the name. *)
Example updateDuplicateModule_on_empty :
  updateDuplicateModule nat countActions findByIdName
    (WfModuleState 7 [ParamVal 70 "colnames" ""]) ["c"] (Store nat 0 [])
  = Normal (Store nat 1 [SetParamValueByIdName 7 "colnames" (str "c")]).
Proof. reflexivity. Qed.

End UpdateTableActionFacts.

(** ** QuotaExceeded.js: what the grouped table shows *)

Module QuotaTableFacts.
Import QuotaExceeded QuotaExceededFacts.



(** Splitting a list by keys that are distinct and cover it loses and
    repeats nothing. *)
Lemma split_by_keys (keys : list Z) (input : list autofetch) :
  NoDup keys ->
  (forall a, a ∈ input -> id (af_workflow a) ∈ keys) ->
  mjoin ((fun k => autofetchesOf k input) <$> keys) ≡ₚ input.
Proof.
  intros Hnd. induction input as [|a input IH]; intros Hcover.
  - clear. induction keys as [|k keys IHk]; [done|]. exact IHk.
  - assert (Hin : id (af_workflow a) ∈ keys) by (apply Hcover; left).
    assert (IH' : mjoin ((fun k => autofetchesOf k input) <$> keys) ≡ₚ input).
    { apply IH. intros b Hb. apply Hcover. by right. }
    etrans; [|apply Permutation_skip, IH']. clear IH IH' Hcover.
    induction keys as [|k keys IHk]; [by apply elem_of_nil in Hin|].
    apply NoDup_cons in Hnd as [Hk Hnd]. simpl.
    unfold autofetchesOf at 1. rewrite filter_cons.
    destruct (decide (id (af_workflow a) = k)) as [Heq|Hne].
    + assert (Hrest : (fun k => autofetchesOf k (a :: input)) <$> keys
                      = (fun k => autofetchesOf k input) <$> keys).
      { apply list_fmap_ext. intros i k' Hk'.
        unfold autofetchesOf. rewrite filter_cons_False; [done|].
        intros Heq'. apply Hk. rewrite <- Heq, Heq'.
        by apply list_elem_of_lookup_2 in Hk'. }
      unfold fmap in Hrest. rewrite Hrest. done.
    + apply elem_of_cons in Hin as [Hin|Hin]; [done|].
      rewrite (IHk Hnd Hin). symmetry. apply Permutation_middle.
Qed.

Lemma autofetches_in_doubles_are_keyed
    (groups : object GroupAutofetches.group) (input : list autofetch) :
  (forall k g, (k, g) ∈ groups ->
     GroupAutofetches.autofetches g = autofetchesOf k input) ->
  GroupAutofetches.autofetches <$> Object_values groups
  = (fun k => autofetchesOf k input) <$> groups.*1.
Proof.
  unfold Object_values.
  induction groups as [|[k g] groups IH]; intros H; simpl; [done|].
  f_equal.
  - apply H. left.
  - apply IH. intros k' g' Hin. apply H. by right.
Qed.

(** X1. Grouping loses and repeats nothing: the autofetches of the
    groups, one group after the other, are those of the input. *)
Theorem groupAutofetches_partitions_input
    (localeCompare : string -> string -> Z) (input : list autofetch) :
  GroupAutofetches.listedSteps
    (GroupAutofetches.groupAutofetches localeCompare input)
  ≡ₚ input.
Proof.
  pose proof (GroupAutofetchesFacts.grouped_foldl input) as [Hnd Hids Hentry].
  set (object := foldl GroupAutofetches.addAutofetch [] input) in *.
  assert (Hperm : GroupAutofetches.groupAutofetches localeCompare input
                  ≡ₚ Object_values object).
  { apply GroupAutofetchesFacts.Array_sort_is_Permutation. }
  unfold GroupAutofetches.listedSteps. rewrite Hperm.
  rewrite (autofetches_in_doubles_are_keyed object input).
  - apply split_by_keys; [done|].
    intros a Ha. apply Hids. apply list_elem_of_fmap. by exists a.
  - intros k g H. by apply Hentry.
Qed.


(** The workflow object of a group is the one its first autofetch
    carried. *)
Lemma first_workflow_loop (input : list autofetch) :
  forall k g,
    (k, g) ∈ foldl addAutofetch [] input ->
    af_workflow <$> head (autofetchesOf k input) = Some (g_workflow g).
Proof.
  induction input as [|a input IH] using rev_ind.
  { intros k g H. by apply elem_of_nil in H. }
  intros k g'. rewrite foldl_app. simpl.
  pose proof (grouped_loop input) as Hg.
  destruct (ensured_group input _ a Hg) as (_ & _ & Hentry1).
  destruct Hg as [_ Hids _].
  unfold addAutofetch. cbv zeta.
  intros Hin. apply elem_of_obj_mutate in Hin as [g [Hin ->]].
  rewrite autofetchesOf_snoc.
  destruct (Hentry1 k g Hin) as [Hold|(-> & -> & Hfresh)].
  - specialize (IH k g Hold).
    destruct (autofetchesOf k input) as [|b rest]; [done|].
    simpl in *. by destruct (decide (k = id (af_workflow a))).
  - assert (Hnone : autofetchesOf (id (af_workflow a)) input = []).
    { apply autofetchesOf_nil_iff. by rewrite <- Hids. }
    rewrite Hnone, !decide_True by done. done.
Qed.

(** X3. The workflow a row shows is the one of the first step listed in
    it. *)
Theorem groupAutofetches_shows_first_workflow
    (localeCompare : string -> string -> Z) (input : list autofetch)
    (g : group) :
  g ∈ groupAutofetches localeCompare input ->
  exists first others,
    autofetches g = first :: others
    /\ g_workflow g = af_workflow first
    /\ forall a, a ∈ autofetches g ->
         id (af_workflow a) = id (g_workflow g).
Proof.
  intros Hg.
  pose proof (grouped_loop input) as [_ _ Hentry].
  set (object := foldl addAutofetch [] input) in *.
  assert (Hperm : groupAutofetches localeCompare input ≡ₚ Object_values object).
  { apply Array_sort_Permutation. }
  rewrite Hperm in Hg.
  apply list_elem_of_fmap in Hg as [[k g'] [-> Hin]]. simpl.
  destruct (Hentry k g' Hin) as (Hid & Hafs & _).
  pose proof (first_workflow_loop input k g' Hin) as Hfirst.
  rewrite <- Hafs in Hfirst.
  destruct (autofetches g') as [|first others] eqn:E; [done|].
  exists first, others. simpl in Hfirst. injection Hfirst as Hfirst.
  split; [done|]. split; [done|].
  intros a Ha. rewrite Hid.
  rewrite Hafs in Ha. unfold autofetchesOf in Ha.
  by apply list_elem_of_filter in Ha as [Ha _].
Qed.

Lemma groupAutofetches_shows_first_workflow_witness :
  exists first others,
    autofetches (Group (Workflow 1 "a") (0 + 86400 / inject_Z 300)
                       [Autofetch (Workflow 1 "a") (Tab "Tab 1")
                                  (WfModule 11 0 300)])
    = first :: others
    /\ Workflow 1 "a" = af_workflow first
    /\ forall a, a ∈ [Autofetch (Workflow 1 "a") (Tab "Tab 1")
                                (WfModule 11 0 300)] ->
         id (af_workflow a) = 1%Z.
Proof.
  apply (groupAutofetches_shows_first_workflow compareLength someAutofetches
           (Group (Workflow 1 "a") (0 + 86400 / inject_Z 300)
                  [Autofetch (Workflow 1 "a") (Tab "Tab 1")
                             (WfModule 11 0 300)])).
  vm_compute. left.
Defined.

End QuotaTableFacts.

(** ** Report/Table.js: tile URLs tell tiles apart *)

Module TileUrlFacts.
Import Table UpdateTableAction ReportTable.

Lemma append_inv_head (p s t : string) : p +:+ s = p +:+ t -> s = t.
Proof.
  induction p as [|c p IH]; [done|].
  rewrite !StringFacts.append_cons. intros [= H]. by apply IH.
Qed.

(** Two strings that agree up to a separator neither contains. *)
Lemma append_separator_inj (separator : ascii) (s1 s2 t1 t2 : string) :
  without separator s1 -> without separator s2 ->
  s1 +:+ String separator t1 = s2 +:+ String separator t2 ->
  s1 = s2 /\ t1 = t2.
Proof.
  revert s2. induction s1 as [|c s1 IH]; intros [|c2 s2] H1 H2 Heq.
  - by injection Heq.
  - rewrite StringFacts.append_cons in Heq. injection Heq as <- _.
    by destruct H2.
  - rewrite StringFacts.append_cons in Heq. injection Heq as -> _.
    by destruct H1.
  - rewrite !StringFacts.append_cons in Heq. injection Heq as -> Heq.
    destruct H1 as [_ H1], H2 as [_ H2].
    destruct (IH s2 H1 H2 Heq) as [-> ->]. done.
Qed.

Lemma pretty_N_go_without (separator : ascii) (x : N) (s : string) :
  not_a_digit separator ->
  without separator s -> without separator (pretty_N_go x s).
Proof.
  intros Hsep. revert s.
  induction (N.lt_wf_0 x) as [x _ IH]; intros s Hs.
  assert (x = 0 \/ 0 < x)%N as [->|Hpos] by lia.
  - by rewrite pretty_N_go_0.
  - rewrite pretty_N_go_step by done. apply IH.
    + by apply N.div_lt.
    + split; [apply Hsep | done].
Qed.

Lemma pretty_N_without (separator : ascii) (x : N) :
  not_a_digit separator -> without separator (pretty x).
Proof.
  intros Hsep. unfold pretty, pretty_N.
  destruct (decide (x = 0%N)).
  - split; [apply (Hsep 0%N) | done].
  - by apply pretty_N_go_without.
Qed.

Lemma pretty_Z_without (separator : ascii) (z : Z) :
  not_a_digit separator -> separator <> "-"%char ->
  without separator (pretty z).
Proof.
  intros Hsep Hdash. destruct z as [|p|p].
  - split; [apply (Hsep 0%N) | done].
  - by apply (pretty_N_without separator (N.pos p)).
  - change (pretty (Z.neg p)) with (String "-" (pretty (N.pos p))).
    split; [done|]. by apply pretty_N_without.
Qed.

Lemma slash_not_a_digit : not_a_digit "/".
Proof. intros n. unfold pretty_N_char. by repeat case_match. Qed.

Lemma comma_not_a_digit : not_a_digit ",".
Proof. intros n. unfold pretty_N_char. by repeat case_match. Qed.

Lemma dot_not_a_digit : not_a_digit ".".
Proof. intros n. unfold pretty_N_char. by repeat case_match. Qed.

(** X4. Different tiles never share a URL. *)
Theorem tileUrl_injective
    (w w' : workflowId) (stepSlug stepSlug' : string)
    (deltaId deltaId' tileRow tileRow' tileColumn tileColumn' : Z) :
  without "/" (workflowId_to_string w) ->
  without "/" (workflowId_to_string w') ->
  without "/" stepSlug ->
  without "/" stepSlug' ->
  tileUrl w stepSlug deltaId tileRow tileColumn
    = tileUrl w' stepSlug' deltaId' tileRow' tileColumn' ->
  workflowId_to_string w = workflowId_to_string w'
  /\ stepSlug = stepSlug'
  /\ deltaId = deltaId'
  /\ tileRow = tileRow'
  /\ tileColumn = tileColumn'.
Proof.
  intros Hw Hw' Hs Hs' Heq. unfold tileUrl in Heq.
  apply append_inv_head in Heq.
  change ("/tiles/" +:+ ?x) with (String "/" ("tiles/" +:+ x)) in Heq.
  apply (append_separator_inj "/") in Heq as [Hwid Heq]; [|done..].
  apply append_inv_head in Heq.
  change ("/delta-" +:+ ?x) with (String "/" ("delta-" +:+ x)) in Heq.
  apply (append_separator_inj "/") in Heq as [Hslug Heq]; [|done..].
  apply append_inv_head in Heq.
  change ("/" +:+ ?x) with (String "/" x) in Heq.
  apply (append_separator_inj "/") in Heq as [Hdelta Heq];
    [|by apply pretty_Z_without; [apply slash_not_a_digit|]..].
  change ("," +:+ ?x) with (String "," x) in Heq.
  apply (append_separator_inj ",") in Heq as [Hrow Heq];
    [|by apply pretty_Z_without; [apply comma_not_a_digit|]..].
  change (".json") with (String "." "json") in Heq.
  apply (append_separator_inj ".") in Heq as [Hcol _];
    [|by apply pretty_Z_without; [apply dot_not_a_digit|]..].
  repeat split; [done..| | |]; by apply (inj pretty).
Qed.

Lemma numeric_workflowId_without_slash (id : Z) :
  without "/" (workflowId_to_string (WorkflowId id)).
Proof. by apply pretty_Z_without; [apply slash_not_a_digit|]. Qed.

Lemma tileUrl_injective_witness :
  workflowId_to_string (WorkflowId 12) = workflowId_to_string (WorkflowId 12)
  /\ "step-1" = "step-1"
  /\ 7%Z = 7%Z /\ 2%Z = 2%Z /\ 0%Z = 0%Z.
Proof.
  apply (tileUrl_injective (WorkflowId 12) (WorkflowId 12) "step-1" "step-1"
                           7 7 2 2 0 0);
    try apply numeric_workflowId_without_slash;
    try reflexivity;
    vm_compute; repeat split; discriminate.
Defined.

(** X5. Colours repeat with period 6 and exist for every index from 0
    on; a negative index that is no multiple of 6 has none. *)
Theorem getColor_cycles (idx : Z) :
  ((0 <= idx)%Z ->
   (exists color, getColor idx = Some color /\ color ∈ defaultColors)
   /\ getColor (idx + 6) = getColor idx)
  /\ ((idx < 0)%Z -> Z.rem idx 6 <> 0%Z -> getColor idx = None).
Proof.
  unfold getColor, OutputPane.index.
  change (Z.of_nat (List.length defaultColors)) with 6%Z.
  split.
  - intros Hidx.
    pose proof (Z.rem_bound_pos idx 6 Hidx ltac:(lia)) as Hb.
    assert (Hper : Z.rem (idx + 6) 6 = Z.rem idx 6).
    { rewrite !Z.rem_mod_nonneg by lia.
      replace (idx + 6)%Z with (idx + 1 * 6)%Z by lia.
      by rewrite Z.mod_add. }
    rewrite Hper. split; [|done].
    destruct (Z.rem idx 6 <? 0)%Z eqn:E; [lia|].
    destruct (lookup_lt_is_Some_2 defaultColors (Z.to_nat (Z.rem idx 6)))
      as [color Hc].
    { simpl. lia. }
    exists color. split; [done|]. by apply list_elem_of_lookup_2 in Hc.
  - intros Hneg Hrem.
    pose proof (Z.rem_nonpos idx 6 ltac:(lia) ltac:(lia)) as Hb.
    destruct (Z.rem idx 6 <? 0)%Z eqn:E; [done|]. lia.
Qed.

Lemma getColor_cycles_witness :
  (exists color, getColor 8 = Some color /\ color ∈ defaultColors)
  /\ getColor (8 + 6) = getColor 8
  /\ getColor (-1) = None.
Proof.
  destruct (getColor_cycles 8) as [[H1 H2] _]; [lia|].
  destruct (getColor_cycles (-1)) as [_ H3].
  split; [exact H1|]. split; [exact H2|].
  apply H3; [lia | vm_compute; discriminate].
Defined.

End TileUrlFacts.

(** ** Report/Table.js: the connected props *)

Module ReportTableFacts.
Import JS ReportTable.

(** X6. The table's props come from the step with the given slug, and
    there is a TypeError exactly when the state has no such step. *)
Theorem Table_mapStateToProps_by_slug (st : state) (stepSlug : string) :
  (mapStateToProps st stepSlug = Throw "TypeError"
   <-> forall k step, (k, step) ∈ steps st ->
         OutputPane.slug step <> Some stepSlug)
  /\ (forall p,
        mapStateToProps st stepSlug = Normal p ->
        exists k step,
          (k, step) ∈ steps st
          /\ OutputPane.slug step = Some stepSlug
          /\ p = Props (OutputPane.cached_render_result_delta_id step)
                       (OutputPane.output_n_rows step)
                       (OutputPane.output_columns step)
                       (bigTableRowsPerTile (settings st))
                       (bigTableColumnsPerTile (settings st))).
Proof.
  unfold mapStateToProps, QuotaExceeded.Object_values.
  destruct (head (filter _ (steps st).*2)) as [step|] eqn:E.
  - assert (Hin : step ∈ filter (fun step => OutputPane.slug step = Some stepSlug)
                           (steps st).*2).
    { destruct (filter _ (steps st).*2) as [|x rest]; [done|].
      injection E as ->. left. }
    apply list_elem_of_filter in Hin as [Hslug Hin].
    apply list_elem_of_fmap in Hin as [[k step'] [-> Hin]]. simpl in *.
    split.
    + split; [done|]. intros H. by destruct (H k step' Hin).
    + intros p [= <-]. by exists k, step'.
  - split; [|done]. split; [|done]. intros _ k step Hin Hslug.
    assert (Hmem : step ∈ filter (fun step => OutputPane.slug step = Some stepSlug)
                            (steps st).*2).
    { apply list_elem_of_filter. split; [done|].
      apply list_elem_of_fmap. by exists (k, step). }
    destruct (filter _ (steps st).*2) as [|x rest]; [|done].
    by apply elem_of_nil in Hmem.
Qed.

End ReportTableFacts.

(** ** OutputPane.js: from the Redux state to the table *)

Module OutputPaneStateFacts.
Import JS OutputPane.

#[local] Arguments stepStatus : simpl never.

Lemma index_fmap {A B} (f : A -> B) (l : list A) (i : Z) :
  index (f <$> l) i = f <$> index l i.
Proof.
  unfold index. destruct (i <? 0)%Z; [done|]. apply list_lookup_fmap.
Qed.

(** The step the position of the tab selects. *)
Lemma selected_step (st : state) (tab : tabState) (i : Z) :
  mjoin (index ((fun id => steps st !! id) <$> step_ids tab) i)
  = index (step_ids tab) i ≫= (fun id => steps st !! id).
Proof. rewrite index_fmap. by destruct (index (step_ids tab) i). Qed.

Lemma stepStatus_is_Some (s : step) : is_Some (stepStatus (Some s)).
Proof.
  unfold stepStatus.
  destruct (0 <? nClientRequests s)%Z; simpl; [by eexists|].
  destruct (is_busy s); simpl; [by eexists|].
  destruct (output_status s) as [x|]; simpl; [|by eexists].
  destruct (bool_decide _); by eexists.
Qed.

(** X7. When the selected step is in error and is not the first of its
    tab, the table shows the step before it, and the [step] prop still
    is the selected step. *)
Theorem OutputPane_shows_input_of_errored_step
    (st : state) (tab : tabState) (i j : Z) (selected previous : step) :
  tabs st !! selectedPane_tabSlug st = Some tab ->
  index (step_ids tab) (selected_step_position tab) = Some i ->
  steps st !! i = Some selected ->
  stepStatus (Some selected) = Some error ->
  (0 < selected_step_position tab)%Z ->
  index (step_ids tab) (selected_step_position tab - 1) = Some j ->
  steps st !! j = Some previous ->
  exists p shown,
    mapStateToProps st = Normal p
    /\ stepForTable p = Some (TheStepBeforeError shown)
    /\ shown = StepBeforeError (id previous) (slug previous)
                 (cached_render_result_delta_id previous)
                 (stepStatus (Some previous))
                 (output_columns previous) (output_n_rows previous)
    /\ (sp_id <$> step_ p) = Some (id selected)
    /\ (sp_status <$> step_ p) = Some (Some error).
Proof.
  intros Htab Hi Hsel Herr Hpos Hj Hprev.
  unfold mapStateToProps. rewrite Htab. cbv zeta.
  rewrite !selected_step, Hi, Hj. simpl. rewrite Hsel, Hprev, Herr.
  rewrite bool_decide_eq_true_2 by done.
  apply Z.ltb_lt in Hpos. rewrite Hpos. simpl.
  eexists _, _. split; [reflexivity|]. done.
Qed.


(** X9. The placeholder table: nothing is shown when the position
    selects nothing or when the first step of the tab is in error, and a
    busy step of id -1, with no slug, no module and the delta id [null],
    is shown for an id the state has no step for. *)
Theorem OutputPane_placeholder (st : state) (tab : tabState) :
  tabs st !! selectedPane_tabSlug st = Some tab ->
  (index (step_ids tab) (selected_step_position tab) = None ->
   mapStateToProps st = Normal (Props None None))
  /\ (forall i,
        index (step_ids tab) (selected_step_position tab) = Some i ->
        steps st !! i = None ->
        i <> 0%Z ->
        exists p,
          mapStateToProps st = Normal p
          /\ stepForTable p
             = Some (TheStep (StepProp (-1) None Undefined
                                (htmlOutput (modules st) Undefined)
                                (Some busy) Null None None)))
  /\ (forall i selected,
        index (step_ids tab) (selected_step_position tab) = Some i ->
        steps st !! i = Some selected ->
        stepStatus (Some selected) = Some error ->
        (selected_step_position tab <= 0)%Z ->
        exists p,
          mapStateToProps st = Normal p
          /\ stepForTable p = None
          /\ (sp_id <$> step_ p) = Some (id selected)).
Proof.
  intros Htab. unfold mapStateToProps. rewrite Htab. cbv zeta.
  rewrite !selected_step. split; [|split].
  - intros Hi. rewrite Hi. done.
  - intros i Hi Hmissing Hne. rewrite Hi. simpl. rewrite Hmissing.
    rewrite decide_False by done. simpl.
    eexists. split; [reflexivity|]. done.
  - intros i selected Hi Hsel Herr Hpos. rewrite Hi. simpl.
    rewrite Hsel, Herr. rewrite bool_decide_eq_true_2 by done.
    assert (Hnot : (0 <? selected_step_position tab)%Z = false)
      by (apply Z.ltb_ge; lia).
    rewrite Hnot. simpl. eexists. split; [reflexivity|].
    done.
Qed.

(** X10. [mapStateToProps] throws exactly when the state has no tab of
    the selected slug, or when the selected step is in error, is not the
    first of its tab, and the state has no step before it. *)
Theorem OutputPane_mapStateToProps_throws (st : state) :
  (exists reason, mapStateToProps st = Throw reason)
  <-> tabs st !! selectedPane_tabSlug st = None
      \/ exists tab i selected,
           tabs st !! selectedPane_tabSlug st = Some tab
           /\ index (step_ids tab) (selected_step_position tab) = Some i
           /\ steps st !! i = Some selected
           /\ stepStatus (Some selected) = Some error
           /\ (0 < selected_step_position tab)%Z
           /\ (index (step_ids tab) (selected_step_position tab - 1)
                 ≫= (fun id => steps st !! id)) = None.
Proof.
  unfold mapStateToProps.
  destruct (tabs st !! selectedPane_tabSlug st) as [tab|] eqn:Htab.
  2:{ split; [by left | by eexists]. }
  cbv zeta. rewrite !selected_step.
  destruct (index (step_ids tab) (selected_step_position tab)
              ≫= (fun id => steps st !! id)) as [selected|] eqn:Hsel.
  - destruct (index (step_ids tab) (selected_step_position tab)) as [i|] eqn:Hi;
      [|done]. simpl in Hsel.
    destruct (bool_decide (stepStatus (Some selected) = Some error)) eqn:Herr.
    + apply bool_decide_eq_true in Herr.
      destruct (0 <? selected_step_position tab)%Z eqn:Hpos; simpl.
      * apply Z.ltb_lt in Hpos.
        destruct (index (step_ids tab) (selected_step_position tab - 1)
                    ≫= (fun id => steps st !! id)) as [previous|] eqn:Hprev.
        -- split; [by intros [reason H]|].
           intros [H|(tab' & i' & s' & Ht & _ & _ & _ & _ & Hnone)]; [done|].
           injection Ht as <-. by rewrite Hprev in Hnone.
        -- split; [|by eexists]. intros _. right.
           by exists tab, i, selected.
      * apply Z.ltb_ge in Hpos. split; [by intros [reason H]|].
        intros [H|(tab' & i' & s' & Ht & _ & _ & _ & Hlt & _)]; [done|].
        injection Ht as <-. lia.
    + apply bool_decide_eq_false in Herr. simpl.
      split; [by intros [reason H]|].
      intros [H|(tab' & i' & s' & Ht & Hi' & Hs' & Herr' & _)]; [done|].
      injection Ht as <-. rewrite Hi in Hi'. injection Hi' as <-.
      rewrite Hsel in Hs'. injection Hs' as <-. done.
  - simpl. split; [by intros [reason H]|].
    intros [H|(tab' & i' & s' & Ht & Hi' & Hs' & _)]; [done|].
    injection Ht as <-. rewrite Hi' in Hsel. simpl in Hsel. congruence.
Qed.

Lemma OutputPane_shows_input_of_errored_step_witness :
  exists p shown,
    mapStateToProps twoErrors = Normal p
    /\ stepForTable p = Some (TheStepBeforeError shown)
    /\ shown = StepBeforeError 1 (Some "step-1") (Value 5%Z) (Some error)
                               None None
    /\ (sp_id <$> step_ p) = Some 2%Z
    /\ (sp_status <$> step_ p) = Some (Some error).
Proof.
  apply (OutputPane_shows_input_of_errored_step twoErrors
           (TabState [1%Z; 2%Z] 1) 2 1
           (erroredStep 2 "step-2") (erroredStep 1 "step-1"));
    reflexivity.
Defined.


Lemma OutputPane_placeholder_witness :
  exists p,
    mapStateToProps notYetThere = Normal p
    /\ stepForTable p
       = Some (TheStep (StepProp (-1) None Undefined (Some false)
                                 (Some busy) Null None None)).
Proof.
  destruct (OutputPane_placeholder notYetThere (TabState [5%Z] 0) eq_refl)
    as (_ & H & _).
  apply (H 5%Z); [reflexivity | reflexivity | discriminate].
Defined.

(** A step whose delta ids are [undefined] and [null] is rendering:
    [!==] tells the two apart. *)
Example stepStatus_null_is_not_undefined :
  stepStatus (Some (Step 1 (Some "step-1") (Value "loadurl") 0 false
                         (Some ok) Undefined Null None None))
  = Some busy
  /\ stepStatus (Some (Step 1 (Some "step-1") (Value "loadurl") 0 false
                            (Some ok) Null Null None None))
     = Some ok.
Proof. split; reflexivity. Qed.

(** [modules['toString']] is the function every object inherits, and
    its [has_html_output] is [undefined]. *)
Example htmlOutput_of_inherited_name :
  htmlOutput ∅ (Value "toString") = None
  /\ htmlOutput ∅ (Value "loadurl") = Some false
  /\ htmlOutput {[ "undefined" := ModuleState true ]} Undefined = Some true.
Proof. vm_compute. repeat split. Qed.

End OutputPaneStateFacts.

(** ** The table-action helpers: selecting columns *)

Module SelectColumnsFacts.
Import JS UpdateTableAction TableActions UpdateTableActionFacts.

Lemma join_cons (separator x y : string) (l : list string) :
  join separator (x :: y :: l) = x +:+ separator +:+ join separator (y :: l).
Proof. reflexivity. Qed.

(** Joining what was split gives the string back. *)
Lemma join_split (separator : ascii) (s : string) :
  join (String separator "") (split separator s) = s.
Proof.
  induction s as [|c s IH]; [done|]. simpl.
  pose proof (split_not_nil separator s) as Hne.
  destruct (decide (c = separator)) as [->|Hc].
  - destruct (split separator s) as [|y l] eqn:E; [done|].
    rewrite join_cons, IH. done.
  - destruct (split separator s) as [|y l] eqn:E; [done|].
    destruct l as [|z l].
    + simpl in *. by rewrite IH.
    + rewrite join_cons in *. rewrite StringFacts.append_cons. by rewrite IH.
Qed.

(** The pieces of a split hold no separator. *)
Lemma split_pieces_without (separator : ascii) (s : string) :
  Forall (without separator) (split separator s).
Proof.
  induction s as [|c s IH]; simpl.
  - by repeat constructor.
  - destruct (decide (c = separator)).
    + by constructor.
    + destruct (split separator s) as [|y l]; [by repeat constructor|].
      apply Forall_cons in IH as [Hy Hl]. by constructor.
Qed.

(** Splitting what was joined gives the pieces back. *)
Lemma split_join (separator : ascii) (l : list string) :
  l <> [] -> Forall (without separator) l ->
  split separator (join (String separator "") l) = l.
Proof.
  induction l as [|x l IH]; [done|]. intros _ Hall.
  apply Forall_cons in Hall as [Hx Hl].
  destruct l as [|y l].
  - simpl. by apply split_without.
  - rewrite join_cons.
    change (String separator "" +:+ ?t) with (String separator t).
    rewrite split_append, (split_without _ x Hx), IH by done. done.
Qed.

Lemma indexOf_Some {A} `{EqDecision A} (l : list A) (x : A) (i : nat) :
  indexOf l x = Some i ->
  exists before after,
    l = before ++ x :: after /\ List.length before = i /\ x ∉ before.
Proof.
  revert i. induction l as [|y l IH]; intros i; simpl; [done|].
  destruct (decide (y = x)) as [->|Hne].
  - intros [= <-]. exists [], l. split; [done|]. split; [done|].
    apply not_elem_of_nil.
  - destruct (indexOf l x) as [j|] eqn:E; [|done]. intros [= <-].
    destruct (IH j eq_refl) as (before & after & -> & Hlen & Hnot).
    exists (y :: before), after. split; [done|]. split; [simpl; lia|].
    apply not_elem_of_cons. by split.
Qed.

Lemma indexOf_None {A} `{EqDecision A} (l : list A) (x : A) :
  indexOf l x = None <-> x ∉ l.
Proof.
  induction l as [|y l IH]; simpl.
  - split; [intros _; apply not_elem_of_nil | done].
  - destruct (decide (y = x)) as [->|Hne].
    + split; [done|]. intros H. exfalso. apply H. left.
    + destruct (indexOf l x) as [j|]; simpl.
      * split; [done|]. intros H. exfalso.
        destruct IH as [_ IH]. apply not_elem_of_cons in H as [_ H].
        by specialize (IH H).
      * split; [|done]. intros _. apply not_elem_of_cons.
        split; [done|]. by apply IH.
Qed.

Lemma splice_one {A} (before after : list A) (x : A) :
  splice (List.length before) 1 (before ++ x :: after) = before ++ after.
Proof.
  unfold splice. rewrite take_app_length. f_equal.
  rewrite drop_app_add'; [|done]. done.
Qed.

Section WithStore.

Variable reducer : state -> action -> state.
Variable findParamValByIdName : wfModule -> string -> option param.

(** X11. In 'keep' mode [updateSelectModule] takes the column out of
    the kept ones. *)
Theorem updateSelectModule_keep_removes_column
    (wfm : wfModule) (columnsId modeId : Z) (columns name : string)
    (others : list string) (s : store) :
  findParamValByIdName wfm "colnames"
    = Some (Param columnsId (PVString columns)) ->
  findParamValByIdName wfm "drop_or_keep"
    = Some (Param modeId (PVNumber selectColumnKeep)) ->
  columns <> EmptyString ->
  ((name ∉ split "," columns) ->
   updateSelectModule reducer findParamValByIdName wfm (name :: others) s
   = Normal s)
  /\ (name ∈ split "," columns ->
      exists before after kept,
        split "," columns = before ++ name :: after
        /\ (name ∉ before)
        /\ updateSelectModule reducer findParamValByIdName wfm
                              (name :: others) s
           = Normal
               (dispatch reducer (SetParamValueByIdName (wfm_id wfm) "drop_or_keep"
                            (PVNumber selectColumnKeep))
                  (dispatch reducer (SetParamValueByIdName (wfm_id wfm) "colnames"
                               (PVString kept)) s))
        /\ (before ++ after <> [] -> split "," kept = before ++ after)
        /\ (before ++ after = [] -> kept = EmptyString)).
Proof.
  intros Hcols Hmode Hne.
  unfold TableActions.updateSelectModule. rewrite Hcols, Hmode. simpl.
  rewrite bool_decide_eq_false_2 by done. simpl.
  split.
  - intros Hnotin. apply indexOf_None in Hnotin. by rewrite Hnotin.
  - intros Hin.
    destruct (indexOf (split "," columns) name) as [i|] eqn:E.
    2:{ apply indexOf_None in E. done. }
    destruct (indexOf_Some _ _ _ E) as (before & after & Hsplit & Hlen & Hnot).
    exists before, after, (join "," (before ++ after)).
    split; [done|]. split; [done|].
    rewrite Hsplit, <- Hlen, splice_one. split; [done|].
    split.
    + intros Hrest. apply split_join; [done|].
      pose proof (split_pieces_without "," columns) as Hall.
      rewrite Hsplit in Hall.
      apply Forall_app in Hall as [Hb Ha].
      apply Forall_cons in Ha as [_ Ha]. by apply Forall_app.
    + intros ->. done.
Qed.

(** X12. In 'drop' mode [updateSelectModule] adds the column once; on
    an empty selection it starts one in 'drop' mode; and in any other
    mode it does nothing. *)
Theorem updateSelectModule_drop_adds_column_once
    (wfm : wfModule) (columnsId modeId : Z) (columns name : string)
    (mode : paramValue) (others : list string) (s : store) :
  findParamValByIdName wfm "colnames"
    = Some (Param columnsId (PVString columns)) ->
  findParamValByIdName wfm "drop_or_keep" = Some (Param modeId mode) ->
  let result :=
    updateSelectModule reducer findParamValByIdName wfm (name :: others) s in
  (columns <> EmptyString -> mode = PVNumber selectColumnDrop ->
   name ∈ split "," columns -> result = Normal s)
  /\ (columns <> EmptyString -> mode = PVNumber selectColumnDrop ->
      name ∉ split "," columns ->
      result = Normal (dispatch reducer
                        (SetParamValueByIdName (wfm_id wfm) "colnames"
                           (PVString (columns +:+ "," +:+ name))) s))
  /\ (columns = EmptyString ->
      result
      = Normal
          (dispatch reducer (SetParamValueByIdName (wfm_id wfm) "drop_or_keep"
                       (PVNumber selectColumnDrop))
             (dispatch reducer (SetParamValueByIdName (wfm_id wfm) "colnames"
                          (PVString name)) s)))
  /\ (columns <> EmptyString ->
      mode <> PVNumber selectColumnDrop ->
      mode <> PVNumber selectColumnKeep ->
      result = Normal s).
Proof.
  intros Hcols Hmode result. subst result.
  unfold TableActions.updateSelectModule. rewrite Hcols. simpl.
  split; [|split; [|split]].
  - intros Hne -> Hin. rewrite Hmode. simpl.
    rewrite bool_decide_eq_false_2 by done. simpl.
    by rewrite bool_decide_eq_true_2.
  - intros Hne -> Hnotin. rewrite Hmode. simpl.
    rewrite bool_decide_eq_false_2 by done. simpl.
    by rewrite bool_decide_eq_false_2.
  - intros ->. done.
  - intros Hne Hnd Hnk. rewrite Hmode. simpl.
    rewrite bool_decide_eq_false_2 by done. simpl.
    by rewrite !bool_decide_eq_false_2.
Qed.

End WithStore.

Lemma updateSelectModule_keep_removes_column_witness :
  exists before after kept,
    split "," "a,b,c" = before ++ "b" :: after
    /\ ("b" ∉ before)
    /\ updateSelectModule sampleReducer findKeep (WfModule 11 (Some 4%Z))
                          ["b"] sampleStore
       = Normal
           (dispatch sampleReducer
              (SetParamValueByIdName 11 "drop_or_keep"
                 (PVNumber selectColumnKeep))
              (dispatch sampleReducer
                 (SetParamValueByIdName 11 "colnames" (PVString kept))
                 sampleStore))
    /\ (before ++ after <> [] -> split "," kept = before ++ after)
    /\ (before ++ after = [] -> kept = EmptyString).
Proof.
  destruct (updateSelectModule_keep_removes_column sampleReducer findKeep
              (WfModule 11 (Some 4%Z)) 1 2 "a,b,c" "b" [] sampleStore
              eq_refl eq_refl) as [_ H]; [discriminate|].
  apply H. vm_compute. right. left.
Defined.

Lemma updateSelectModule_drop_adds_column_once_witness :
  updateSelectModule sampleReducer findDrop (WfModule 11 (Some 4%Z))
                     ["b"] sampleStore
  = Normal sampleStore.
Proof.
  destruct (updateSelectModule_drop_adds_column_once sampleReducer findDrop
              (WfModule 11 (Some 4%Z)) 1 2 "a,b,c" "b"
              (PVNumber selectColumnDrop) [] sampleStore eq_refl eq_refl)
    as [H _].
  apply H; [discriminate | reflexivity |]. vm_compute. right. left.
Defined.

End SelectColumnsFacts.

(** ** The table-action helpers: editing cells and renaming columns *)

Module EditAndRenameFacts.
Import JS UpdateTableAction TableActions.

Lemma findIndex_Some {A} (p : A -> bool) (l : list A) (i : nat) :
  findIndex p l = Some i ->
  exists before x after,
    l = before ++ x :: after /\ List.length before = i
    /\ Forall (fun y => p y = false) before /\ p x = true.
Proof.
  revert i. induction l as [|y l IH]; intros i; simpl; [done|].
  destruct (p y) eqn:Hy.
  - intros [= <-]. by exists [], y, l.
  - destruct (findIndex p l) as [j|] eqn:E; [|done]. intros [= <-].
    destruct (IH j eq_refl) as (before & x & after & -> & Hlen & Hall & Hx).
    exists (y :: before), x, after.
    split; [done|]. split; [simpl; lia|]. split; [by constructor|done].
Qed.

Lemma findIndex_first {A} (p : A -> bool) (before after : list A) (x : A) :
  Forall (fun y => p y = false) before -> p x = true ->
  findIndex p (before ++ x :: after) = Some (List.length before).
Proof.
  intros Hall Hx. induction Hall as [|y before Hy _ IH]; simpl.
  - by rewrite Hx.
  - by rewrite Hy, IH.
Qed.

Lemma findIndex_None {A} (p : A -> bool) (l : list A) :
  Forall (fun y => p y = false) l -> findIndex p l = None.
Proof.
  induction 1 as [|y l Hy _ IH]; simpl; [done|]. by rewrite Hy, IH.
Qed.

(** What [splice(idx, idx + 1)] keeps. *)
Lemma splice_from_index {A} (before after : list A) (x : A) :
  splice (List.length before) (List.length before + 1) (before ++ x :: after)
  = before ++ drop (List.length before) after.
Proof.
  unfold splice. rewrite take_app_length. f_equal.
  rewrite drop_app_add'; [|done].
  replace (List.length before + 1) with (1 + List.length before) by lia.
  by rewrite <- drop_drop.
Qed.

Section WithStore.

Variable reducer : state -> action -> state.
Variable JSON_parse_edits : string -> option (list edit).
Variable JSON_stringify_edits : list (option edit) -> string.
Variable find : UpdateTableAction.wfModule -> string -> option paramVal.

(** X13. [addEditToEditCellsModule] appends the edit.  A first
    recorded edit of the same cell is taken out, and with it as many of
    the edits that follow it as there are edits before it. *)
Theorem addEditToEditCellsModule_replaces_edit
    (wfm : UpdateTableAction.wfModule) (param : paramVal)
    (edits : list edit) (edit : TableActions.edit)
    (others : list TableActions.edit) (s : store) :
  find wfm "celledits" = Some param ->
  pv_value param <> EmptyString ->
  JSON_parse_edits (pv_value param) = Some edits ->
  let result :=
    addEditToEditCellsModule reducer JSON_parse_edits JSON_stringify_edits
                             wfm find (edit :: others) s in
  let dispatches (kept : list TableActions.edit) :=
    result
    = Normal (dispatch reducer
                (SetParamValue (pv_id param)
                   (JSON_stringify_edits (Some <$> kept ++ [edit]))) s) in
  (Forall (fun e => same_cell e edit = false) edits -> dispatches edits)
  /\ (forall before previous after,
        edits = before ++ previous :: after ->
        Forall (fun e => same_cell e edit = false) before ->
        same_cell previous edit = true ->
        dispatches (before ++ drop (List.length before) after)).
Proof.
  intros Hfind Hvalue Hparse result dispatches. subst result dispatches.
  unfold addEditToEditCellsModule. rewrite Hfind. cbv zeta.
  rewrite bool_decide_eq_false_2 by done. simpl.
  unfold keptEdits. rewrite Hparse.
  split.
  - intros Hnone. rewrite fmap_app.
    destruct edits as [|e edits]; [done|].
    by rewrite (findIndex_None _ _ Hnone).
  - intros before previous after -> Hbefore Hprev. rewrite fmap_app.
    rewrite (findIndex_first _ before after previous Hbefore Hprev).
    rewrite splice_from_index.
    by destruct before.
Qed.

(** X14. With no recorded edits, or with a value that does not parse,
    the recorded edits become the new edit alone. *)
Theorem addEditToEditCellsModule_starts_over
    (wfm : UpdateTableAction.wfModule) (param : paramVal)
    (edit : TableActions.edit) (others : list TableActions.edit) (s : store) :
  find wfm "celledits" = Some param ->
  pv_value param = EmptyString
  \/ JSON_parse_edits (pv_value param) = None ->
  addEditToEditCellsModule reducer JSON_parse_edits JSON_stringify_edits
                           wfm find (edit :: others) s
  = Normal (dispatch reducer
              (SetParamValue (pv_id param)
                 (JSON_stringify_edits [Some edit])) s).
Proof.
  intros Hfind Hvalue.
  unfold addEditToEditCellsModule. rewrite Hfind. cbv zeta.
  destruct Hvalue as [Hempty|Hparse].
  - by rewrite bool_decide_eq_true_2.
  - unfold keptEdits. rewrite Hparse. by destruct (bool_decide _).
Qed.

End WithStore.

(** *** Renaming *)

Lemma renameFirst_None (prev new : string) (o : entries) :
  Forall (fun kv => kv.2 <> prev) o -> renameFirst prev new o = None.
Proof.
  induction 1 as [|[k v] o Hv _ IH]; simpl; [done|].
  simpl in Hv. rewrite decide_False by done. by rewrite IH.
Qed.

Lemma replace_absent (k v : string) (o : entries) :
  k ∉ o.*1 ->
  (fun kv : string * string => if decide (kv.1 = k) then (k, v) else kv) <$> o
  = o.
Proof.
  induction o as [|[k' v'] o IH]; csimpl; [done|].
  intros Hnot. apply not_elem_of_cons in Hnot as [Hne Hnot].
  rewrite decide_False by done. by rewrite IH.
Qed.

Lemma renameFirst_replaced (a b c : string) (o : entries) :
  NoDup o.*1 -> a ∈ o.*1 -> Forall (fun kv => kv.2 <> b) o ->
  renameFirst b c
    ((fun kv : string * string => if decide (kv.1 = a) then (a, b) else kv)
       <$> o)
  = Some ((fun kv : string * string =>
             if decide (kv.1 = a) then (a, c) else kv) <$> o).
Proof.
  induction o as [|[k v] o IH]; csimpl; intros Hnd Hin Hall.
  { by apply elem_of_nil in Hin. }
  apply NoDup_cons in Hnd as [Hk Hnd].
  apply Forall_cons in Hall as [Hv Hall]. simpl in Hv.
  destruct (decide (k = a)) as [->|Hne]; csimpl.
  - rewrite decide_True by done.
    by rewrite !replace_absent.
  - rewrite decide_False by done.
    apply elem_of_cons in Hin as [Hin|Hin]; [done|].
    by rewrite IH.
Qed.

Lemma renameFirst_created (a b c : string) (o : entries) :
  Forall (fun kv => kv.2 <> b) o ->
  renameFirst b c (entries_create a b o) = Some (entries_create a c o).
Proof.
  induction 1 as [|[k v] o Hv _ IH]; simpl.
  - by rewrite decide_True.
  - destruct (comes_before a k); simpl.
    + by rewrite decide_True.
    + simpl in Hv. rewrite decide_False by done. by rewrite IH.
Qed.

Lemma entries_get_set (k v : string) (o : entries) :
  k <> "__proto__" ->
  entries_get k (entries_set k v o) = Some v.
Proof.
  intros Hproto. unfold entries_get, entries_set.
  rewrite (bool_decide_eq_false_2 (k = "__proto__")) by done.
  destruct (bool_decide (k ∈ o.*1)) eqn:E.
  - apply bool_decide_eq_true in E.
    induction o as [|[k' v'] o IH]; [by apply elem_of_nil in E|]. simpl.
    destruct (decide (k' = k)) as [->|Hne]; simpl.
    + by rewrite bool_decide_eq_true_2.
    + rewrite bool_decide_eq_false_2 by done.
      apply elem_of_cons in E as [E|E]; [done|]. by apply IH.
  - apply bool_decide_eq_false in E.
    induction o as [|[k' v'] o IH]; simpl.
    + by rewrite bool_decide_eq_true_2.
    + apply not_elem_of_cons in E as [Hne E].
      destruct (comes_before k k'); simpl.
      * by rewrite bool_decide_eq_true_2.
      * rewrite bool_decide_eq_false_2 by done. by apply IH.
Qed.

(** Renaming a name no entry has as its value records the rename under
    the name itself. *)
Lemma renameEntries_fresh (a b : string) (o : entries) :
  Forall (fun kv => kv.2 <> a) o ->
  renameEntries (RenameInfo a b) o = entries_set a b o.
Proof.
  intros H. unfold renameEntries. simpl. by rewrite renameFirst_None.
Qed.

(** A column called [__proto__] cannot be renamed: the entries stay as
    they are. *)
Lemma renameEntries_proto (b : string) (o : entries) :
  "__proto__" ∉ o.*1 ->
  Forall (fun kv => kv.2 <> "__proto__") o ->
  renameEntries (RenameInfo "__proto__" b) o = o.
Proof.
  intros Hnot Hall. rewrite renameEntries_fresh by done.
  unfold entries_set. by rewrite bool_decide_eq_false_2.
Qed.

(** X15. Renaming a column, whose name is not [__proto__], and then
    renaming it again records one rename, from the first name to the
    last. *)
Theorem renameEntries_follows_renamed_column (a b c : string) (o : entries) :
  a <> "__proto__" ->
  NoDup o.*1 ->
  Forall (fun kv => kv.2 <> a /\ kv.2 <> b) o ->
  renameEntries (RenameInfo b c) (renameEntries (RenameInfo a b) o)
  = renameEntries (RenameInfo a c) o
  /\ entries_get a (renameEntries (RenameInfo a c) o) = Some c
  /\ renameEntries (RenameInfo a c) o = entries_set a c o.
Proof.
  intros Hproto Hnd Hall.
  assert (Ha : Forall (fun kv : string * string => kv.2 <> a) o).
  { eapply Forall_impl; [exact Hall|]. by intros kv [H _]. }
  assert (Hb : Forall (fun kv : string * string => kv.2 <> b) o).
  { eapply Forall_impl; [exact Hall|]. by intros kv [_ H]. }
  rewrite (renameEntries_fresh a b o Ha), (renameEntries_fresh a c o Ha).
  split; [|split; [by apply entries_get_set|done]].
  unfold renameEntries at 1. simpl. unfold entries_set.
  rewrite !(bool_decide_eq_false_2 (a = "__proto__")) by done.
  destruct (bool_decide (a ∈ o.*1)) eqn:E.
  - apply bool_decide_eq_true in E. by rewrite renameFirst_replaced.
  - by rewrite renameFirst_created.
Qed.

Section Renaming.

Variable reducer : state -> action -> state.
Variable JSON_parse_entries : string -> parsedEntries.
Variable JSON_stringify_entries : entries -> string.
Variable find : UpdateTableAction.wfModule -> string -> option paramVal.

(** A value that parses to [null], or to anything else that is no
    object, makes [updateRenameModule] throw; nothing is dispatched. *)
Lemma updateRenameModule_not_an_object
    (wfm : UpdateTableAction.wfModule) (param : paramVal)
    (info : renameInfo) (s : store) :
  find wfm "rename-entries" = Some param ->
  pv_value param <> EmptyString ->
  JSON_parse_entries (pv_value param) = NotAnObject ->
  updateRenameModule reducer JSON_parse_entries JSON_stringify_entries
                     wfm find info s
  = Throw "TypeError".
Proof.
  intros Hfind Hne Hparse. unfold updateRenameModule. rewrite Hfind.
  cbv zeta. rewrite bool_decide_eq_false_2 by done. simpl.
  by rewrite Hparse.
Qed.

(** X16. [updateRenameModule], called on a step that holds the entries
    it wrote itself, follows the renamed column, whose name is not
    [__proto__]: after A to B and B to C the entries say A to C. *)
Theorem updateRenameModule_twice
    (wfm wfm' : UpdateTableAction.wfModule) (param param' : paramVal)
    (a b c : string) (o : entries) (s s' : store) :
  a <> "__proto__" ->
  find wfm "rename-entries" = Some param ->
  (pv_value param = EmptyString /\ o = [])
  \/ (pv_value param <> EmptyString
      /\ (JSON_parse_entries (pv_value param) = AnObject o
          \/ (JSON_parse_entries (pv_value param) = SyntaxError
              /\ o = []))) ->
  NoDup o.*1 ->
  Forall (fun kv => kv.2 <> a /\ kv.2 <> b) o ->
  find wfm' "rename-entries" = Some param' ->
  pv_value param' <> EmptyString ->
  JSON_parse_entries (pv_value param')
    = AnObject (renameEntries (RenameInfo a b) o) ->
  updateRenameModule reducer JSON_parse_entries JSON_stringify_entries
                     wfm find (RenameInfo a b) s
  = Normal (dispatch reducer
              (SetParamValue (pv_id param)
                 (JSON_stringify_entries (renameEntries (RenameInfo a b) o)))
              s)
  /\ updateRenameModule reducer JSON_parse_entries JSON_stringify_entries
                        wfm' find (RenameInfo b c) s'
     = Normal (dispatch reducer
                 (SetParamValue (pv_id param')
                    (JSON_stringify_entries (entries_set a c o))) s').
Proof.
  intros Hproto Hfind Hvalue Hnd Hall Hfind' Hvalue' Hparse'.
  destruct (renameEntries_follows_renamed_column a b c o Hproto Hnd Hall)
    as (Hchain & _ & Hset).
  unfold updateRenameModule. rewrite Hfind, Hfind'. cbv zeta. split.
  - destruct Hvalue as [[-> ->]|[Hne [Hparse|[Hparse ->]]]].
    + by rewrite bool_decide_eq_true_2.
    + rewrite bool_decide_eq_false_2 by done. simpl. by rewrite Hparse.
    + rewrite bool_decide_eq_false_2 by done. simpl. by rewrite Hparse.
  - rewrite bool_decide_eq_false_2 by done. simpl.
    rewrite Hparse'. by rewrite Hchain, Hset.
Qed.

End Renaming.


(** The second of three edits is edited again: the third one goes with
    it. *)
Lemma addEditToEditCellsModule_replaces_edit_witness :
  addEditToEditCellsModule sampleReducer parseEdits stringifyEdits
    editedStep findByIdName [Edit 1 "b" "9"] sampleStore
  = Normal (dispatch sampleReducer
              (SetParamValue 70
                 (stringifyEdits [Some (Edit 0 "a" "1");
                                  Some (Edit 1 "b" "9")]))
              sampleStore).
Proof.
  destruct (addEditToEditCellsModule_replaces_edit sampleReducer parseEdits
              stringifyEdits findByIdName editedStep
              (ParamVal 70 "celledits" "three edits") threeEdits
              (Edit 1 "b" "9") [] sampleStore eq_refl)
    as [_ H]; [discriminate | reflexivity |].
  apply (H [Edit 0 "a" "1"] (Edit 1 "b" "2") [Edit 2 "c" "3"]).
  - reflexivity.
  - repeat constructor.
  - reflexivity.
Defined.

Lemma addEditToEditCellsModule_starts_over_witness :
  addEditToEditCellsModule sampleReducer parseEdits stringifyEdits
    (WfModuleState 7 [ParamVal 70 "celledits" "no json"]) findByIdName
    [Edit 1 "b" "9"] sampleStore
  = Normal (dispatch sampleReducer
              (SetParamValue 70 (stringifyEdits [Some (Edit 1 "b" "9")]))
              sampleStore).
Proof.
  apply (addEditToEditCellsModule_starts_over sampleReducer parseEdits
           stringifyEdits findByIdName
           (WfModuleState 7 [ParamVal 70 "celledits" "no json"])
           (ParamVal 70 "celledits" "no json")).
  - reflexivity.
  - right. reflexivity.
Defined.

(** Renaming the column [__proto__] records nothing, and a value that
    parses to [null] makes [updateRenameModule] throw. *)
Example rename_proto_and_null :
  renameEntries (RenameInfo "__proto__" "B") [("X", "Y")] = [("X", "Y")]
  /\ updateRenameModule sampleReducer parseEntries stringifyEntries
       (WfModuleState 7 [ParamVal 71 "rename-entries" "null"])
       findByIdName (RenameInfo "A" "B") sampleStore
     = Throw "TypeError".
Proof. split; reflexivity. Qed.

Lemma renameEntries_follows_renamed_column_witness :
  renameEntries (RenameInfo "B" "C")
                (renameEntries (RenameInfo "A" "B") [("X", "Y")])
  = renameEntries (RenameInfo "A" "C") [("X", "Y")]
  /\ entries_get "A" (renameEntries (RenameInfo "A" "C") [("X", "Y")])
     = Some "C"
  /\ renameEntries (RenameInfo "A" "C") [("X", "Y")]
     = entries_set "A" "C" [("X", "Y")].
Proof.
  apply (renameEntries_follows_renamed_column "A" "B" "C" [("X", "Y")]).
  - discriminate.
  - repeat constructor. apply not_elem_of_nil.
  - repeat constructor; discriminate.
Defined.

Lemma updateRenameModule_twice_witness :
  updateRenameModule sampleReducer parseEntries stringifyEntries
                     editedStep findByIdName (RenameInfo "A" "B") sampleStore
  = Normal (dispatch sampleReducer (SetParamValue 71 "A>B") sampleStore)
  /\ updateRenameModule sampleReducer parseEntries stringifyEntries
                        renamedStep findByIdName (RenameInfo "B" "C")
                        sampleStore
     = Normal (dispatch sampleReducer (SetParamValue 71 "A>C") sampleStore).
Proof.
  apply (updateRenameModule_twice sampleReducer parseEntries stringifyEntries
           findByIdName editedStep renamedStep
           (ParamVal 71 "rename-entries" "")
           (ParamVal 71 "rename-entries" "A to B") "A" "B" "C" []).
  - discriminate.
  - reflexivity.
  - left. split; reflexivity.
  - constructor.
  - constructor.
  - reflexivity.
  - discriminate.
  - reflexivity.
Defined.

End EditAndRenameFacts.

(** ** The table-action helpers: finding the step to update *)

Module FindModuleFacts.
Import JS TableActions.

Lemma indexOf_lookup {A} `{EqDecision A} (l : list A) (x : A) (n : nat) :
  indexOf l x = Some n -> l !! n = Some x.
Proof.
  intros H.
  destruct (SelectColumnsFacts.indexOf_Some l x n H)
    as (before & after & -> & <- & _).
  by rewrite list_lookup_middle.
Qed.

(** With a module stored for each step of the workflow,
    [findModuleWithIds] looks at the focused step and then at the next
    one. *)
Lemma findModuleWithIds_unfold (st : state) (wf : workflowState)
    (focusWfModuleId moduleId : Z) :
  workflow st = Some wf ->
  Forall (fun id => is_Some (wfModules st !! id)) (wf_modules wf) ->
  findModuleWithIds st focusWfModuleId moduleId
  = Normal
      match indexOf (wf_modules wf) focusWfModuleId with
      | None => None
      | Some n =>
          if runsModule st moduleId focusWfModuleId
          then wfModules st !! focusWfModuleId
          else match wf_modules wf !! (n + 1) with
               | Some next =>
                   if runsModule st moduleId next
                   then wfModules st !! next else None
               | None => None
               end
      end.
Proof.
  intros Hwf Hall. unfold findModuleWithIds. rewrite Hwf.
  destruct (mapM (fun id => wfModules st !! id) (wf_modules wf))
    as [modules|] eqn:Hmap.
  2:{ apply mapM_None in Hmap. apply Exists_exists in Hmap as [id [Hin Hn]].
      rewrite Forall_forall in Hall. destruct (Hall id Hin) as [m Hm].
      congruence. }
  apply mapM_Some in Hmap. cbv zeta.
  destruct (indexOf (wf_modules wf) focusWfModuleId) as [n|] eqn:Hidx; [|done].
  apply indexOf_lookup in Hidx.
  assert (Hzip : forall i id,
    wf_modules wf !! i = Some id ->
    zip_with (fun id m => if decide (module_version_module m = Some moduleId)
                          then Some id else None) (wf_modules wf) modules !! i
    = Some (if runsModule st moduleId id then Some id else None)).
  { intros i id Hi.
    destruct (Forall2_lookup_l _ _ _ _ _ Hmap Hi) as (m & Hm & Hst).
    rewrite lookup_zip_with, Hi. simpl. rewrite Hm. simpl.
    unfold runsModule. rewrite Hst.
    by destruct (decide (module_version_module m = Some moduleId));
      [rewrite bool_decide_eq_true_2 | rewrite bool_decide_eq_false_2]. }
  rewrite (Hzip n focusWfModuleId Hidx).
  destruct (runsModule st moduleId focusWfModuleId); [done|].
  destruct (wf_modules wf !! (n + 1)) as [next|] eqn:Hnext.
  - rewrite (Hzip (n + 1) next Hnext).
    by destruct (runsModule st moduleId next).
  - rewrite lookup_zip_with, Hnext. done.
Qed.

(** X17. The step [findModuleWithIds] returns runs the wanted module
    and is the focused step or, when the focused step runs another
    module, the step right after it; without the focused step in the
    workflow it returns none. *)
Theorem findModuleWithIds_focus_or_next (st : state) (wf : workflowState)
    (focusWfModuleId moduleId : Z) :
  workflow st = Some wf ->
  Forall (fun id => is_Some (wfModules st !! id)) (wf_modules wf) ->
  (forall found,
      findModuleWithIds st focusWfModuleId moduleId = Normal (Some found) ->
      module_version_module found = Some moduleId
      /\ (wfModules st !! focusWfModuleId = Some found
          \/ exists n next,
               indexOf (wf_modules wf) focusWfModuleId = Some n
               /\ wf_modules wf !! (n + 1) = Some next
               /\ wfModules st !! next = Some found
               /\ runsModule st moduleId focusWfModuleId = false))
  /\ (focusWfModuleId ∈ wf_modules wf ->
      runsModule st moduleId focusWfModuleId = true ->
      findModuleWithIds st focusWfModuleId moduleId
      = Normal (wfModules st !! focusWfModuleId))
  /\ (focusWfModuleId ∉ wf_modules wf ->
      findModuleWithIds st focusWfModuleId moduleId = Normal None).
Proof.
  intros Hwf Hall. rewrite (findModuleWithIds_unfold st wf) by done.
  split; [|split].
  - intros found Hfound. injection Hfound as Hfound.
    destruct (indexOf (wf_modules wf) focusWfModuleId) as [n|] eqn:Hidx;
      [|done].
    destruct (runsModule st moduleId focusWfModuleId) eqn:Hfocus.
    + split; [|by left]. unfold runsModule in Hfocus. rewrite Hfound in Hfocus.
      by apply bool_decide_eq_true in Hfocus.
    + destruct (wf_modules wf !! (n + 1)) as [next|] eqn:Hnext; [|done].
      destruct (runsModule st moduleId next) eqn:Hrun; [|done].
      split.
      * unfold runsModule in Hrun. rewrite Hfound in Hrun.
        by apply bool_decide_eq_true in Hrun.
      * right. by exists n, next.
  - intros Hin Hrun.
    destruct (indexOf (wf_modules wf) focusWfModuleId) as [n|] eqn:Hidx.
    + by rewrite Hrun.
    + apply SelectColumnsFacts.indexOf_None in Hidx. done.
  - intros Hnotin. apply SelectColumnsFacts.indexOf_None in Hnotin.
    by rewrite Hnotin.
Qed.

(** X18. [findModuleWithIds] throws exactly when the state has no
    workflow or the workflow lists a step the state has no module
    for. *)
Theorem findModuleWithIds_throws (st : state) (focusWfModuleId moduleId : Z) :
  (exists reason,
      findModuleWithIds st focusWfModuleId moduleId = Throw reason)
  <-> workflow st = None
      \/ exists wf id,
           workflow st = Some wf
           /\ id ∈ wf_modules wf
           /\ wfModules st !! id = None.
Proof.
  destruct (workflow st) as [wf|] eqn:Hwf.
  2:{ unfold findModuleWithIds. rewrite Hwf. split; [by left | by eexists]. }
  destruct (decide (Forall (fun id => is_Some (wfModules st !! id))
                           (wf_modules wf))) as [Hall|Hnot].
  - rewrite (findModuleWithIds_unfold st wf) by done.
    split; [by intros [reason H]|].
    intros [H|(wf' & id & Hwf' & Hin & Hnone)]; [done|].
    injection Hwf' as <-. rewrite Forall_forall in Hall.
    destruct (Hall id Hin) as [m Hm]. congruence.
  - apply not_Forall_Exists in Hnot; [|intros id; apply _].
    apply Exists_exists in Hnot as [id [Hin Hnone]]. simpl in Hnone.
    split.
    + intros _. right. exists wf, id. split; [done|]. split; [done|].
      destruct (wfModules st !! id) as [m|]; [|done].
      exfalso. apply Hnone. by eexists.
    + intros _. unfold findModuleWithIds. rewrite Hwf.
      assert (Hmap : mapM (fun id => wfModules st !! id) (wf_modules wf) = None).
      { apply mapM_None, Exists_exists. exists id. split; [done|].
        destruct (wfModules st !! id) as [m|]; [|done].
        exfalso. apply Hnone. by eexists. }
      rewrite Hmap. by eexists.
Qed.

Lemma findModuleWithIds_focus_or_next_witness :
  findModuleWithIds sampleState 10 4 = Normal (Some (WfModule 11 (Some 4%Z)))
  /\ findModuleWithIds sampleState 11 4
     = Normal (Some (WfModule 11 (Some 4%Z)))
  /\ findModuleWithIds sampleState 99 4 = Normal None.
Proof.
  destruct (findModuleWithIds_focus_or_next sampleState
              (WorkflowState [10%Z; 11%Z; 12%Z]) 11 4 eq_refl)
    as (_ & Hfocus & _).
  { repeat constructor; by eexists. }
  destruct (findModuleWithIds_focus_or_next sampleState
              (WorkflowState [10%Z; 11%Z; 12%Z]) 99 4 eq_refl)
    as (_ & _ & Habsent).
  { repeat constructor; by eexists. }
  split; [reflexivity|]. split.
  - apply Hfocus; [|reflexivity]. simpl. right. left.
  - apply Habsent. simpl. intros H.
    repeat (apply elem_of_cons in H as [H|H]; [discriminate H|]).
    by apply elem_of_nil in H.
Defined.

End FindModuleFacts.

(** ** The table-action helpers: updateTableActionModule *)

Module UpdateTableActionModuleFacts.
Import JS TableActions FindModuleFacts.

Section WithStore.

Variable reducer : state -> action -> state.
Variable Params : Type.
Variable updateModuleMapping :
  string -> option (wfModule -> Params -> store -> completion store).

(** X19. A module that is not imported, or whose id is 0, gives an
    alert; nothing is dispatched and no update function runs.  The name
    of a module that is not imported must not be one that objects
    inherit, such as [toString]: for such a name the lookup finds the
    inherited function and there is no alert. *)
Theorem updateTableActionModule_not_imported
    (wfModuleId : Z) (idName : string) (forceNewModule : bool)
    (params : Params) (s : store) :
  (updateTableModuleIds (getState s) !! idName = None
   /\ idName ∉ objectPrototypeNames)
  \/ updateTableModuleIds (getState s) !! idName = Some 0%Z ->
  updateTableActionModule reducer Params updateModuleMapping
                          wfModuleId idName forceNewModule params s
  = Normal (Alerted Params ("Module '" +:+ idName +:+ "' not imported.")).
Proof.
  intros H. unfold updateTableActionModule, findModuleIdByIdName. cbv zeta.
  by destruct H as [[-> _] | ->].
Qed.

(** X20. When a new step is needed (it is forced, or neither the
    focused step nor the one after it runs the module), the one action
    dispatched adds the module right after the focused step, and at the
    top when the focused step is not in the workflow. *)
Theorem updateTableActionModule_adds_after_focus
    (wf : workflowState) (wfModuleId moduleId : Z) (idName : string)
    (forceNewModule : bool) (params : Params) (s : store) :
  findModuleIdByIdName (getState s) idName = Some moduleId ->
  workflow (getState s) = Some wf ->
  Forall (fun id => is_Some (wfModules (getState s) !! id)) (wf_modules wf) ->
  forceNewModule = true
  \/ (runsModule (getState s) moduleId wfModuleId = false
      /\ forall n next,
           indexOf (wf_modules wf) wfModuleId = Some n ->
           wf_modules wf !! (n + 1) = Some next ->
           runsModule (getState s) moduleId next = false) ->
  let index :=
    match indexOf (wf_modules wf) wfModuleId with
    | Some n => (Z.of_nat n + 1)%Z
    | None => 0%Z
    end in
  updateTableActionModule reducer Params updateModuleMapping
                          wfModuleId idName forceNewModule params s
  = Normal (Adding Params (dispatch reducer (AddModule moduleId index) s)
                   idName params).
Proof.
  intros Hid Hwf Hall Hneed index. subst index.
  unfold updateTableActionModule. cbv zeta. rewrite Hid.
  rewrite (findModuleWithIds_unfold _ wf) by done. rewrite Hwf.
  destruct Hneed as [-> | [Hfocus Hnext]].
  - destruct (indexOf (wf_modules wf) wfModuleId) as [n|]; [|done].
    by repeat case_match.
  - rewrite Hfocus.
    destruct (indexOf (wf_modules wf) wfModuleId) as [n|] eqn:Hidx;
      [|by destruct forceNewModule].
    destruct (wf_modules wf !! (n + 1)) as [next|] eqn:Hn;
      [|by destruct forceNewModule].
    rewrite (Hnext n next eq_refl Hn). by destruct forceNewModule.
Qed.

(** X21. When the focused step runs the module and no new step is
    forced, that step is updated, after it has been selected if it was
    not: at most one [SetSelectedWfModule] comes before what the update
    dispatches, and no module is added. *)
Theorem updateTableActionModule_reuses_focus
    (wf : workflowState) (wfModuleId moduleId : Z) (n : nat)
    (existing : wfModule) (idName : string) (params : Params) (s : store) :
  findModuleIdByIdName (getState s) idName = Some moduleId ->
  workflow (getState s) = Some wf ->
  Forall (fun id => is_Some (wfModules (getState s) !! id)) (wf_modules wf) ->
  indexOf (wf_modules wf) wfModuleId = Some n ->
  wfModules (getState s) !! wfModuleId = Some existing ->
  wfm_id existing = wfModuleId ->
  module_version_module existing = Some moduleId ->
  let selected :=
    if decide (selected_wf_module (getState s) = Some (Z.of_nat n))
    then s
    else dispatch reducer (SetSelectedWfModule (Z.of_nat n)) s in
  updateTableActionModule reducer Params updateModuleMapping
                          wfModuleId idName false params s
  = Normal (Reused Params
              (callUpdate Params updateModuleMapping idName params
                          existing selected)).
Proof.
  intros Hid Hwf Hall Hidx Hexisting Hself Hrun selected. subst selected.
  unfold updateTableActionModule. cbv zeta. rewrite Hid.
  rewrite (findModuleWithIds_unfold _ wf) by done. rewrite Hidx.
  assert (Hruns : runsModule (getState s) moduleId wfModuleId = true).
  { unfold runsModule. rewrite Hexisting. by apply bool_decide_eq_true. }
  rewrite Hruns, Hexisting.
  unfold ensureSelectedWfModule. rewrite Hwf, Hself, Hidx.
  destruct (decide (selected_wf_module (getState s) = Some (Z.of_nat n)))
    as [Hsel|Hsel].
  - rewrite decide_False; [done|]. intros H. by apply H.
  - rewrite decide_True; [done|]. intros H. by apply Hsel.
Qed.

End WithStore.

Lemma updateTableActionModule_not_imported_witness :
  updateTableActionModule sampleReducer unit sampleMapping
                          10 "broken" false tt sampleStore
  = Normal (Alerted unit "Module 'broken' not imported.").
Proof.
  apply (updateTableActionModule_not_imported sampleReducer unit sampleMapping
           10 "broken" false tt sampleStore).
  right. reflexivity.
Defined.

(** Sorting from step 12: no step runs module 9 there, so it is added
    at index 3. *)
Lemma updateTableActionModule_adds_after_focus_witness :
  updateTableActionModule sampleReducer unit sampleMapping
                          12 "sort-from-table" false tt sampleStore
  = Normal (Adding unit (dispatch sampleReducer (AddModule 9 3) sampleStore)
                   "sort-from-table" tt).
Proof.
  apply (updateTableActionModule_adds_after_focus sampleReducer unit
           sampleMapping (WorkflowState [10%Z; 11%Z; 12%Z]) 12 9
           "sort-from-table" false tt sampleStore).
  - reflexivity.
  - reflexivity.
  - repeat constructor; by eexists.
  - right. split; [reflexivity|].
    intros n next Hn Hnext. injection Hn as <-. discriminate Hnext.
Defined.

(** Filtering from step 11, which is a filter: it is selected and
    updated. *)
Lemma updateTableActionModule_reuses_focus_witness :
  updateTableActionModule sampleReducer unit sampleMapping
                          11 "filter" false tt sampleStore
  = Normal (Reused unit
              (Normal (dispatch sampleReducer (SetSelectedWfModule 1)
                                sampleStore))).
Proof.
  apply (updateTableActionModule_reuses_focus sampleReducer unit sampleMapping
           (WorkflowState [10%Z; 11%Z; 12%Z]) 11 4 1
           (WfModule 11 (Some 4%Z)) "filter" tt sampleStore);
    try reflexivity.
  repeat constructor; by eexists.
Defined.

End UpdateTableActionModuleFacts.
